(** * DeepForge: mission orchestration and execution control plane

    A shallow embedding of the control-plane code of DeepForge
    (task graph, approval engine, risk classifier and scorer, denylist,
    native runner, event bus, mission controller) and the properties
    established about it.

    Python objects are rendered as records, dictionaries that are iterated
    in insertion order as lists with unique keys, dictionaries that are only
    looked up as [gmap]s, and calls to collaborators outside the control
    plane (subprocesses, the test executor, the refactor engine, event
    handlers, clocks and uuid generation) as explicit inputs. *)

From Stdlib Require Import Ascii QArith Lqa.
From stdpp Require Import base list strings gmap.

Close Scope Q_scope.

Local Open Scope string_scope.
Local Open Scope list_scope.
Local Open Scope nat_scope.

(** ** src/cognition/planning/task_graph.py *)

Module TaskGraph.

(** [class TaskStatus(str, Enum)] *)
Inductive TaskStatus : Type :=
| PENDING | READY | RUNNING | COMPLETED | FAILED | SKIPPED.

#[global] Instance TaskStatus_eq_dec : EqDecision TaskStatus.
Proof. solve_decision. Defined.

(** [@dataclass class TaskNode] *)
Record TaskNode : Type := mkTaskNode {
  task_id : string;
  description : string;
  task_type : string;
  dependencies : list string;
  status : TaskStatus;
  estimated_time_seconds : Q;
  metadata : list (string * string)
}.

(** [task.status = s]: the node is a mutable object; assigning its status
    leaves every other field as it is. *)
Definition set_status (s : TaskStatus) (t : TaskNode) : TaskNode :=
  {| task_id := task_id t;
     description := description t;
     task_type := task_type t;
     dependencies := dependencies t;
     status := s;
     estimated_time_seconds := estimated_time_seconds t;
     metadata := metadata t |}.

(** [self._tasks : Dict[str, TaskNode]].  A Python dict iterates in insertion
    order and [add_task] always stores a node under its own [task_id], so the
    dict is the list of its values in insertion order, keyed by [task_id]. *)
Definition t : Type := list TaskNode.

Definition keys (g : t) : list string := map task_id g.

(** The keys of a dict are unique. *)
Definition wf (g : t) : Prop := NoDup (keys g).

(** [TaskGraph.__init__] *)
Definition empty : t := [].

(** [self._tasks[task.task_id] = task]: an existing key keeps its position
    and gets the new value, a new key is appended. *)
Fixpoint add_task (g : t) (task : TaskNode) : t :=
  match g with
  | [] => [task]
  | n :: g' =>
      if decide (task_id n = task_id task) then task :: g'
      else n :: add_task g' task
  end.

(** [self._tasks.get(task_id)] *)
Fixpoint get_task (g : t) (id : string) : option TaskNode :=
  match g with
  | [] => None
  | n :: g' => if decide (task_id n = id) then Some n else get_task g' id
  end.

(** [dep_id in self._tasks] *)
Definition contains (g : t) (id : string) : bool :=
  match get_task g id with Some _ => true | None => false end.

(** [self._tasks[dep_id].status == TaskStatus.COMPLETED]; the subscript is
    only evaluated for keys that passed [dep_id in self._tasks]. *)
Definition dep_completed (g : t) (dep_id : string) : bool :=
  match get_task g dep_id with
  | Some d => bool_decide (status d = COMPLETED)
  | None => false
  end.

(** [all(self._tasks[dep_id].status == COMPLETED
         for dep_id in task.dependencies if dep_id in self._tasks)] *)
Definition deps_completed (g : t) (task : TaskNode) : bool :=
  forallb (dep_completed g) (List.filter (contains g) (dependencies task)).

(** The body of the [for] loop of [get_ready_tasks], with the dict as it is
    when the loop reaches [task]. *)
Definition is_ready (g : t) (task : TaskNode) : bool :=
  bool_decide (status task = PENDING) && deps_completed g task.

(** The [for task in self._tasks.values()] loop of [get_ready_tasks].
    [visited] are the values the loop has passed (some of them already
    mutated to READY), [todo] those still ahead; the dict the body sees is
    [visited ++ todo].  Returns the dict after the loop and the list
    [ready], whose elements are the mutated node objects themselves. *)
Fixpoint ready_loop (visited todo : list TaskNode) : t * list TaskNode :=
  match todo with
  | [] => (visited, [])
  | task :: rest =>
      if is_ready (visited ++ task :: rest) task then
        let task' := set_status READY task in
        let '(g', ready) := ready_loop (visited ++ [task']) rest in
        (g', task' :: ready)
      else ready_loop (visited ++ [task]) rest
  end.

(** [TaskGraph.get_ready_tasks]: the graph after the call and the returned
    list. *)
Definition get_ready_tasks (g : t) : t * list TaskNode := ready_loop [] g.

(** [self._tasks[task_id].status = s], guarded by [task_id in self._tasks]. *)
Fixpoint assign_status (s : TaskStatus) (g : t) (id : string) : t :=
  match g with
  | [] => []
  | n :: g' =>
      if decide (task_id n = id) then set_status s n :: g'
      else n :: assign_status s g' id
  end.

(** [TaskGraph.mark_completed] *)
Definition mark_completed (g : t) (id : string) : t :=
  if contains g id then assign_status COMPLETED g id else g.

(** [TaskGraph.mark_failed] *)
Definition mark_failed (g : t) (id : string) : t :=
  if contains g id then assign_status FAILED g id else g.

(** [TaskGraph.is_complete] *)
Definition is_complete (g : t) : bool :=
  forallb (fun task => bool_decide (status task = COMPLETED)
                       || bool_decide (status task = SKIPPED)) g.

(** [all(dep in completed for dep in task.dependencies)] *)
Definition deps_placed (completed : gset string) (task : TaskNode) : bool :=
  forallb (fun dep => bool_decide (dep ∈ completed)) (dependencies task).

(** One run of the body of the [for] loop inside [get_execution_order]:
    [order] is the list, [completed] the set. *)
Definition order_step (acc : list string * gset string) (task : TaskNode)
  : list string * gset string :=
  let '(order, completed) := acc in
  if bool_decide (task_id task ∉ order) then
    if deps_placed completed task
    then (order ++ [task_id task], completed ∪ {[ task_id task ]})
    else (order, completed)
  else (order, completed).

Definition order_pass (g : t) (acc : list string * gset string)
  : list string * gset string :=
  fold_left order_step g acc.

(** The [while len(order) < len(self._tasks)] loop.  Each unit of [fuel]
    pays for one evaluation of the loop condition; [None] means the loop is
    still running when the fuel is spent. *)
Fixpoint order_while (fuel : nat) (g : t) (acc : list string * gset string)
  : option (list string) :=
  match fuel with
  | O => None
  | S fuel' =>
      if bool_decide (length (fst acc) < length g)
      then order_while fuel' g (order_pass g acc)
      else Some (fst acc)
  end.

(** [TaskGraph.get_execution_order] *)
Definition get_execution_order (fuel : nat) (g : t) : option (list string) :=
  order_while fuel g ([], ∅).

(** What the spec calls a ready task of [g]: it is pending and each of its
    dependency ids is either no key of [g] or the key of a completed
    task. *)
Definition eligible (g : t) (task : TaskNode) : Prop :=
  status task = PENDING ∧
  ∀ dep_id, dep_id ∈ dependencies task →
    get_task g dep_id = None ∨
    ∃ d, get_task g dep_id = Some d ∧ status d = COMPLETED.

(** The ways the graph of a mission changes: the methods of [TaskGraph] and
    the assignment [task.status = s] by a holder of the node stored under
    [id] (as [execute_next_step] does with RUNNING). *)
Inductive op : Type :=
| AddTask (task : TaskNode)
| GetReadyTasks
| MarkCompleted (id : string)
| MarkFailed (id : string)
| SetStatus (id : string) (s : TaskStatus).

Definition apply_op (g : t) (o : op) : t :=
  match o with
  | AddTask task => add_task g task
  | GetReadyTasks => fst (get_ready_tasks g)
  | MarkCompleted id => mark_completed g id
  | MarkFailed id => mark_failed g id
  | SetStatus id s => assign_status s g id
  end.

Definition apply_ops (g : t) (os : list op) : t := fold_left apply_op os g.

(** An operation that resets none of the tasks [ids] to pending. *)
Definition no_reset (ids : list string) (o : op) : Prop :=
  match o with
  | AddTask task => status task = PENDING → task_id task ∉ ids
  | SetStatus id s => s = PENDING → id ∉ ids
  | GetReadyTasks | MarkCompleted _ | MarkFailed _ => True
  end.

(** What [get_ready_tasks] makes of one node of the dict [g] it is called
    on. *)
Definition promote (g : t) (task : TaskNode) : TaskNode :=
  if is_ready g task then set_status READY task else task.

(** Two dicts with the same keys in the same order whose entries agree on
    being completed. *)
Definition similar (g1 g2 : t) : Prop :=
  Forall2 (fun a b => task_id a = task_id b ∧
                      (status a = COMPLETED ↔ status b = COMPLETED)) g1 g2.

(** No task whose id is in [ids] is pending. *)
Definition settled (ids : list string) (g : t) : Prop :=
  ∀ x, x ∈ g → task_id x ∈ ids → status x ≠ PENDING.

(** Every dependency id is a key of the graph. *)
Definition closed (g : t) : Prop :=
  ∀ task, task ∈ g → ∀ d, d ∈ dependencies task → d ∈ keys g.

(** The graph has no dependency cycle: the ids can be ranked so that every
    dependency ranks below the task that names it. *)
Definition acyclic (g : t) : Prop :=
  ∃ rank : string → nat,
    ∀ task, task ∈ g → ∀ d, d ∈ dependencies task →
      rank d < rank (task_id task).

(** In [order], a task stands only after all of its dependencies. *)
Definition topological (g : t) (order : list string) : Prop :=
  ∀ pre id post, order = pre ++ id :: post →
    ∀ task, task ∈ g → task_id task = id →
      ∀ d, d ∈ dependencies task → d ∈ pre.

(** What holds of [(order, completed)] throughout
    [get_execution_order]. *)
Definition order_inv (g : t) (acc : list string * gset string) : Prop :=
  (∀ x, x ∈ snd acc ↔ x ∈ fst acc) ∧
  NoDup (fst acc) ∧
  (∀ x, x ∈ fst acc → x ∈ keys g) ∧
  topological g (fst acc).

(** What holds of [(order, completed)] throughout [get_execution_order]
    when the task [id] names a dependency that is no key of the graph. *)
Definition blocked (g : t) (id : string) (acc : list string * gset string)
  : Prop :=
  (∀ x, x ∈ snd acc → x ∈ keys g) ∧
  (id ∉ fst acc) ∧
  NoDup (fst acc) ∧
  (∀ x, x ∈ fst acc → x ∈ keys g).

(** A node with the default values of the dataclass for the fields the
    graph never reads. *)
Definition node (id type : string) (deps : list string) (s : TaskStatus)
  : TaskNode :=
  {| task_id := id; description := ""; task_type := type;
     dependencies := deps; status := s;
     estimated_time_seconds := 0%Q; metadata := [] |}.

(** A plan of one task that names a dependency the plan does not hold. *)
Definition dangling_plan : t := [ node "A" "development" ["ghost"] PENDING ].

(** A plan of two tasks in a chain. *)
Definition chain_plan : t :=
  [ node "A" "setup" [] PENDING; node "B" "development" ["A"] PENDING ].

(** Scenario 1 of the spec: B and C both depend on A. *)
Definition fork_plan : t :=
  [ node "A" "setup" [] PENDING;
    node "B" "frontend" ["A"] PENDING;
    node "C" "backend" ["A"] PENDING ].

(** The number of tasks still PENDING. *)
Definition count_pending (g : t) : nat :=
  length (List.filter (fun task => bool_decide (status task = PENDING)) g).

(** Some task is READY or FAILED. *)
Definition doomed (g : t) : Prop :=
  ∃ task, task ∈ g ∧ (status task = READY ∨ status task = FAILED).

(** A set of ids none of which can ever be placed by
    [get_execution_order]: every task of the set names a dependency that is
    in the set or is no key of the graph. *)
Definition stuck_set (g : t) (ids : gset string) : Prop :=
  ∀ task, task ∈ g → task_id task ∈ ids →
    ∃ d, d ∈ dependencies task ∧ (d ∈ ids ∨ d ∉ keys g).

(** A set of ids none of which [get_ready_tasks] can return: no task of the
    set is completed, and each names a dependency that is a key and in the
    set. *)
Definition waiting_set (g : t) (ids : gset string) : Prop :=
  ∀ task, task ∈ g → task_id task ∈ ids →
    status task ≠ COMPLETED ∧
    ∃ d, d ∈ dependencies task ∧ d ∈ ids ∧ d ∈ keys g.

(** Two tasks that depend on each other. *)
Definition cycle_plan : t :=
  [ node "A" "setup" ["B"] PENDING; node "B" "development" ["A"] PENDING ].

(** What holds of [(order, completed)] throughout [get_execution_order]
    when [ids] is a stuck set: nothing of the set is placed. *)
Definition away (g : t) (ids : gset string)
    (acc : list string * gset string) : Prop :=
  (∀ x, x ∈ snd acc → x ∈ keys g ∧ x ∉ ids) ∧
  (∀ x, x ∈ fst acc → x ∈ keys g ∧ x ∉ ids) ∧
  NoDup (fst acc).

(** An operation that neither completes nor replaces a task of [ids]. *)
Definition spares (ids : gset string) (o : op) : Prop :=
  match o with
  | AddTask task => task_id task ∉ ids
  | MarkCompleted id => id ∉ ids
  | SetStatus id s => id ∈ ids → s ≠ COMPLETED
  | GetReadyTasks | MarkFailed _ => True
  end.

End TaskGraph.

(** ** Python calls *)

Module Py.

(** A call either returns a value or raises; [E] is what is known of the
    exception. *)
Inductive result (E A : Type) : Type :=
| Return (a : A)
| Raise (e : E).
Arguments Return {E A} a.
Arguments Raise {E A} e.

End Py.

(** ** Python strings

    A [str] is rendered as a [string] over the 8-bit code points
    (Latin-1). *)

Module PyStr.

(** One code point of [str.lower()]: A-Z and the Latin-1 capitals
    (U+00C0..U+00DE without the multiplication sign U+00D7) move up by 32. *)
Definition lower_ascii (c : ascii) : ascii :=
  let n := N_of_ascii c in
  if ((65 <=? n) && (n <=? 90))%N
     || ((192 <=? n) && (n <=? 222) && negb (n =? 215))%N
  then ascii_of_N (n + 32) else c.

(** One code point of simple upper-casing, as the regex engine uses it: a-z
    and the Latin-1 small letters whose capital is again in Latin-1. *)
Definition upper_ascii (c : ascii) : ascii :=
  let n := N_of_ascii c in
  if ((97 <=? n) && (n <=? 122))%N
     || ((224 <=? n) && (n <=? 254) && negb (n =? 247))%N
  then ascii_of_N (n - 32) else c.

(** [s.lower()] *)
Fixpoint lower (s : string) : string :=
  match s with
  | EmptyString => EmptyString
  | String c s' => String (lower_ascii c) (lower s')
  end.

(** [hay.startswith(needle)] *)
Fixpoint startswith (hay needle : string) {struct needle} : bool :=
  match needle with
  | EmptyString => true
  | String a needle' =>
      match hay with
      | EmptyString => false
      | String b hay' => Ascii.eqb a b && startswith hay' needle'
      end
  end.

(** [needle in hay] for two strings: [needle] occurs at some offset. *)
Fixpoint str_in (needle hay : string) : bool :=
  startswith hay needle
  || match hay with
     | EmptyString => false
     | String _ hay' => str_in needle hay'
     end.

(** [sep.join(parts)] *)
Fixpoint join (sep : string) (parts : list string) : string :=
  match parts with
  | [] => ""
  | [p] => p
  | p :: rest => p +:+ sep +:+ join sep rest
  end.

(** [s.isascii()]: every code point is below 128. *)
Fixpoint isascii (s : string) : bool :=
  match s with
  | EmptyString => true
  | String c s' => (N_of_ascii c <? 128)%N && isascii s'
  end.

End PyStr.

(** ** src/control/risk_classifier.py *)

Module RiskClassifier.

(** [class RiskCategory(Enum)] *)
Inductive RiskCategory : Type :=
| FILESYSTEM | NETWORK | SYSTEM | CODE_EXECUTION | DATA_ACCESS.

#[global] Instance RiskCategory_eq_dec : EqDecision RiskCategory.
Proof. solve_decision. Defined.

(** [c.value] *)
Definition value (c : RiskCategory) : string :=
  match c with
  | FILESYSTEM => "filesystem"
  | NETWORK => "network"
  | SYSTEM => "system"
  | CODE_EXECUTION => "code_execution"
  | DATA_ACCESS => "data_access"
  end.

(** [@dataclass class Classification] *)
Record Classification : Type := mkClassification {
  level : string;
  categories : list RiskCategory;
  confidence : Q;
  explanation : string
}.

(** [RiskClassifier.CATEGORY_KEYWORDS], in the order of the dict literal. *)
Definition CATEGORY_KEYWORDS : list (RiskCategory * list string) :=
  [ (FILESYSTEM,
     ["file"; "write"; "read"; "delete"; "remove";
      "mkdir"; "rmdir"; "path"; "directory"]);
    (NETWORK,
     ["http"; "https"; "socket"; "request"; "url";
      "download"; "upload"; "api"; "fetch"]);
    (SYSTEM,
     ["subprocess"; "os."; "sys."; "shell"; "command";
      "execute"; "run"; "process"]);
    (CODE_EXECUTION,
     ["eval"; "exec"; "compile"; "import"; "__"]);
    (DATA_ACCESS,
     ["database"; "sql"; "query"; "select"; "insert";
      "password"; "credential"; "secret"; "key"]) ].

(** The inner loop [for keyword in keywords: if keyword in operation_lower:
    categories.append(category); break], as the answer to "was the category
    appended". *)
Fixpoint scan_keywords (operation_lower : string) (keywords : list string)
  : bool :=
  match keywords with
  | [] => false
  | keyword :: rest =>
      if PyStr.str_in keyword operation_lower then true
      else scan_keywords operation_lower rest
  end.

(** The outer loop [for category, keywords in self.CATEGORY_KEYWORDS.items()]
    with [categories] as accumulator. *)
Fixpoint scan_categories (operation_lower : string)
    (table : list (RiskCategory * list string))
    (categories : list RiskCategory) : list RiskCategory :=
  match table with
  | [] => categories
  | (category, keywords) :: rest =>
      scan_categories operation_lower rest
        (if scan_keywords operation_lower keywords
         then categories ++ [category] else categories)
  end.

(** [c in high_risk_categories] *)
Definition high_risk (c : RiskCategory) : bool :=
  bool_decide (c = SYSTEM) || bool_decide (c = CODE_EXECUTION).

(** [str([c.value for c in categories])]: the [repr] of a list of strings
    without quotes or backslashes. *)
Definition repr_values (cs : list RiskCategory) : string :=
  "[" +:+ PyStr.join ", " (map (fun c => "'" +:+ value c +:+ "'") cs) +:+ "]".

(** [RiskClassifier.classify]; [context] is not read by the method. *)
Definition classify (operation : string) : Classification :=
  let operation_lower := PyStr.lower operation in
  let categories := scan_categories operation_lower CATEGORY_KEYWORDS [] in
  match categories with
  | [] =>
      {| level := "low";
         categories := [];
         confidence := 0.8%Q;
         explanation := "No high-risk patterns detected" |}
  | _ :: _ =>
      let level :=
        if existsb high_risk categories then "high"
        else if bool_decide (2 < length categories) then "medium"
        else "low" in
      {| level := level;
         categories := categories;
         confidence := (0.7 + 0.1 * inject_Z (Z.of_nat (length categories)))%Q;
         explanation := "Detected categories: " +:+ repr_values categories |}
  end.

(** A category is matched by an operation when one of its keywords occurs
    in the lower-cased operation text. *)
Definition matched (operation : string) (c : RiskCategory) : Prop :=
  ∃ keywords keyword,
    (c, keywords) ∈ CATEGORY_KEYWORDS ∧ keyword ∈ keywords ∧
    PyStr.str_in keyword (PyStr.lower operation) = true.

(** The levels in rising order. *)
Definition level_rank (level : string) : nat :=
  if bool_decide (level = "high") then 2
  else if bool_decide (level = "medium") then 1 else 0.

End RiskClassifier.

(** ** src/sandbox/policy/risk_scoring.py *)

Module RiskScorer.

(** [class RiskLevel(Enum)] *)
Inductive RiskLevel : Type := LOW | MEDIUM | HIGH | CRITICAL.

(** [@dataclass class RiskAssessment]; the float [score] is kept as an exact
    rational. *)
Record RiskAssessment : Type := mkRiskAssessment {
  level : RiskLevel;
  score : Q;
  factors : list string;
  requires_approval : bool
}.

Definition HIGH_RISK_PATTERNS : list string :=
  [ "subprocess"; "os.system"; "eval"; "exec";
    "open("; "write("; "remove"; "rmdir"; "unlink";
    "shutil"; "pathlib"; "socket"; "requests";
    "urllib"; "http"; "ftp"; "ssh" ].

Definition CRITICAL_PATTERNS : list string :=
  [ "rm -rf"; "format"; "del /"; "deltree";
    "__import__"; "importlib"; "ctypes";
    "sys.exit"; "os._exit" ].

(** [self.approval_threshold = 0.6] *)
Definition approval_threshold : Q := 0.6%Q.

(** The part of [context] that [assess] reads: the value stored under each
    key is a list of capability names. *)
Definition Context : Type := gmap string (list string).

(** [context.get("capabilities", [])] *)
Definition capabilities (context : Context) : list string :=
  default [] (context !! "capabilities").

(** [x >= y] on scores *)
Definition geb (x y : Q) : bool := Qle_bool y x.

(** [min(score, 1.0)]: Python returns the first argument unless the second
    is strictly smaller. *)
Definition py_min (x y : Q) : Q := if Qle_bool x y then x else y.

(** One of the two [for pattern in ...] loops: a hit appends a factor and
    adds [weight] to the score. *)
Fixpoint scan_patterns (label : string) (weight : Q) (code_lower : string)
    (patterns : list string) (acc : list string * Q) : list string * Q :=
  match patterns with
  | [] => acc
  | pattern :: rest =>
      scan_patterns label weight code_lower rest
        (if PyStr.str_in (PyStr.lower pattern) code_lower
         then (fst acc ++ [label +:+ pattern], (snd acc + weight)%Q)
         else acc)
  end.

(** The score before [min(score, 1.0)], with its factors. *)
Definition raw_assess (code : string) (context : Context) : list string * Q :=
  let code_lower := PyStr.lower code in
  let acc := ([], 0%Q) in
  let acc := scan_patterns "Critical pattern: " 0.4%Q code_lower
               CRITICAL_PATTERNS acc in
  let acc := scan_patterns "High-risk pattern: " 0.15%Q code_lower
               HIGH_RISK_PATTERNS acc in
  let acc :=
    if bool_decide ("network" ∈ capabilities context)
    then (fst acc ++ ["Network access requested"], (snd acc + 0.2)%Q)
    else acc in
  if bool_decide ("filesystem" ∈ capabilities context)
  then (fst acc ++ ["Filesystem access requested"], (snd acc + 0.1)%Q)
  else acc.

(** [RiskScorer.assess]; a missing [context] is the empty dict. *)
Definition assess (code : string) (context : option Context) : RiskAssessment :=
  let context := default ∅ context in
  let '(factors, score) := raw_assess code context in
  let score := py_min score 1.0%Q in
  let level :=
    if geb score 0.8%Q then CRITICAL
    else if geb score 0.6%Q then HIGH
    else if geb score 0.3%Q then MEDIUM
    else LOW in
  {| level := level;
     score := score;
     factors := factors;
     requires_approval := geb score approval_threshold |}.

(** The levels in rising order. *)
Definition rank (l : RiskLevel) : nat :=
  match l with LOW => 0 | MEDIUM => 1 | HIGH => 2 | CRITICAL => 3 end.

(** Either no factor was recorded and the score is zero, or some factor
    was and the score is positive. *)
Definition accounted (acc : list string * Q) : Prop :=
  (fst acc = [] ∧ snd acc == 0)%Q ∨ (fst acc ≠ [] ∧ 0 < snd acc)%Q.

End RiskScorer.

(** ** The fragment of Python's [re] that the denylist uses

    Patterns are sequences of single-character atoms (a literal, an escaped
    punctuation mark, [\s], a bracket class of characters and ranges), each
    optionally followed by [*] or [+].  Everything else ([.], groups,
    alternation, anchors, other escapes) is outside the fragment and
    [compile] answers [None] for it.  All patterns are compiled with
    [re.IGNORECASE]. *)

Module Regex.

Inductive charset : Type :=
| Literal (c : ascii)
| Whitespace
| Class (ranges : list (ascii * ascii)).

Inductive quant : Type := Once | ZeroOrMore | OneOrMore.

Definition program : Type := list (charset * quant).

Inductive token : Type :=
| TAtom (cs : charset)
| TStar
| TPlus.

Definition is_punct (c : ascii) : bool :=
  PyStr.str_in (String c EmptyString) "()[]{}.*+?^$|\/-:'".

Definition is_special (c : ascii) : bool :=
  PyStr.str_in (String c EmptyString) "().?^$|{}]".

(** The lexer.  [in_class] is [Some ranges] between [[] and []].  [None]
    is the answer for every pattern outside the fragment: anchors, [.],
    groups, [?], [{], alternation, escapes other than [\s] and escaped
    punctuation, and inside a class negation, escapes and ranges that
    [re] refuses. *)
Fixpoint lex (in_class : option (list (ascii * ascii))) (s : string)
  : option (list token) :=
  match in_class, s with
  | None, EmptyString => Some []
  | None, String "\" (String c rest) =>
      if Ascii.eqb c "s" then cons (TAtom Whitespace) <$> lex None rest
      else if is_punct c then cons (TAtom (Literal c)) <$> lex None rest
      else None
  | None, String "[" rest => lex (Some []) rest
  | None, String "*" rest => cons TStar <$> lex None rest
  | None, String "+" rest => cons TPlus <$> lex None rest
  | None, String c rest =>
      if is_special c || Ascii.eqb c "\" then None
      else cons (TAtom (Literal c)) <$> lex None rest
  | Some _, EmptyString => None
  | Some [], String "]" _ | Some [], String "^" _ => None
  | Some ranges, String "]" rest =>
      cons (TAtom (Class ranges)) <$> lex None rest
  | Some ranges, String lo (String "-" (String hi rest)) =>
      if Ascii.eqb lo "\" || Ascii.eqb hi "\" then None
      else if Ascii.eqb hi "]" then
        cons (TAtom (Class (ranges ++ [(lo, lo); ("-", "-")]))) <$> lex None rest
      else if (N_of_ascii hi <? N_of_ascii lo)%N then None
      else lex (Some (ranges ++ [(lo, hi)])) rest
  | Some ranges, String c rest =>
      if Ascii.eqb c "\" then None
      else lex (Some (ranges ++ [(c, c)])) rest
  end%char.

(** Attach each quantifier to the atom before it. *)
Fixpoint group (ts : list token) : option program :=
  match ts with
  | [] => Some []
  | TAtom cs :: TStar :: rest => cons (cs, ZeroOrMore) <$> group rest
  | TAtom cs :: TPlus :: rest => cons (cs, OneOrMore) <$> group rest
  | TAtom cs :: rest => cons (cs, Once) <$> group rest
  | TStar :: _ | TPlus :: _ => None
  end.

(** A compiled pattern object; [pattern] is its source text. *)
Record Pattern : Type := mkPattern {
  pattern : string;
  prog : program
}.

(** [re.compile(p, re.IGNORECASE)] *)
Definition compile (p : string) : option Pattern :=
  ts ← lex None p; mkPattern p <$> group ts.

(** [\s] on a [str]: the code points for which [str.isspace()] holds. *)
Definition is_space (c : ascii) : bool :=
  let n := N_of_ascii c in
  (((9 <=? n) && (n <=? 13)) || ((28 <=? n) && (n <=? 32))
   || (n =? 133) || (n =? 160))%N.

Definition in_range (r : ascii * ascii) (c : ascii) : bool :=
  ((N_of_ascii (fst r) <=? N_of_ascii c)
   && (N_of_ascii c <=? N_of_ascii (snd r)))%N.

(** Does the atom accept the character, ignoring case. *)
Definition accepts (cs : charset) (c : ascii) : bool :=
  match cs with
  | Literal l => Ascii.eqb (PyStr.lower_ascii c) (PyStr.lower_ascii l)
  | Whitespace => is_space c
  | Class ranges =>
      existsb (fun r => in_range r (PyStr.lower_ascii c)
                        || in_range r (PyStr.upper_ascii c)) ranges
  end.

(** [pattern.match(s)] as a truth value: some prefix of [s] matches. *)
Fixpoint match_here (re : program) (s : string) {struct re} : bool :=
  match re with
  | [] => true
  | (cs, q) :: re' =>
      let star :=
        fix star (s : string) : bool :=
          match_here re' s
          || match s with
             | String c s' => accepts cs c && star s'
             | EmptyString => false
             end in
      match q with
      | Once =>
          match s with
          | String c s' => accepts cs c && match_here re' s'
          | EmptyString => false
          end
      | ZeroOrMore => star s
      | OneOrMore =>
          match s with
          | String c s' => accepts cs c && star s'
          | EmptyString => false
          end
      end
  end.

(** [pattern.search(s)] as a truth value: a match at some offset. *)
Fixpoint search_prog (re : program) (s : string) : bool :=
  match_here re s
  || match s with
     | String _ s' => search_prog re s'
     | EmptyString => false
     end.

Definition search (p : Pattern) (s : string) : bool := search_prog (prog p) s.

(** The loop of [match_here] for a starred atom: stop here, or take one
    more character. *)
Definition star_loop (cs : charset) (re' : program) : string → bool :=
  fix star (s : string) : bool :=
    match_here re' s
    || match s with
       | String c s' => accepts cs c && star s'
       | EmptyString => false
       end.

End Regex.

(** ** src/sandbox/policy/denylist.py *)

Module Denylist.

Definition DANGEROUS_MODULES : gset string :=
  {[ "os"; "subprocess"; "shutil"; "sys";
     "ctypes"; "socket"; "pickle"; "marshal" ]}.

Definition DANGEROUS_PATTERNS : list string :=
  [ "rm\s+-rf";
    "del\s+/[fs]";
    "format\s+[a-z]:";
    "__import__\s*\(";
    "exec\s*\(";
    "eval\s*\(";
    "compile\s*\(";
    "globals\s*\(";
    "locals\s*\(";
    "getattr\s*\(\s*__builtins__" ].

(** The state of a [Denylist] object. *)
Record t : Type := mkDenylist {
  denied_modules : gset string;
  denied_patterns : list Regex.Pattern
}.

(** [Denylist.__init__]; [None] would be a pattern that fails to compile. *)
Definition init : option t :=
  mkDenylist DANGEROUS_MODULES <$> mapM Regex.compile DANGEROUS_PATTERNS.

(** [Denylist.add_module] *)
Definition add_module (d : t) (module : string) : t :=
  {| denied_modules := denied_modules d ∪ {[ module ]};
     denied_patterns := denied_patterns d |}.


(** [Denylist.is_module_denied] *)
Definition is_module_denied (d : t) (module : string) : bool :=
  bool_decide (module ∈ denied_modules d).

(** The [for pattern in self._denied_patterns] loop of [check_code]. *)
Fixpoint scan (patterns : list Regex.Pattern) (code : string)
    (violations : list string) : list string :=
  match patterns with
  | [] => violations
  | p :: rest =>
      scan rest code
        (if Regex.search p code
         then violations ++ ["Denied pattern: " +:+ Regex.pattern p]
         else violations)
  end.

(** [Denylist.check_code] *)
Definition check_code (d : t) (code : string) : bool * list string :=
  let violations := scan (denied_patterns d) code [] in
  (bool_decide (length violations = 0), violations).

(** The object [Denylist()] builds: all ten patterns compile. *)
Definition fresh : t :=
  default {| denied_modules := DANGEROUS_MODULES; denied_patterns := [] |} init.

(** The code of scenario 4 of the spec. *)
Definition sample : string := "os.system('rm -rf /')".

(** A violation entry refers to [what] when its text contains it. *)
Definition mentions (what entry : string) : Prop :=
  PyStr.str_in what entry = true.

(** The entry [check_code] records for a pattern. *)
Definition violation (p : Regex.Pattern) : string :=
  "Denied pattern: " +:+ Regex.pattern p.

(** [Denylist.get_denied_modules] is the sorted list of this set. *)
Definition get_denied_modules (d : t) : gset string := denied_modules d.

End Denylist.

(** ** src/control/approval_engine.py *)

Module ApprovalEngine.

(** [class ApprovalStatus(Enum)] *)
Inductive ApprovalStatus : Type :=
| PENDING | APPROVED | DENIED | EXPIRED | AUTO_APPROVED.

#[global] Instance ApprovalStatus_eq_dec : EqDecision ApprovalStatus.
Proof. solve_decision. Defined.

(** A [datetime], as a reading of the clock. *)
Definition datetime : Type := Z.

(** [@dataclass class ApprovalRequest] *)
Record ApprovalRequest : Type := mkApprovalRequest {
  request_id : string;
  operation : string;
  description : string;
  risk_level : string;
  context : gmap string string;
  status : ApprovalStatus;
  created_at : datetime;
  resolved_at : option datetime;
  resolved_by : option string;
  reason : option string
}.

(** The state of an [ApprovalEngine] object. *)
Record t : Type := mkEngine {
  auto_approve_low_risk : bool;
  pending_requests : gmap string ApprovalRequest;
  history : list ApprovalRequest
}.

(** [ApprovalEngine.__init__] *)
Definition init (auto_approve_low_risk : bool) : t :=
  {| auto_approve_low_risk := auto_approve_low_risk;
     pending_requests := ∅;
     history := [] |}.

(** [ApprovalEngine.request_approval].  [uuid] is the value of
    [str(uuid.uuid4())] and [now] the reading of [datetime.now()] during the
    call.  Returns the engine after the call and the request. *)
Definition request_approval (e : t) (uuid : string) (now : datetime)
    (operation description risk_level : string)
    (context : option (gmap string string)) : t * ApprovalRequest :=
  let request_id := uuid in
  let request :=
    {| request_id := request_id;
       operation := operation;
       description := description;
       risk_level := risk_level;
       context := default ∅ context;
       status := PENDING;
       created_at := now;
       resolved_at := None;
       resolved_by := None;
       reason := None |} in
  if auto_approve_low_risk e && bool_decide (risk_level = "low") then
    let request :=
      {| request_id := request_id;
         operation := operation;
         description := description;
         risk_level := risk_level;
         context := default ∅ context;
         status := AUTO_APPROVED;
         created_at := now;
         resolved_at := Some now;
         resolved_by := None;
         reason := Some "Auto-approved low-risk operation" |} in
    ({| auto_approve_low_risk := auto_approve_low_risk e;
        pending_requests := pending_requests e;
        history := history e ++ [request] |}, request)
  else
    ({| auto_approve_low_risk := auto_approve_low_risk e;
        pending_requests := <[request_id := request]> (pending_requests e);
        history := history e |}, request).

(** The common body of [approve] and [deny]: pop the request, stamp it with
    the verdict and append it to the history. *)
Definition resolve (verdict : ApprovalStatus) (e : t) (request_id : string)
    (now : datetime) (by_whom : string) (why : option string)
  : t * option ApprovalRequest :=
  match pending_requests e !! request_id with
  | Some request =>
      let request :=
        {| request_id := ApprovalEngine.request_id request;
           operation := operation request;
           description := description request;
           risk_level := risk_level request;
           context := context request;
           status := verdict;
           created_at := created_at request;
           resolved_at := Some now;
           resolved_by := Some by_whom;
           reason := why |} in
      ({| auto_approve_low_risk := auto_approve_low_risk e;
          pending_requests := delete request_id (pending_requests e);
          history := history e ++ [request] |}, Some request)
  | None => (e, None)
  end.

(** [ApprovalEngine.approve] *)
Definition approve := resolve APPROVED.

(** [ApprovalEngine.deny] *)
Definition deny := resolve DENIED.

(** [ApprovalEngine.get_request] *)
Definition get_request (e : t) (request_id : string) : option ApprovalRequest :=
  pending_requests e !! request_id.

(** The loop of [is_approved] over [self._history]: the first entry with the
    id decides. *)
Fixpoint is_approved_in (h : list ApprovalRequest) (id : string) : bool :=
  match h with
  | [] => false
  | req :: rest =>
      if decide (request_id req = id)
      then bool_decide (status req = APPROVED)
           || bool_decide (status req = AUTO_APPROVED)
      else is_approved_in rest id
  end.

(** [ApprovalEngine.is_approved] *)
Definition is_approved (e : t) (request_id : string) : bool :=
  is_approved_in (history e) request_id.

(** The calls a client can make on an engine, with the environment's
    contribution (uuid, clock) to each. *)
Inductive call : Type :=
| Request (uuid : string) (now : datetime)
    (operation description risk_level : string)
    (context : option (gmap string string))
| Approve (request_id : string) (now : datetime) (by_whom : string)
    (why : option string)
| Deny (request_id : string) (now : datetime) (by_whom : string)
    (why : option string).

Definition step (e : t) (c : call) : t :=
  match c with
  | Request uuid now op d r ctx => fst (request_approval e uuid now op d r ctx)
  | Approve id now who why => fst (approve e id now who why)
  | Deny id now who why => fst (deny e id now who why)
  end.

Definition run (e : t) (cs : list call) : t := fold_left step cs e.

(** The ids an engine knows: those pending and those in the history. *)
Definition known (e : t) (id : string) : Prop :=
  is_Some (pending_requests e !! id) ∨ id ∈ map request_id (history e).

(** A call that leaves request [id] alone: it neither resolves it nor
    draws its uuid again. *)
Definition leaves_alone (id : string) (c : call) : Prop :=
  match c with
  | Request uuid _ _ _ _ _ => uuid ≠ id
  | Approve id' _ _ _ | Deny id' _ _ _ => id' ≠ id
  end.

(** A call that does not draw the uuid [id] again. *)
Definition no_redraw (id : string) (c : call) : Prop :=
  match c with
  | Request uuid _ _ _ _ _ => uuid ≠ id
  | Approve _ _ _ _ | Deny _ _ _ _ => True
  end.

(** Every pending request is stored under its own id. *)
Definition wf (e : t) : Prop :=
  ∀ k r, pending_requests e !! k = Some r → request_id r = k.

(** Request [id] is held: pending under its id and absent from the
    history. *)
Definition held (id : string) (req : ApprovalRequest) (e : t) : Prop :=
  pending_requests e !! id = Some req ∧ id ∉ map request_id (history e).

(** Request [id] is through: not pending, in the history, approved. *)
Definition through (id : string) (e : t) : Prop :=
  pending_requests e !! id = None ∧
  id ∈ map request_id (history e) ∧
  is_approved e id = true.

(** [ApprovalEngine.get_pending]: the values of the pending table (in an
    order the model does not fix). *)
Definition get_pending (e : t) : list ApprovalRequest :=
  snd <$> map_to_list (pending_requests e).

(** A call as the environment makes it: the uuid of a request is one the
    engine has not seen. *)
Definition admissible (e : t) (c : call) : Prop :=
  match c with
  | Request uuid _ _ _ _ _ => ¬ known e uuid
  | Approve _ _ _ _ | Deny _ _ _ _ => True
  end.

Fixpoint admissible_run (e : t) (cs : list call) : Prop :=
  match cs with
  | [] => True
  | c :: cs => admissible e c ∧ admissible_run (step e c) cs
  end.

(** A request that has received a verdict. *)
Definition resolved (r : ApprovalRequest) : Prop :=
  status r = APPROVED ∨ status r = DENIED ∨ status r = AUTO_APPROVED.

(** What every engine satisfies that is reached from a new one: pending
    requests are stored under their ids and are PENDING, the history holds
    resolved requests only and each id once, and no id is both pending and
    in the history. *)
Definition sound (e : t) : Prop :=
  wf e ∧
  (∀ k r, pending_requests e !! k = Some r → status r = PENDING) ∧
  Forall resolved (history e) ∧
  NoDup (map request_id (history e)) ∧
  (∀ k, is_Some (pending_requests e !! k) → k ∉ map request_id (history e)).

(** Request [id] has left the pending table with the verdict [b]. *)
Definition decided (b : bool) (id : string) (e : t) : Prop :=
  pending_requests e !! id = None ∧
  id ∈ map request_id (history e) ∧
  is_approved e id = b.

End ApprovalEngine.

(** ** src/sandbox/runners/native_runner.py *)

Module NativeRunner.

(** The exceptions [subprocess.run] can raise. *)
Inductive exn : Type :=
| TimeoutExpired
| FileNotFoundError
| OtherError (name : string).

Definition result (A : Type) : Type := Py.result exn A.

(** [subprocess.CompletedProcess] with captured text output. *)
Record CompletedProcess : Type := mkCompletedProcess {
  returncode : Z;
  cp_stdout : string;
  cp_stderr : string
}.

(** [@dataclass class ExecutionResult] *)
Record ExecutionResult : Type := mkExecutionResult {
  exit_code : Z;
  stdout : string;
  stderr : string;
  duration_ms : Q
}.

(** The host as [execute] sees it: [os.environ], the two readings of
    [time.time()], and what [subprocess.run(argv, cwd, env, timeout)]
    does. *)
Record Host : Type := mkHost {
  environ : gmap string string;
  time_before : Q;
  time_after : Q;
  subprocess_run :
    list string → string → gmap string string → Q → result CompletedProcess
}.

(** [full_env = os.environ.copy(); if env: full_env.update(env)] *)
Definition merged_env (host : Host) (env : option (gmap string string))
  : gmap string string :=
  match env with
  | Some env => env ∪ environ host
  | None => environ host
  end.

(** [NativeRunner.execute] on a runner with [self.working_dir]. *)
Definition execute (host : Host) (working_dir : string) (command : string)
    (args : option (list string)) (env : option (gmap string string))
    (timeout : Q) : result ExecutionResult :=
  let args := default [] args in
  let full_env := merged_env host env in
  let start_time := time_before host in
  match subprocess_run host (command :: args) working_dir full_env timeout with
  | Py.Return r =>
      let duration_ms := ((time_after host - start_time) * 1000)%Q in
      Py.Return {| exit_code := returncode r;
                stdout := cp_stdout r;
                stderr := cp_stderr r;
                duration_ms := duration_ms |}
  | Py.Raise TimeoutExpired =>
      Py.Return {| exit_code := -1;
                stdout := "";
                stderr := "Execution timed out";
                duration_ms := (timeout * 1000)%Q |}
  | Py.Raise FileNotFoundError =>
      Py.Return {| exit_code := -1;
                stdout := "";
                stderr := "Command not found: " +:+ command;
                duration_ms := 0%Q |}
  | Py.Raise e => Py.Raise e
  end.

End NativeRunner.

(** ** src/core/events/ *)

Module EventBus.

(** [class EventType(str, Enum)] *)
Inductive EventType : Type :=
| SYSTEM_STARTED | SYSTEM_STOPPED
| MISSION_CREATED | MISSION_STARTED | MISSION_COMPLETED | MISSION_FAILED
| MISSION_PAUSED | MISSION_RESUMED | MISSION_CANCELLED
| PLAN_GENERATED
| STEP_STARTED | STEP_COMPLETED | STEP_FAILED | STEP_APPROVAL_REQUIRED
| CODE_GENERATED | CODE_MODIFIED
| TEST_PASSED | TEST_FAILED
| WORKSPACE_CREATED | FILE_MODIFIED.

(** The string each member is (and hashes as). *)
Definition value (ty : EventType) : string :=
  match ty with
  | SYSTEM_STARTED => "system.started"
  | SYSTEM_STOPPED => "system.stopped"
  | MISSION_CREATED => "mission.created"
  | MISSION_STARTED => "mission.started"
  | MISSION_COMPLETED => "mission.completed"
  | MISSION_FAILED => "mission.failed"
  | MISSION_PAUSED => "mission.paused"
  | MISSION_RESUMED => "mission.resumed"
  | MISSION_CANCELLED => "mission.cancelled"
  | PLAN_GENERATED => "plan.generated"
  | STEP_STARTED => "step.started"
  | STEP_COMPLETED => "step.completed"
  | STEP_FAILED => "step.failed"
  | STEP_APPROVAL_REQUIRED => "step.approval_required"
  | CODE_GENERATED => "code.generated"
  | CODE_MODIFIED => "code.modified"
  | TEST_PASSED => "test.passed"
  | TEST_FAILED => "test.failed"
  | WORKSPACE_CREATED => "workspace.created"
  | FILE_MODIFIED => "file.modified"
  end.

(** [class EventEnvelope] *)
Record EventEnvelope : Type := mkEventEnvelope {
  event_type : EventType;
  payload : list (string * string);
  source : string;
  timestamp : Q;
  correlation_id : string;
  causation_id : option string;
  metadata : list (string * string)
}.

(** What calling a handler does to the caller.  [except Exception] catches
    the first kind of raise; exceptions that derive from [BaseException]
    only ([KeyboardInterrupt], [SystemExit], [GeneratorExit]) pass it. *)
Inductive outcome : Type :=
| Returns
| RaisesException (message : string)
| RaisesBaseException (name : string).

(** A subscribed handler: a plain callable
    ([asyncio.iscoroutinefunction(handler)] is false). *)
Definition Handler : Type := EventEnvelope → outcome.

(** The state of an [EventBus] object.  [_listeners] is keyed by the
    members of [EventType], that is by their string values. *)
Record t : Type := mkBus {
  listeners : gmap string (list Handler);
  wildcard_listeners : list Handler;
  event_queue : list EventEnvelope;
  dead_letter_queue : list EventEnvelope;
  running : bool
}.

(** [EventBus.__init__] *)
Definition init : t :=
  {| listeners := ∅; wildcard_listeners := []; event_queue := [];
     dead_letter_queue := []; running := false |}.

(** [EventBus.subscribe]: [self._listeners[event_type].append(handler)] on
    a [defaultdict(list)]. *)
Definition subscribe (b : t) (ty : EventType) (handler : Handler) : t :=
  {| listeners :=
       <[value ty := default [] (listeners b !! value ty) ++ [handler]]>
         (listeners b);
     wildcard_listeners := wildcard_listeners b;
     event_queue := event_queue b;
     dead_letter_queue := dead_letter_queue b;
     running := running b |}.

(** [EventBus.subscribe_all] *)
Definition subscribe_all (b : t) (handler : Handler) : t :=
  {| listeners := listeners b;
     wildcard_listeners := wildcard_listeners b ++ [handler];
     event_queue := event_queue b;
     dead_letter_queue := dead_letter_queue b;
     running := running b |}.

(** [EventBus.publish]: [self._event_queue.put(event)] *)
Definition publish (b : t) (event : EventEnvelope) : t :=
  {| listeners := listeners b;
     wildcard_listeners := wildcard_listeners b;
     event_queue := event_queue b ++ [event];
     dead_letter_queue := dead_letter_queue b;
     running := running b |}.

(** The list [handlers] that [_process_event_sync] builds: the handlers of
    the event's type, then the wildcard handlers. *)
Definition handlers_for (b : t) (event : EventEnvelope) : list Handler :=
  default [] (listeners b !! value (event_type event))
  ++ wildcard_listeners b.

(** What one delivery leaves behind: the dead-letter list, the handlers
    that were called (in call order), and the exception that left the
    loop, if one did. *)
Record delivery : Type := mkDelivery {
  dead_letters : list EventEnvelope;
  invoked : list Handler;
  escaped : option string
}.

(** The loop [for handler in handlers: try: handler(event)
    except Exception: self._dead_letter_queue.append(event)]. *)
Fixpoint deliver (handlers : list Handler) (event : EventEnvelope)
    (dlq : list EventEnvelope) (called : list Handler) : delivery :=
  match handlers with
  | [] => {| dead_letters := dlq; invoked := called; escaped := None |}
  | handler :: rest =>
      match handler event with
      | Returns => deliver rest event dlq (called ++ [handler])
      | RaisesException _ =>
          deliver rest event (dlq ++ [event]) (called ++ [handler])
      | RaisesBaseException e =>
          {| dead_letters := dlq; invoked := called ++ [handler];
             escaped := Some e |}
      end
  end.

(** [EventBus._process_event_sync]: the bus after the delivery and the
    record of the delivery. *)
Definition process_event_sync (b : t) (event : EventEnvelope) : t * delivery :=
  let d := deliver (handlers_for b event) event (dead_letter_queue b) [] in
  ({| listeners := listeners b;
      wildcard_listeners := wildcard_listeners b;
      event_queue := event_queue b;
      dead_letter_queue := dead_letters d;
      running := running b |}, d).

(** [EventBus.get_dead_letters] *)
Definition get_dead_letters (b : t) : list EventEnvelope := dead_letter_queue b.

(** [EventBus.clear_dead_letters] *)
Definition clear_dead_letters (b : t) : t :=
  {| listeners := listeners b;
     wildcard_listeners := wildcard_listeners b;
     event_queue := event_queue b;
     dead_letter_queue := [];
     running := running b |}.

(** Did the handler raise something [except Exception] catches. *)
Definition raises (event : EventEnvelope) (handler : Handler) : bool :=
  match handler event with RaisesException _ => true | _ => false end.

(** Did the handler raise something the loop does not catch. *)
Definition aborts (event : EventEnvelope) (handler : Handler) : bool :=
  match handler event with RaisesBaseException _ => true | _ => false end.

(** A bus with a failing and a working handler on [STEP_FAILED] and a
    working wildcard handler, and an event for it. *)
Definition step_failed_event : EventEnvelope :=
  {| event_type := STEP_FAILED;
     payload := [("step_id", "t1"); ("error", "boom")];
     source := "mission_controller";
     timestamp := 0%Q;
     correlation_id := "c-1";
     causation_id := None;
     metadata := [] |}.

Definition quiet_handler : Handler := fun _ => Returns.

Definition failing_handler : Handler := fun _ => RaisesException "boom".

Definition sample_bus : t :=
  subscribe_all
    (subscribe (subscribe init STEP_FAILED failing_handler)
       STEP_FAILED quiet_handler)
    quiet_handler.

(** The handlers up to and including the first one that raises past
    [except Exception]. *)
Fixpoint upto_abort (event : EventEnvelope) (handlers : list Handler)
  : list Handler :=
  match handlers with
  | [] => []
  | handler :: rest =>
      if aborts event handler then [handler]
      else handler :: upto_abort event rest
  end.

(** One run of the body of the [while self._running] loop of [_worker]:
    take the oldest event from the queue and process it; an empty queue
    ([queue.Empty] after the timeout) leaves everything as it is.  Returns
    the bus and, if an event was taken, the event and its delivery. *)
Definition worker_iteration (b : t) : t * option (EventEnvelope * delivery) :=
  match event_queue b with
  | [] => (b, None)
  | event :: rest =>
      let '(b', d) :=
        process_event_sync
          {| listeners := listeners b;
             wildcard_listeners := wildcard_listeners b;
             event_queue := rest;
             dead_letter_queue := dead_letter_queue b;
             running := running b |} event in
      (b', Some (event, d))
  end.

(** [_worker], for at most [n] iterations of its loop: the bus afterwards
    and the handler calls made, in order, each with the event it was called
    on.  The loop ends when [self._running] is false; an exception outside
    [Exception] that leaves [_process_event_sync] is not caught by the
    [except] clauses of the loop and ends the thread. *)
Fixpoint worker (n : nat) (b : t) : t * list (Handler * EventEnvelope) :=
  match n with
  | O => (b, [])
  | S n' =>
      if running b then
        match worker_iteration b with
        | (b', None) => worker n' b'
        | (b', Some (event, d)) =>
            let calls := map (fun h => (h, event)) (invoked d) in
            match escaped d with
            | Some _ => (b', calls)
            | None =>
                let '(b'', later) := worker n' b' in
                (b'', calls ++ later)
            end
        end
      else (b, [])
  end.

(** [publish] of several events, one after the other. *)
Definition publish_all (b : t) (events : list EventEnvelope) : t :=
  fold_left publish events b.

(** No handler of the bus raises past [except Exception] on the event. *)
Definition tame (b : t) (event : EventEnvelope) : Prop :=
  Forall (fun h => aborts event h = false) (handlers_for b event).

(** A handler that raises outside [Exception]. *)
Definition fatal_handler : Handler := fun _ => RaisesBaseException "SystemExit".

(** The sample bus with its worker started. *)
Definition running_sample_bus : t :=
  {| listeners := listeners sample_bus;
     wildcard_listeners := wildcard_listeners sample_bus;
     event_queue := [];
     dead_letter_queue := [];
     running := true |}.

End EventBus.

(** ** More string methods *)

Module PyText.

(** [s.lstrip()] *)
Fixpoint lstrip (s : string) : string :=
  match s with
  | EmptyString => EmptyString
  | String c s' => if Regex.is_space c then lstrip s' else s
  end.

(** [s.rstrip()] *)
Fixpoint rstrip (s : string) : string :=
  match s with
  | EmptyString => EmptyString
  | String c s' =>
      match rstrip s' with
      | EmptyString => if Regex.is_space c then EmptyString
                       else String c EmptyString
      | rest => String c rest
      end
  end.

(** [s.strip()] *)
Definition strip (s : string) : string := rstrip (lstrip s).

(** [s[:n]] for [n >= 0] *)
Fixpoint slice_to (n : nat) (s : string) : string :=
  match n, s with
  | O, _ => EmptyString
  | _, EmptyString => EmptyString
  | S n', String c s' => String c (slice_to n' s')
  end.

(** [s.split(sep)] for a separator of one character: the pieces between
    the separators, empty pieces included; never the empty list. *)
Fixpoint split_on (sep : ascii) (s : string) : list string :=
  match s with
  | EmptyString => [EmptyString]
  | String c s' =>
      if Ascii.eqb c sep then EmptyString :: split_on sep s'
      else match split_on sep s' with
           | [] => [String c EmptyString]
           | piece :: pieces => String c piece :: pieces
           end
  end.

(** The characters of [s] up to the first whitespace. *)
Fixpoint word (s : string) : string :=
  match s with
  | EmptyString => EmptyString
  | String c s' => if Regex.is_space c then EmptyString else String c (word s')
  end.

(** [s.split()[0]]: the first run of characters that are not whitespace;
    [None] stands for the [IndexError] on the empty list that [split()]
    returns for a string of whitespace only. *)
Definition first_word (s : string) : option string :=
  match lstrip s with
  | EmptyString => None
  | rest => Some (word rest)
  end.

(** No character of [s] is whitespace. *)
Fixpoint solid (s : string) : bool :=
  match s with
  | EmptyString => true
  | String c s' => negb (Regex.is_space c) && solid s'
  end.

(** Every character of [s] is whitespace. *)
Fixpoint blank (s : string) : bool :=
  match s with
  | EmptyString => true
  | String c s' => Regex.is_space c && blank s'
  end.

End PyText.

(** ** src/sandbox/policy/allowlist.py *)

Module Allowlist.

(** [Allowlist.SAFE_MODULES] *)
Definition SAFE_MODULES : gset string :=
  list_to_set
    [ "json"; "math"; "datetime"; "collections";
      "itertools"; "functools"; "dataclasses";
      "typing"; "enum"; "re"; "string";
      "random"; "hashlib"; "base64"; "uuid" ].

(** A resolved path, as [pathlib] compares it: its parts. *)
Definition ResolvedPath : Type := list string.

(** The state of an [Allowlist]. *)
Record t : Type := mkAllowlist {
  allowed_modules : gset string;
  allowed_paths : gset ResolvedPath;
  allowed_commands : gset string
}.

(** [Allowlist.__init__] *)
Definition init : t :=
  {| allowed_modules := SAFE_MODULES;
     allowed_paths := ∅;
     allowed_commands := ∅ |}.

(** [Allowlist.add_module] *)
Definition add_module (a : t) (module : string) : t :=
  {| allowed_modules := allowed_modules a ∪ {[ module ]};
     allowed_paths := allowed_paths a;
     allowed_commands := allowed_commands a |}.

(** [Allowlist.add_path]; [resolve] is [Path.resolve] on the file system of
    the moment. *)
Definition add_path {Path : Type} (resolve : Path → ResolvedPath) (a : t)
    (path : Path) : t :=
  {| allowed_modules := allowed_modules a;
     allowed_paths := allowed_paths a ∪ {[ resolve path ]};
     allowed_commands := allowed_commands a |}.

(** [Allowlist.add_command] *)
Definition add_command (a : t) (command : string) : t :=
  {| allowed_modules := allowed_modules a;
     allowed_paths := allowed_paths a;
     allowed_commands := allowed_commands a ∪ {[ command ]} |}.

(** [Allowlist.is_module_allowed] *)
Definition is_module_allowed (a : t) (module : string) : bool :=
  bool_decide (module ∈ allowed_modules a).

(** [resolved.relative_to(allowed)] does not raise [ValueError]: the parts
    of [allowed] begin the parts of [resolved]. *)
Fixpoint relative_to (resolved allowed : ResolvedPath) {struct allowed}
  : bool :=
  match allowed, resolved with
  | [], _ => true
  | _ :: _, [] => false
  | a :: allowed', r :: resolved' =>
      bool_decide (a = r) && relative_to resolved' allowed'
  end.

(** [Allowlist.is_path_allowed] *)
Definition is_path_allowed {Path : Type} (resolve : Path → ResolvedPath)
    (a : t) (path : Path) : bool :=
  let resolved := resolve path in
  existsb (relative_to resolved) (elements (allowed_paths a)).

(** [IndexError], raised by [command.split()[0]]. *)
Inductive IndexError : Type := list_index_out_of_range.

(** [Allowlist.is_command_allowed] *)
Definition is_command_allowed (a : t) (command : string)
  : Py.result IndexError bool :=
  match PyText.first_word command with
  | None => Py.Raise list_index_out_of_range
  | Some first => Py.Return (bool_decide (first ∈ allowed_commands a))
  end.

End Allowlist.

(** ** src/execution/codegen/refactor_engine.py *)

Module RefactorEngine.

(** What [refactor_on_error] reads of the dict that
    [chat_engine.handle_query] returns: the number under ["confidence"], if
    there is one; [reply] stands for the dict as a whole. *)
Record QueryResult : Type := mkQueryResult {
  confidence : option Q;
  reply : gmap string string
}.

(** [self.chat_engine.handle_query]: what the [n]-th call (from 0) does
    with its query. *)
Definition ChatEngine : Type := nat → string → Py.result string QueryResult.

Definition newline : ascii := ascii_of_N 10.

(** The second loop of [_extract_issue], over [reversed(lines)]. *)
Fixpoint last_meaningful (reversed_lines : list string) : option string :=
  match reversed_lines with
  | [] => None
  | line :: rest =>
      if negb (bool_decide (PyText.strip line = ""))
         && negb (PyStr.startswith (PyText.strip line) "File")
      then Some (PyText.slice_to 200 (PyText.strip line))
      else last_meaningful rest
  end.

(** [RefactorEngine._extract_issue]; the first loop only fills a list that
    is not used. *)
Definition extract_issue (trace : string) : string :=
  let lines := PyText.split_on newline trace in
  match last_meaningful (rev lines) with
  | Some issue => issue
  | None =>
      if bool_decide (trace = "") then "Unknown error"
      else PyText.slice_to 200 trace
  end.

(** [result.get("confidence", 0) < 0.6] *)
Definition low_confidence (result : QueryResult) : bool :=
  match Qlt_le_dec (default 0%Q (confidence result)) (6 # 10) with
  | left _ => true
  | right _ => false
  end.

(** [RefactorEngine.refactor_on_error]: the result and the queries sent to
    the chat engine, in order. *)
Definition refactor_on_error (handle_query : ChatEngine)
    (error_trace affected_file : string) (max_retries : Z)
  : Py.result string QueryResult * list string :=
  let issue := extract_issue error_trace in
  let query := "Fix this bug in " +:+ affected_file +:+ ": " +:+ issue
               +:+ ". Provide a working fix as a diff." in
  match handle_query 0 query with
  | Py.Raise e => (Py.Raise e, [query])
  | Py.Return result =>
      if low_confidence result && (0 <? max_retries)%Z then
        let query2 := "Analyze this error: "
                      +:+ PyText.slice_to 500 error_trace
                      +:+ ". Fix " +:+ affected_file
                      +:+ " with proper error handling." in
        (handle_query 1 query2, [query; query2])
      else (Py.Return result, [query])
  end.

(** The line has no newline in it. *)
Fixpoint one_line (s : string) : bool :=
  match s with
  | EmptyString => true
  | String c s' => negb (Ascii.eqb c newline) && one_line s'
  end.

End RefactorEngine.

(** ** src/cognition/planning/decomposition.py, planner_engine.py *)

Module Decomposition.

(** One of the dict literals of the templates.  Each of them has exactly
    the keys ["id"], ["description"], ["type"] and ["dependencies"], so the
    defaults of [task_data.get] are used for ["estimated_time"] and
    ["metadata"] only. *)
Record TaskData : Type := mkTaskData {
  id : string;
  description : string;
  type : string;
  dependencies : list string
}.

(** [TaskDecomposition._decompose_web_app] *)
Definition decompose_web_app : list TaskData :=
  [ mkTaskData "1" "Create project structure" "setup" [];
    mkTaskData "2" "Set up frontend framework" "frontend" ["1"];
    mkTaskData "3" "Set up backend server" "backend" ["1"];
    mkTaskData "4" "Implement core features" "development" ["2"; "3"];
    mkTaskData "5" "Write tests" "testing" ["4"];
    mkTaskData "6" "Package for deployment" "packaging" ["5"] ].

(** [TaskDecomposition._decompose_api] *)
Definition decompose_api : list TaskData :=
  [ mkTaskData "1" "Create project structure" "setup" [];
    mkTaskData "2" "Define API endpoints" "design" ["1"];
    mkTaskData "3" "Implement endpoints" "development" ["2"];
    mkTaskData "4" "Add authentication" "security" ["3"];
    mkTaskData "5" "Write API tests" "testing" ["4"] ].

(** [TaskDecomposition._decompose_cli] *)
Definition decompose_cli : list TaskData :=
  [ mkTaskData "1" "Create project structure" "setup" [];
    mkTaskData "2" "Define CLI interface" "design" ["1"];
    mkTaskData "3" "Implement commands" "development" ["2"];
    mkTaskData "4" "Add help and documentation" "documentation" ["3"];
    mkTaskData "5" "Write tests" "testing" ["3"] ].

(** [TaskDecomposition._decompose_generic] *)
Definition decompose_generic : list TaskData :=
  [ mkTaskData "1" "Create project structure" "setup" [];
    mkTaskData "2" "Implement core functionality" "development" ["1"];
    mkTaskData "3" "Write tests" "testing" ["2"];
    mkTaskData "4" "Create documentation" "documentation" ["2"] ].

(** [TaskDecomposition._generate_tasks]; the templates ignore the
    description and the context. *)
Definition generate_tasks (description : string) : list TaskData :=
  let description_lower := PyStr.lower description in
  if PyStr.str_in "web" description_lower
     || PyStr.str_in "app" description_lower
  then decompose_web_app
  else if PyStr.str_in "api" description_lower then decompose_api
  else if PyStr.str_in "cli" description_lower
          || PyStr.str_in "command" description_lower
  then decompose_cli
  else decompose_generic.

(** The [TaskNode(...)] built in the loop of [decompose]. *)
Definition task_of (task_data : TaskData) : TaskGraph.TaskNode :=
  {| TaskGraph.task_id := id task_data;
     TaskGraph.description := description task_data;
     TaskGraph.task_type := type task_data;
     TaskGraph.dependencies := dependencies task_data;
     TaskGraph.status := TaskGraph.PENDING;
     TaskGraph.estimated_time_seconds := 0%Q;
     TaskGraph.metadata := [] |}.

(** [TaskDecomposition.decompose] *)
Definition decompose (description : string) : TaskGraph.t :=
  fold_left (fun graph task_data => TaskGraph.add_task graph (task_of task_data))
    (generate_tasks description) TaskGraph.empty.

(** [PlannerEngine.create_plan] *)
Definition create_plan (description : string) : TaskGraph.t :=
  decompose description.

End Decomposition.

(** ** src/state/mission_state.py *)

Module MissionState.

(** [class MissionStatus(str, Enum)] *)
Inductive MissionStatus : Type :=
| CREATED | PLANNING | EXECUTING | PAUSED | COMPLETED | FAILED | CANCELLED.

(** [@dataclass class MissionState] *)
Record t : Type := mkMissionState {
  mission_id : string;
  status : MissionStatus;
  description : string;
  created_at : Z;
  started_at : option Z;
  completed_at : option Z;
  total_steps : Z;
  completed_steps : Z;
  error : option string;
  metadata : list (string * string)
}.

End MissionState.

(** ** src/state/step_state.py *)

Module StepState.

(** [class StepStatus(str, Enum)] *)
Inductive StepStatus : Type :=
| PENDING | RUNNING | COMPLETED | FAILED | APPROVAL_REQUIRED | SKIPPED.

(** [@dataclass class StepState] *)
Record t : Type := mkStepState {
  step_id : string;
  mission_id : string;
  status : StepStatus;
  step_type : string;
  description : string;
  started_at : option Z;
  completed_at : option Z;
  error : option string;
  inputs : list (string * string);
  outputs : list (string * string)
}.

End StepState.

(** ** src/execution/testing/test_execution.py *)

Module TestExecutor.

(** [@dataclass class TestResult] *)
Record TestResult : Type := mkTestResult {
  test_name : string;
  passed : bool;
  output : string;
  duration_seconds : Q;
  error : option string
}.

(** The exceptions derived from [Exception] that [subprocess.run] raises,
    as [run_tests] tells them apart; [message] is [str(e)]. *)
Inductive exn : Type :=
| FileNotFoundError
| OtherException (message : string).

(** What [run_tests] meets: [self.workspace_dir.glob(pattern)] (a list of
    paths, or the exception it raises), [sys.executable], and
    [subprocess.run(cmd, cwd=self.workspace_dir, capture_output=True,
    text=True, timeout=300)], which returns the return code with the two
    captured outputs or raises. *)
Record Host : Type := mkHost {
  glob : string → Py.result string (list string);
  executable : string;
  subprocess_run : list string → Py.result exn (Z * string * string)
}.

(** The result the three skipping branches build. *)
Definition skipped (message : string) : TestResult :=
  {| test_name := "pytest suite"; passed := true; output := message;
     duration_seconds := 0%Q; error := None |}.

(** The [try] block of [run_tests]. *)
Definition run_pytest (host : Host) (test_files : list string)
  : list TestResult :=
  let cmd := [executable host; "-m"; "pytest"; "-v"] in
  let cmd := match test_files with
             | [] => cmd
             | _ :: _ => cmd ++ test_files
             end in
  match subprocess_run host cmd with
  | Py.Return (returncode, stdout, stderr) =>
      [ {| test_name := "pytest suite";
           passed := (returncode =? 0)%Z;
           output := stdout +:+ stderr;
           duration_seconds := 0%Q;
           error := if (returncode =? 0)%Z then None else Some stderr |} ]
  | Py.Raise FileNotFoundError => [ skipped "pytest not found - skipping tests" ]
  | Py.Raise (OtherException message) =>
      [ skipped ("Test execution skipped: " +:+ message) ]
  end.

(** [TestExecutor.run_tests]; the two globs stand outside the [try]. *)
Definition run_tests (host : Host) (test_files : option (list string))
  : Py.result string (list TestResult) :=
  match test_files with
  | Some test_files => Py.Return (run_pytest host test_files)
  | None =>
      match glob host "test_*.py" with
      | Py.Raise e => Py.Raise e
      | Py.Return found1 =>
          match glob host "*_test.py" with
          | Py.Raise e => Py.Raise e
          | Py.Return found2 =>
              match found1 ++ found2 with
              | [] =>
                  Py.Return [ skipped "No test files found - skipping tests" ]
              | test_files => Py.Return (run_pytest host test_files)
              end
          end
      end
  end.

(** A workspace with one test file whose run ends as [ran] says. *)
Definition workspace (ran : Py.result exn (Z * string * string)) : Host :=
  {| glob := fun pattern =>
       Py.Return (if bool_decide (pattern = "test_*.py") then ["test_main.py"]
                  else []);
     executable := "/usr/bin/python3";
     subprocess_run := fun _ => ran |}.

End TestExecutor.

(** ** src/execution/orchestrator/mission_controller.py *)

Module MissionController.

Import TestExecutor.

(** An exception, as far as the controller looks at it: [str(e)]. *)
Definition result (A : Type) : Type := Py.result string A.

(** The collaborators of the controller.  [run_tests n] is what the [n]-th
    call of [self.test_executor.run_tests()] does (counting from 0),
    [refactor_on_error] is [self.refactor_engine.refactor_on_error] with its
    arguments [error_trace], [affected_file] and [max_retries], and
    [run_handler] is the work of the handlers of the other task types. *)
Record Collaborators : Type := mkCollaborators {
  run_tests : nat → result (list TestResult);
  refactor_on_error : string → string → Z → result (gmap string string);
  run_handler : TaskGraph.TaskNode → result (bool * string)
}.

(** The calls made so far on the test executor and on the refactor engine. *)
Record Calls : Type := mkCalls {
  test_runs : nat;
  refactor_calls : list (string * string * Z)
}.

Definition ran_tests (c : Calls) : Calls :=
  {| test_runs := S (test_runs c); refactor_calls := refactor_calls c |}.

Definition refactored (args : string * string * Z) (c : Calls) : Calls :=
  {| test_runs := test_runs c; refactor_calls := refactor_calls c ++ [args] |}.

(** The newline character of ["\n".join(...)]. *)
Definition newline : string := String (ascii_of_N 10) EmptyString.

(** [results and all(r.passed for r in results)] *)
Definition all_passed (results : list TestResult) : bool :=
  match results with
  | [] => false
  | _ :: _ => forallb passed results
  end.

(** The value all falling-through paths of [_execute_testing] return. *)
Definition fall_through : result (bool * string) :=
  Py.Return (true, "Tests skipped (no test files found)").

(** [[r.error for r in failed_tests if r.error]] *)
Definition errors_of (failed_tests : list TestResult) : list string :=
  omap (fun r => match error r with
                 | Some e => if bool_decide (e = "") then None else Some e
                 | None => None
                 end) failed_tests.

(** [MissionController._execute_testing].  The first [run_tests] is outside
    the [try]; [refactor_on_error] and the second [run_tests] are inside
    [try: ... except Exception: pass]. *)
Definition execute_testing (env : Collaborators) (calls : Calls)
  : Calls * result (bool * string) :=
  let run1 := run_tests env (test_runs calls) in
  let calls := ran_tests calls in
  match run1 with
  | Py.Raise e => (calls, Py.Raise e)
  | Py.Return results =>
      if all_passed results then (calls, Py.Return (true, "All tests passed"))
      else
        match results with
        | [] => (calls, fall_through)
        | _ :: _ =>
            let failed_tests := List.filter (fun r => negb (passed r)) results in
            match failed_tests with
            | [] => (calls, fall_through)
            | _ :: _ =>
                let error_msg := PyStr.join newline (errors_of failed_tests) in
                let refactor := refactor_on_error env error_msg "main.py" 2 in
                let calls := refactored (error_msg, "main.py", 2%Z) calls in
                match refactor with
                | Py.Raise _ => (calls, fall_through)
                | Py.Return refactor_result =>
                    let run2 := run_tests env (test_runs calls) in
                    let calls := ran_tests calls in
                    match run2 with
                    | Py.Raise _ => (calls, fall_through)
                    | Py.Return results =>
                        if all_passed results then
                          (calls,
                           Py.Return
                             (true,
                              "Tests passed after auto-refactor: "
                              +:+ default "Fixed"
                                    (refactor_result !! "explanation")))
                        else (calls, fall_through)
                    end
                end
            end
        end
  end.

(** The task types [_execute_task] has a handler for, apart from
    ["testing"]. *)
Definition other_handled_types : list string :=
  [ "setup"; "development"; "packaging"; "documentation";
    "frontend"; "backend"; "database"; "deployment" ].

(** [MissionController._execute_task]: dispatch on [task.task_type] inside
    [try: ... except Exception as e: return False, str(e)]. *)
Definition execute_task (env : Collaborators) (calls : Calls)
    (task : TaskGraph.TaskNode) : Calls * (bool * string) :=
  let '(calls, r) :=
    if bool_decide (TaskGraph.task_type task = "testing")
    then execute_testing env calls
    else if bool_decide (TaskGraph.task_type task ∈ other_handled_types)
    then (calls, run_handler env task)
    else (calls,
          Py.Return (true, "Task " +:+ TaskGraph.description task
                           +:+ " completed")) in
  match r with
  | Py.Return p => (calls, p)
  | Py.Raise e => (calls, (false, e))
  end.

(** An event handed to [self.event_bus.publish]: type, payload, source. *)
Definition Event : Type :=
  EventBus.EventType * list (string * string) * string.

(** The controller together with what it has written: the records given to
    [persistence.save_step] and [persistence.save_mission], the events
    published, and the calls made on the collaborators. *)
Record t : Type := mkController {
  mission : MissionState.t;
  plan : TaskGraph.t;
  saved_steps : list StepState.t;
  saved_missions : list MissionState.t;
  published : list Event;
  calls : Calls
}.

(** [MissionController.execute_next_step]; [now] is the reading of
    [datetime.utcnow()] during the call. *)
Definition execute_next_step (env : Collaborators) (now : Z) (c : t)
  : t * (bool * option string) :=
  let '(plan, ready_tasks) := TaskGraph.get_ready_tasks (plan c) in
  match ready_tasks with
  | [] =>
      if TaskGraph.is_complete plan then
        let m := mission c in
        let m :=
          {| MissionState.mission_id := MissionState.mission_id m;
             MissionState.status := MissionState.COMPLETED;
             MissionState.description := MissionState.description m;
             MissionState.created_at := MissionState.created_at m;
             MissionState.started_at := MissionState.started_at m;
             MissionState.completed_at := Some now;
             MissionState.total_steps := MissionState.total_steps m;
             MissionState.completed_steps := MissionState.completed_steps m;
             MissionState.error := MissionState.error m;
             MissionState.metadata := MissionState.metadata m |} in
        ({| mission := m;
            plan := plan;
            saved_steps := saved_steps c;
            saved_missions := saved_missions c ++ [m];
            published :=
              published c ++
              [(EventBus.MISSION_COMPLETED,
                [("mission_id", MissionState.mission_id m)],
                "mission_controller")];
            calls := calls c |}, (false, None))
      else
        ({| mission := mission c;
            plan := plan;
            saved_steps := saved_steps c;
            saved_missions := saved_missions c;
            published := published c;
            calls := calls c |}, (false, None))
  | task :: _ =>
      let id := TaskGraph.task_id task in
      let plan := TaskGraph.assign_status TaskGraph.RUNNING plan id in
      let m := mission c in
      let step_state :=
        {| StepState.step_id := id;
           StepState.mission_id := MissionState.mission_id m;
           StepState.status := StepState.RUNNING;
           StepState.step_type := TaskGraph.task_type task;
           StepState.description := TaskGraph.description task;
           StepState.started_at := Some now;
           StepState.completed_at := None;
           StepState.error := None;
           StepState.inputs := [];
           StepState.outputs := [] |} in
      let saved := saved_steps c ++ [step_state] in
      let events :=
        published c ++
        [(EventBus.STEP_STARTED,
          [("step_id", id); ("mission_id", MissionState.mission_id m);
           ("task_type", TaskGraph.task_type task)],
          "mission_controller")] in
      let '(calls, (success, result)) := execute_task env (calls c) task in
      if success then
        let step_state :=
          {| StepState.step_id := id;
             StepState.mission_id := MissionState.mission_id m;
             StepState.status := StepState.COMPLETED;
             StepState.step_type := TaskGraph.task_type task;
             StepState.description := TaskGraph.description task;
             StepState.started_at := Some now;
             StepState.completed_at := Some now;
             StepState.error := None;
             StepState.inputs := [];
             StepState.outputs := [("result", result)] |} in
        let plan := TaskGraph.mark_completed plan id in
        let m :=
          {| MissionState.mission_id := MissionState.mission_id m;
             MissionState.status := MissionState.status m;
             MissionState.description := MissionState.description m;
             MissionState.created_at := MissionState.created_at m;
             MissionState.started_at := MissionState.started_at m;
             MissionState.completed_at := MissionState.completed_at m;
             MissionState.total_steps := MissionState.total_steps m;
             MissionState.completed_steps :=
               (MissionState.completed_steps m + 1)%Z;
             MissionState.error := MissionState.error m;
             MissionState.metadata := MissionState.metadata m |} in
        ({| mission := m;
            plan := plan;
            saved_steps := saved ++ [step_state];
            saved_missions := saved_missions c ++ [m];
            published :=
              events ++
              [(EventBus.STEP_COMPLETED,
                [("step_id", id); ("mission_id", MissionState.mission_id m)],
                "mission_controller")];
            calls := calls |}, (true, Some id))
      else
        let step_state :=
          {| StepState.step_id := id;
             StepState.mission_id := MissionState.mission_id m;
             StepState.status := StepState.FAILED;
             StepState.step_type := TaskGraph.task_type task;
             StepState.description := TaskGraph.description task;
             StepState.started_at := Some now;
             StepState.completed_at := None;
             StepState.error := Some result;
             StepState.inputs := [];
             StepState.outputs := [] |} in
        let plan := TaskGraph.mark_failed plan id in
        let m :=
          {| MissionState.mission_id := MissionState.mission_id m;
             MissionState.status := MissionState.FAILED;
             MissionState.description := MissionState.description m;
             MissionState.created_at := MissionState.created_at m;
             MissionState.started_at := MissionState.started_at m;
             MissionState.completed_at := MissionState.completed_at m;
             MissionState.total_steps := MissionState.total_steps m;
             MissionState.completed_steps := MissionState.completed_steps m;
             MissionState.error := Some result;
             MissionState.metadata := MissionState.metadata m |} in
        ({| mission := m;
            plan := plan;
            saved_steps := saved ++ [step_state];
            saved_missions := saved_missions c ++ [m];
            published :=
              events ++
              [(EventBus.STEP_FAILED,
                [("step_id", id); ("error", result)],
                "mission_controller")];
            calls := calls |}, (false, Some id))
  end.

(** A test run with one failing test. *)
Definition failing_run : list TestResult :=
  [ {| test_name := "pytest suite"; passed := false; output := "1 failed";
       duration_seconds := 0%Q; error := Some "AssertionError" |} ].

(** Collaborators for a mission whose tests fail before and after the
    refactoring, which itself goes through. *)
Definition stubborn : Collaborators :=
  {| run_tests := fun _ => Py.Return failing_run;
     refactor_on_error :=
       fun _ _ _ => Py.Return {[ "explanation" := "patched" ]};
     run_handler := fun _ => Py.Return (true, "done") |}.

(** A running mission that has reached its testing step. *)
Definition at_testing : t :=
  {| mission :=
       {| MissionState.mission_id := "m1";
          MissionState.status := MissionState.EXECUTING;
          MissionState.description := "build a REST API";
          MissionState.created_at := 0%Z;
          MissionState.started_at := Some 0%Z;
          MissionState.completed_at := None;
          MissionState.total_steps := 1%Z;
          MissionState.completed_steps := 0%Z;
          MissionState.error := None;
          MissionState.metadata := [] |};
     plan := [ TaskGraph.node "t3" "testing" [] TaskGraph.PENDING ];
     saved_steps := [];
     saved_missions := [];
     published := [];
     calls := {| test_runs := 0; refactor_calls := [] |} |}.

(** [MissionController.start]; [now] is the reading of
    [datetime.utcnow()]. *)
Definition start (now : Z) (c : t) : t * bool :=
  let m := mission c in
  let m :=
    {| MissionState.mission_id := MissionState.mission_id m;
       MissionState.status := MissionState.EXECUTING;
       MissionState.description := MissionState.description m;
       MissionState.created_at := MissionState.created_at m;
       MissionState.started_at := Some now;
       MissionState.completed_at := MissionState.completed_at m;
       MissionState.total_steps := MissionState.total_steps m;
       MissionState.completed_steps := MissionState.completed_steps m;
       MissionState.error := MissionState.error m;
       MissionState.metadata := MissionState.metadata m |} in
  ({| mission := m;
      plan := plan c;
      saved_steps := saved_steps c;
      saved_missions := saved_missions c ++ [m];
      published :=
        published c ++
        [(EventBus.MISSION_STARTED,
          [("mission_id", MissionState.mission_id m);
           ("description", MissionState.description m)],
          "mission_controller")];
      calls := calls c |}, true).

(** What the controller meets during one call of [execute_next_step]: its
    collaborators as they behave during the call, and the clock. *)
Definition World : Type := Collaborators * Z.

(** Calls of [execute_next_step] one after the other, whoever makes them:
    the controller afterwards and the values returned. *)
Fixpoint run_steps (worlds : list World) (c : t)
  : t * list (bool * option string) :=
  match worlds with
  | [] => (c, [])
  | (env, now) :: worlds' =>
      let '(c', out) := execute_next_step env now c in
      let '(c'', outs) := run_steps worlds' c' in
      (c'', out :: outs)
  end.

(** [not step_id] on the [Optional[str]] the step returns: true of [None]
    and of the empty string. *)
Definition falsy (step_id : option string) : bool :=
  match step_id with
  | None => true
  | Some s => bool_decide (s = "")
  end.

(** The loop of [create_mission] in [interface/api/server.py]:
    [while True: success, step_id = controller.execute_next_step();
     if not step_id: break].  [world i] is what the [i]-th call meets; each
    unit of [fuel] pays for one call, and [None] means the loop is still
    running when the fuel is spent.  Returns the controller after the loop
    and the number of calls made. *)
Fixpoint serve_loop (fuel : nat) (world : nat → World) (i : nat) (c : t)
  : option (t * nat) :=
  match fuel with
  | O => None
  | S fuel' =>
      let '(env, now) := world i in
      let '(c', (success, step_id)) := execute_next_step env now c in
      if falsy step_id then Some (c', S i)
      else serve_loop fuel' world (S i) c'
  end.

(** The loop of [run_command] in [interface/cli/commands/run.py]:
    at most [max_iterations] calls, left when no step id comes back and
    when a step does not succeed (each branch of the [else] breaks). *)
Fixpoint run_loop (max_iterations : nat) (world : nat → World) (i : nat)
    (c : t) : t * nat :=
  match max_iterations with
  | O => (c, i)
  | S n =>
      let '(env, now) := world i in
      let '(c', (success, step_id)) := execute_next_step env now c in
      if falsy step_id then (c', S i)
      else if success then run_loop n world (S i) c'
      else (c', S i)
  end.

(** The task stored under [id] has status [s]. *)
Definition has_status (g : TaskGraph.t) (id : string)
    (s : TaskGraph.TaskStatus) : Prop :=
  ∃ task, TaskGraph.get_task g id = Some task ∧ TaskGraph.status task = s.

(** Collaborators whose every call goes through: the tests pass and the
    handlers report success. *)
Definition obliging : Collaborators :=
  {| run_tests := fun _ =>
       Py.Return
         [ {| test_name := "pytest suite"; passed := true;
              output := "1 passed"; duration_seconds := 0%Q;
              error := None |} ];
     refactor_on_error := fun _ _ _ => Py.Return ∅;
     run_handler := fun _ => Py.Return (true, "done") |}.

(** Collaborators whose handlers raise. *)
Definition broken : Collaborators :=
  {| run_tests := fun _ => Py.Raise "pytest not found";
     refactor_on_error := fun _ _ _ => Py.Raise "no model";
     run_handler := fun _ => Py.Raise "disk full" |}.

(** A new controller for [plan], as the callers build it. *)
Definition controller_for (id description : string) (plan : TaskGraph.t) : t :=
  {| mission :=
       {| MissionState.mission_id := id;
          MissionState.status := MissionState.EXECUTING;
          MissionState.description := description;
          MissionState.created_at := 0%Z;
          MissionState.started_at := None;
          MissionState.completed_at := None;
          MissionState.total_steps := Z.of_nat (length plan);
          MissionState.completed_steps := 0%Z;
          MissionState.error := None;
          MissionState.metadata := [] |};
     plan := plan;
     saved_steps := [];
     saved_missions := [];
     published := [];
     calls := {| test_runs := 0; refactor_calls := [] |} |}.

(** A status no step changes and no completed plan holds. *)
Definition dead_end (s : TaskGraph.TaskStatus) : Prop :=
  s = TaskGraph.READY ∨ s = TaskGraph.RUNNING ∨ s = TaskGraph.FAILED.

(** What a successful step makes of the plan: the eligible tasks are
    READY and the first of them is COMPLETED. *)
Definition advance (g : TaskGraph.t) : TaskGraph.t :=
  match TaskGraph.get_ready_tasks g with
  | (g', []) => g'
  | (g', task :: _) =>
      TaskGraph.mark_completed
        (TaskGraph.assign_status TaskGraph.RUNNING g' (TaskGraph.task_id task))
        (TaskGraph.task_id task)
  end.

(** Collaborators with which every step succeeds: the handlers report
    success and the test runs return. *)
Definition reliable (env : Collaborators) : Prop :=
  (∀ task, ∃ message, run_handler env task = Py.Return (true, message)) ∧
  (∀ n, ∃ results, run_tests env n = Py.Return results).

(** The next [k] steps each find a task to execute, with an id that
    Python takes for true, if all of them succeed. *)
Fixpoint lively (k : nat) (g : TaskGraph.t) : bool :=
  match k with
  | O => true
  | S k' =>
      match snd (TaskGraph.get_ready_tasks g) with
      | [] => false
      | task :: _ =>
          negb (bool_decide (TaskGraph.task_id task = "")) &&
          lively k' (advance g)
      end
  end.

(** Plans on which no sequence of steps ends with every task completed:
    some task is in a status no step changes, or the next call of
    [get_ready_tasks] hands out two tasks at once, or it hands out one
    task and the plan after its success is again of this kind. *)
Inductive hopeless : TaskGraph.t → Prop :=
| hopeless_dead_end g id task :
    TaskGraph.get_task g id = Some task →
    dead_end (TaskGraph.status task) →
    hopeless g
| hopeless_siblings g first second rest :
    snd (TaskGraph.get_ready_tasks g) = first :: second :: rest →
    hopeless g
| hopeless_next g task :
    snd (TaskGraph.get_ready_tasks g) = [task] →
    hopeless (advance g) →
    hopeless g.

(** The collaborators of a controller whose test executor is the
    [TestExecutor] of the repository: [hosts n] is what the [n]-th call of
    [run_tests()] meets. *)
Definition with_test_executor (hosts : nat → TestExecutor.Host)
    (env : Collaborators) : Collaborators :=
  {| run_tests := fun n => TestExecutor.run_tests (hosts n) None;
     refactor_on_error := refactor_on_error env;
     run_handler := run_handler env |}.

End MissionController.

(** * Properties *)

(** ** The task graph *)

Module TaskGraphFacts.

Import TaskGraph.

Create HintDb graph.

#[local] Hint Resolve list_elem_of_here list_elem_of_further : graph.

Lemma forallb_pointwise {A} (f h : A → bool) (l : list A) :
  (∀ x, f x = h x) → forallb f l = forallb h l.
Proof.
  intros E. induction l as [|x l IH]; simpl; [done|]. by rewrite E, IH.
Qed.

Lemma filter_none {A} (p : A → bool) (l : list A) :
  (∀ x, x ∈ l → p x = false) → List.filter p l = [].
Proof.
  induction l as [|a l IH]; simpl; intros H; [done|].
  rewrite (H a) by auto with graph. apply IH. auto with graph.
Qed.

Lemma forallb_filter_iff {A} (p q : A → bool) (l : list A) :
  forallb q (List.filter p l) = true ↔
  ∀ x, x ∈ l → (if p x then q x else true) = true.
Proof.
  induction l as [|a l IH]; simpl.
  - split; [intros _ x Hx; by apply elem_of_nil in Hx|done].
  - destruct (p a) eqn:Ep; simpl.
    + rewrite andb_true_iff, IH. split.
      * intros [Ha Hl] x [->|Hx]%elem_of_cons; [by rewrite Ep|by apply Hl].
      * intros H. split; [|auto with graph].
        specialize (H a (list_elem_of_here _ _)). by rewrite Ep in H.
    + rewrite IH. split.
      * intros Hl x [->|Hx]%elem_of_cons; [by rewrite Ep|by apply Hl].
      * auto with graph.
Qed.

(** *** Lookups in dicts with the same keys *)

Lemma similar_get_task g1 g2 id :
  similar g1 g2 →
  match get_task g1 id, get_task g2 id with
  | Some a, Some b => task_id a = task_id b ∧
                      (status a = COMPLETED ↔ status b = COMPLETED)
  | None, None => True
  | _, _ => False
  end.
Proof.
  induction 1 as [|a b g1 g2 [Hid Hst] _ IH]; simpl; [done|].
  rewrite <- Hid. destruct (decide (task_id a = id)); [done|exact IH].
Qed.

Lemma similar_contains g1 g2 id :
  similar g1 g2 → contains g1 id = contains g2 id.
Proof.
  intros H. pose proof (similar_get_task g1 g2 id H) as E. unfold contains.
  destruct (get_task g1 id), (get_task g2 id); done.
Qed.

Lemma similar_dep_completed g1 g2 id :
  similar g1 g2 → dep_completed g1 id = dep_completed g2 id.
Proof.
  intros H. pose proof (similar_get_task g1 g2 id H) as E.
  unfold dep_completed.
  destruct (get_task g1 id), (get_task g2 id); try done.
  destruct E as [_ E]. by apply bool_decide_ext.
Qed.

Lemma similar_is_ready g1 g2 task :
  similar g1 g2 → is_ready g1 task = is_ready g2 task.
Proof.
  intros H. unfold is_ready, deps_completed. f_equal.
  rewrite (filter_ext (contains g1) (contains g2))
    by (intros; by apply similar_contains).
  apply forallb_pointwise. intros. by apply similar_dep_completed.
Qed.

(** *** The loop of [get_ready_tasks] *)

Lemma is_ready_pending g task :
  is_ready g task = true → status task = PENDING.
Proof.
  unfold is_ready. intros [H _]%andb_true_iff.
  by apply bool_decide_eq_true in H.
Qed.

Lemma promote_id g task : task_id (promote g task) = task_id task.
Proof. unfold promote. by destruct (is_ready g task). Qed.

(** Mutating visited nodes from PENDING to READY does not change what the
    loop body sees of the dict. *)
Lemma similar_promote g0 visited todo :
  similar (map (promote g0) visited ++ todo) (visited ++ todo).
Proof.
  apply Forall2_app.
  - induction visited as [|a v IH]; simpl; constructor; [|exact IH].
    unfold promote. destruct (is_ready g0 a) eqn:E; [|done].
    apply is_ready_pending in E. simpl. split; [done|]. by rewrite E.
  - induction todo; constructor; done.
Qed.

Lemma ready_loop_spec g0 todo visited :
  g0 = visited ++ todo →
  ready_loop (map (promote g0) visited) todo
  = (map (promote g0) g0,
     map (set_status READY) (List.filter (is_ready g0) todo)).
Proof.
  revert visited. induction todo as [|task rest IH]; intros visited ->; simpl.
  - by rewrite app_nil_r.
  - rewrite (similar_is_ready _ (visited ++ task :: rest))
      by apply similar_promote.
    specialize (IH (visited ++ [task])).
    rewrite map_app in IH. simpl in IH. unfold promote at 2 in IH.
    rewrite <- app_assoc in IH. simpl in IH. specialize (IH eq_refl).
    destruct (is_ready (visited ++ task :: rest) task); rewrite IH; done.
Qed.

Lemma get_ready_tasks_eq g :
  get_ready_tasks g
  = (map (promote g) g,
     map (set_status READY) (List.filter (is_ready g) g)).
Proof. exact (ready_loop_spec g g [] eq_refl). Qed.

Lemma dep_ok_iff g dep_id :
  (if contains g dep_id then dep_completed g dep_id else true) = true ↔
  (get_task g dep_id = None ∨
   ∃ d, get_task g dep_id = Some d ∧ status d = COMPLETED).
Proof.
  unfold contains, dep_completed. destruct (get_task g dep_id) as [d|].
  - rewrite bool_decide_eq_true. split.
    + intros H. right. by exists d.
    + intros [?|(d' & [= <-] & H)]; done.
  - split; [by left|done].
Qed.

(** The test of the loop body is the spec's notion of a ready task. *)
Lemma is_ready_eligible g task : is_ready g task = true ↔ eligible g task.
Proof.
  unfold is_ready, eligible, deps_completed.
  rewrite andb_true_iff, bool_decide_eq_true, forallb_filter_iff.
  split; intros [Hs Hd]; (split; [done|]); intros d Hin; apply dep_ok_iff;
    auto.
Qed.

(** C2: [get_ready_tasks] returns, in insertion order, exactly the tasks that
    are pending and whose every dependency id is no key of the graph or the
    key of a completed task ([is_ready], which is [eligible]); in the graph
    after the call exactly these nodes have moved to READY, and so each
    returned node reads READY; a pending task all of whose dependency ids
    are unknown to the graph is among the returned ones. *)
Theorem get_ready_tasks_spec (g : t) :
  let '(g', ready) := get_ready_tasks g in
  ready = map (set_status READY) (List.filter (is_ready g) g) ∧
  (∀ task, is_ready g task = true ↔ eligible g task) ∧
  g' = map (promote g) g ∧
  Forall (fun task => status task = READY) ready ∧
  (∀ task, task ∈ g → status task = PENDING →
     (∀ dep_id, dep_id ∈ dependencies task → get_task g dep_id = None) →
     set_status READY task ∈ ready).
Proof.
  rewrite get_ready_tasks_eq.
  split; [done|]. split; [apply is_ready_eligible|]. split; [done|]. split.
  - apply Forall_forall. intros x (y & -> & _)%list_elem_of_fmap. done.
  - intros task Hin Hs Hd. apply list_elem_of_fmap. exists task.
    split; [done|].
    apply list_elem_of_In, filter_In. split; [by apply list_elem_of_In|].
    apply is_ready_eligible. split; [done|]. intros d Hdin. left.
    by apply Hd.
Qed.

(** Scenario 1 of the spec: once A is completed, B and C are returned. *)
Example fork_plan_ready :
  snd (get_ready_tasks fork_plan) = [ node "A" "setup" [] READY ] ∧
  snd (get_ready_tasks
         (mark_completed (fst (get_ready_tasks fork_plan)) "A"))
  = [ node "B" "frontend" ["A"] READY; node "C" "backend" ["A"] READY ].
Proof. split; reflexivity. Qed.

(** The loop skips a dependency that is no key of the graph. *)
Example dangling_plan_ready :
  snd (get_ready_tasks dangling_plan)
  = [ node "A" "development" ["ghost"] READY ].
Proof. reflexivity. Qed.

(** *** Tasks are returned at most once *)

Lemma elem_of_assign_status s g id x :
  x ∈ assign_status s g id →
  x ∈ g ∨ ∃ n, n ∈ g ∧ task_id n = id ∧ x = set_status s n.
Proof.
  induction g as [|n g IH]; simpl; [by left|].
  destruct (decide (task_id n = id)) as [E|E].
  - intros [->|H]%elem_of_cons.
    + right. exists n. auto with graph.
    + left. auto with graph.
  - intros [->|H]%elem_of_cons; [left; auto with graph|].
    destruct (IH H) as [H'|(m & Hm & Hid & ->)]; [left; auto with graph|].
    right. exists m. auto with graph.
Qed.

Lemma elem_of_add_task g task x : x ∈ add_task g task → x ∈ g ∨ x = task.
Proof.
  induction g as [|n g IH]; simpl.
  - intros ->%list_elem_of_singleton. by right.
  - destruct (decide (task_id n = task_id task)).
    + intros [->|H]%elem_of_cons; [by right|]. left. auto with graph.
    + intros [->|H]%elem_of_cons; [left; auto with graph|].
      destruct (IH H) as [H'| ->]; [left; auto with graph|by right].
Qed.

Lemma settled_assign ids s g id :
  (s = PENDING → id ∉ ids) → settled ids g →
  settled ids (assign_status s g id).
Proof.
  intros Hs Hg x Hx Hid.
  destruct (elem_of_assign_status _ _ _ _ Hx) as [H|(n & Hn & <- & ->)].
  - by apply Hg.
  - simpl in *. intros E. by apply (Hs E).
Qed.

Lemma settled_apply_op ids g o :
  no_reset ids o → settled ids g → settled ids (apply_op g o).
Proof.
  destruct o as [task| |id|id|id s]; simpl; intros Hno Hg.
  - intros x Hx Hid. destruct (elem_of_add_task _ _ _ Hx) as [H| ->].
    + by apply Hg.
    + intros E. by apply (Hno E).
  - rewrite get_ready_tasks_eq. simpl.
    intros x (y & -> & Hy)%list_elem_of_fmap Hid. rewrite promote_id in Hid.
    unfold promote. destruct (is_ready g y); [done|by apply Hg].
  - unfold mark_completed. destruct (contains g id); [|done].
    by apply settled_assign.
  - unfold mark_failed. destruct (contains g id); [|done].
    by apply settled_assign.
  - by apply settled_assign.
Qed.

Lemma settled_apply_ops ids os g :
  Forall (no_reset ids) os → settled ids g → settled ids (apply_ops g os).
Proof.
  revert g. induction os as [|o os IH]; intros g Hos Hg; simpl; [done|].
  inversion Hos; subst. apply IH; [done|]. by apply settled_apply_op.
Qed.

(** In a dict, a key names one node. *)
Lemma wf_same_id g x y :
  wf g → x ∈ g → y ∈ g → task_id x = task_id y → x = y.
Proof.
  unfold wf, keys. induction g as [|n g IH]; simpl.
  - intros _ Hx. by apply elem_of_nil in Hx.
  - intros [Hn Hnd]%NoDup_cons [->|Hx]%elem_of_cons [->|Hy]%elem_of_cons E.
    + done.
    + exfalso. apply Hn. rewrite E. apply list_elem_of_fmap. by exists y.
    + exfalso. apply Hn. rewrite <- E. apply list_elem_of_fmap. by exists x.
    + by apply IH.
Qed.

Lemma settled_after_first g :
  wf g →
  settled (map task_id (snd (get_ready_tasks g))) (fst (get_ready_tasks g)).
Proof.
  intros Hwf. rewrite get_ready_tasks_eq. simpl.
  intros x (y & -> & Hy)%list_elem_of_fmap Hid. rewrite promote_id in Hid.
  apply list_elem_of_fmap in Hid as (z & Hz & (w & -> & Hw)%list_elem_of_fmap).
  apply list_elem_of_In, filter_In in Hw as [Hw Hr].
  apply list_elem_of_In in Hw.
  simpl in Hz. assert (y = w) as -> by (by apply (wf_same_id g)).
  unfold promote. by rewrite Hr.
Qed.

Lemma second_call_empty g :
  snd (get_ready_tasks (fst (get_ready_tasks g))) = [].
Proof.
  rewrite !get_ready_tasks_eq. simpl.
  assert (Hsim : similar (map (promote g) g) g).
  { pose proof (similar_promote g g []) as H. by rewrite !app_nil_r in H. }
  rewrite filter_none; [done|].
  intros x (y & -> & Hy)%list_elem_of_fmap.
  rewrite (similar_is_ready _ g) by done.
  unfold promote. destruct (is_ready g y) eqn:E; done.
Qed.

(** C10: after a call of [get_ready_tasks] on a graph, and any operations on
    the graph in between that reset none of the returned tasks to pending
    (completing or failing tasks, setting a status other than PENDING,
    further calls of [get_ready_tasks], adding tasks), a second call returns
    none of the tasks the first one returned; with nothing in between the
    second call returns the empty list. *)
Theorem get_ready_tasks_at_most_once (g : t) (os : list op) :
  wf g →
  Forall (no_reset (map task_id (snd (get_ready_tasks g)))) os →
  let '(g1, first) := get_ready_tasks g in
  let '(_, second) := get_ready_tasks (apply_ops g1 os) in
  (∀ task, task ∈ second → task_id task ∉ map task_id first) ∧
  snd (get_ready_tasks g1) = [].
Proof.
  intros Hwf Hos.
  pose proof (settled_after_first g Hwf) as H1.
  pose proof (second_call_empty g) as H2.
  destruct (get_ready_tasks g) as [g1 first]. simpl in *.
  pose proof (settled_apply_ops _ _ _ Hos H1) as H3.
  rewrite get_ready_tasks_eq. split; [|done].
  intros task (y & -> & Hy)%list_elem_of_fmap Hid. simpl in Hid.
  apply list_elem_of_In, filter_In in Hy as [Hy Hr].
  apply list_elem_of_In in Hy.
  apply (H3 y Hy Hid). by apply is_ready_pending in Hr.
Qed.

Lemma chain_plan_wf : wf chain_plan.
Proof. apply (bool_decide_unpack _). vm_compute. reflexivity. Qed.

(** The chain A, B: A is returned first; after A has run and completed, the
    second call returns B and not A. *)
Lemma get_ready_tasks_at_most_once_witness :
  let os := [SetStatus "A" RUNNING; MarkCompleted "A"] in
  snd (get_ready_tasks chain_plan) = [ node "A" "setup" [] READY ] ∧
  snd (get_ready_tasks (apply_ops (fst (get_ready_tasks chain_plan)) os))
  = [ node "B" "development" ["A"] READY ] ∧
  (∀ task, task ∈ [ node "B" "development" ["A"] READY ] →
     task_id task ∉ ["A"]) ∧
  snd (get_ready_tasks (fst (get_ready_tasks chain_plan))) = [].
Proof.
  intros os. split; [reflexivity|]. split; [reflexivity|].
  assert (Hos : Forall (no_reset
                          (map task_id (snd (get_ready_tasks chain_plan))))
                  os).
  { repeat constructor; simpl; done. }
  exact (get_ready_tasks_at_most_once chain_plan os chain_plan_wf Hos).
Defined.

End TaskGraphFacts.

(** ** The execution order *)

Module ExecutionOrderFacts.

Import TaskGraph.

Lemma deps_placed_iff completed task :
  deps_placed completed task = true ↔
  ∀ d, d ∈ dependencies task → d ∈ completed.
Proof.
  unfold deps_placed. rewrite forallb_forall. split.
  - intros H d Hd. apply list_elem_of_In in Hd.
    exact (proj1 (bool_decide_eq_true _) (H d Hd)).
  - intros H d Hd. apply bool_decide_eq_true. apply H.
    by apply list_elem_of_In.
Qed.

(** The two outcomes of one run of the loop body. *)
Lemma order_step_cases acc task :
  (order_step acc task
   = (fst acc ++ [task_id task], snd acc ∪ {[task_id task]}) ∧
   (task_id task ∉ fst acc) ∧
   (∀ d, d ∈ dependencies task → d ∈ snd acc)) ∨
  (order_step acc task = acc ∧
   (task_id task ∈ fst acc ∨
    ¬ (∀ d, d ∈ dependencies task → d ∈ snd acc))).
Proof.
  destruct acc as [order completed]. unfold order_step. simpl.
  case_bool_decide as Hin.
  - destruct (deps_placed _ _) eqn:E.
    + left. split; [done|]. split; [done|]. by apply deps_placed_iff.
    + right. split; [done|]. right. intros H.
      apply (proj2 (deps_placed_iff _ _)) in H. congruence.
  - right. split; [done|]. by left.
Qed.

Lemma app_snoc_split {A} (l pre post : list A) (x y : A) :
  l ++ [x] = pre ++ y :: post →
  (post = [] ∧ pre = l ∧ y = x) ∨
  ∃ post', post = post' ++ [x] ∧ l = pre ++ y :: post'.
Proof.
  destruct (decide (length post = 0)) as [E|E].
  { apply nil_length_inv in E. subst post. intros H.
    apply (app_inj_tail l pre x y) in H as [-> ->]. by left. }
  assert (∃ post' z, post = post' ++ [z]) as (post' & z & ->).
  { clear -E. induction post as [|a post IH] using rev_ind; [done|by eauto]. }
  intros H. rewrite app_comm_cons, app_assoc in H.
  apply app_inj_tail in H as [-> ->]. right. by exists post'.
Qed.

(** *** What every pass keeps *)

Lemma topological_snoc g order task :
  wf g → task ∈ g → topological g order →
  (∀ d, d ∈ dependencies task → d ∈ order) →
  topological g (order ++ [task_id task]).
Proof.
  intros Hwf Hin Htop Hdeps pre id post Hsplit task' Hin' Hid d Hd.
  apply app_snoc_split in Hsplit as [(-> & -> & ->)|(post' & -> & ->)].
  - assert (task' = task) as ->
      by (by apply (TaskGraphFacts.wf_same_id g)).
    by apply Hdeps.
  - by apply (Htop pre id post' eq_refl task').
Qed.

Lemma order_step_inv g acc task :
  wf g → task ∈ g → order_inv g acc → order_inv g (order_step acc task).
Proof.
  intros Hwf Hin (Hset & Hnd & Hsub & Htop).
  destruct (order_step_cases acc task) as [(-> & Hnew & Hdeps)|[-> _]];
    [|done].
  split_and!; simpl.
  - intros x. rewrite elem_of_union, elem_of_singleton, elem_of_app,
      list_elem_of_singleton, Hset. done.
  - apply NoDup_app. split; [done|]. split; [|apply NoDup_singleton].
    intros x Hx ->%list_elem_of_singleton. done.
  - intros x [Hx| ->%list_elem_of_singleton]%elem_of_app; [by apply Hsub|].
    apply list_elem_of_fmap. by exists task.
  - apply topological_snoc; try done. intros d Hd. by apply Hset, Hdeps.
Qed.

Lemma order_fold_inv g l acc :
  wf g → (∀ x, x ∈ l → x ∈ g) → order_inv g acc →
  order_inv g (fold_left order_step l acc).
Proof.
  intros Hwf. revert acc.
  induction l as [|a l IH]; intros acc Hl Hacc; simpl; [done|].
  apply IH.
  - intros x Hx. apply Hl. by apply list_elem_of_further.
  - apply order_step_inv; [done| |done]. apply Hl, list_elem_of_here.
Qed.

Lemma order_pass_inv g acc :
  wf g → order_inv g acc → order_inv g (order_pass g acc).
Proof. intros Hwf. by apply order_fold_inv. Qed.

Lemma order_iter_inv g k acc :
  wf g → order_inv g acc → order_inv g (Nat.iter k (order_pass g) acc).
Proof.
  intros Hwf Hacc. induction k as [|k IH]; simpl; [done|].
  by apply order_pass_inv.
Qed.

Lemma order_inv_init g : order_inv g ([], ∅).
Proof.
  split_and!; simpl.
  - intros x. split; intros H;
      [by apply elem_of_empty in H|by apply elem_of_nil in H].
  - apply NoDup_nil_2.
  - intros x H. by apply elem_of_nil in H.
  - intros pre id post H. exfalso. by destruct pre.
Qed.

(** *** Progress *)

Lemma order_step_grows acc task x :
  (x ∈ fst acc → x ∈ fst (order_step acc task)) ∧
  (x ∈ snd acc → x ∈ snd (order_step acc task)).
Proof.
  destruct (order_step_cases acc task) as [(-> & _)|[-> _]]; [|done]. simpl.
  split; intros H; [apply elem_of_app|apply elem_of_union]; by left.
Qed.

Lemma order_fold_grows l acc x :
  (x ∈ fst acc → x ∈ fst (fold_left order_step l acc)) ∧
  (x ∈ snd acc → x ∈ snd (fold_left order_step l acc)).
Proof.
  revert acc. induction l as [|a l IH]; intros acc; simpl; [done|].
  destruct (IH (order_step acc a)) as [H1 H2].
  destruct (order_step_grows acc a x) as [G1 G2]. split; auto.
Qed.

(** A task whose dependencies are all placed is placed by the end of the
    pass that meets it. *)
Lemma order_fold_places l acc task :
  task ∈ l → (∀ d, d ∈ dependencies task → d ∈ snd acc) →
  task_id task ∈ fst (fold_left order_step l acc).
Proof.
  revert acc. induction l as [|a l IH]; intros acc Hin Hdeps; simpl.
  - by apply elem_of_nil in Hin.
  - apply elem_of_cons in Hin as [<-|Hin].
    + apply order_fold_grows.
      destruct (order_step_cases acc task) as [(-> & _)|[-> [H|H]]]; simpl.
      * apply elem_of_app. right. by apply list_elem_of_singleton.
      * done.
      * done.
    + apply IH; [done|]. intros d Hd. apply order_step_grows.
      by apply Hdeps.
Qed.

(** After [k] passes every task of rank below [k] is placed. *)
Lemma ranked_placed g (rank : string → nat) k acc :
  wf g → closed g →
  (∀ task, task ∈ g → ∀ d, d ∈ dependencies task →
     rank d < rank (task_id task)) →
  order_inv g acc →
  ∀ task, task ∈ g → rank (task_id task) < k →
    task_id task ∈ fst (Nat.iter k (order_pass g) acc).
Proof.
  intros Hwf Hclosed Hrank Hacc.
  induction k as [|k IH]; intros task Hin Hlt; [lia|].
  simpl. apply order_fold_places; [done|].
  intros d Hd. pose proof (order_iter_inv g k acc Hwf Hacc) as (Hset & _).
  apply Hset. pose proof (Hclosed task Hin d Hd) as Hkey.
  apply list_elem_of_fmap in Hkey as (td & -> & Htd).
  apply IH; [done|]. specialize (Hrank task Hin _ Hd). lia.
Qed.

Lemma rank_bound (rank : string → nat) (g : t) :
  ∃ k, ∀ task, task ∈ g → rank (task_id task) < k.
Proof.
  induction g as [|a g [k IH]].
  - exists 0. intros task H. by apply elem_of_nil in H.
  - exists (S (max k (rank (task_id a)))).
    intros task [->|H]%elem_of_cons; [lia|]. specialize (IH task H). lia.
Qed.

(** If some number of passes fills the order, the [while] loop stops after
    the first number that does, whatever fuel is left over. *)
Lemma order_while_reaches g k acc :
  length g ≤ length (fst (Nat.iter k (order_pass g) acc)) →
  ∃ j, j ≤ k ∧
       length g ≤ length (fst (Nat.iter j (order_pass g) acc)) ∧
       ∀ fuel, j < fuel →
         order_while fuel g acc = Some (fst (Nat.iter j (order_pass g) acc)).
Proof.
  revert acc. induction k as [|k IH]; intros acc Hlen.
  - exists 0. split; [done|]. split; [done|]. intros [|fuel] Hf; [lia|].
    simpl. simpl in Hlen. by rewrite bool_decide_eq_false_2 by lia.
  - destruct (decide (length (fst acc) < length g)) as [Hlt|Hge].
    + rewrite Nat.iter_succ_r in Hlen.
      destruct (IH (order_pass g acc)) as (j & Hj & Hjlen & Hfuel); [done|].
      exists (S j). split; [lia|]. rewrite Nat.iter_succ_r. split; [done|].
      intros [|fuel] Hf; [lia|]. simpl.
      rewrite bool_decide_eq_true_2 by done. apply Hfuel. lia.
    + exists 0. split; [lia|]. simpl. split; [lia|].
      intros [|fuel] Hf; [lia|]. simpl.
      by rewrite bool_decide_eq_false_2 by lia.
Qed.

(** X2: on a graph with unique ids, without a dependency cycle, and in
    which every dependency id is a key, [get_execution_order] returns
    (with any fuel above a bound), the result holds every key once, and
    every task stands after its dependencies. *)
Theorem get_execution_order_closed_acyclic (g : t) :
  wf g → closed g → acyclic g →
  ∃ n order,
    (∀ fuel, n < fuel → get_execution_order fuel g = Some order) ∧
    order ≡ₚ keys g ∧
    topological g order.
Proof.
  intros Hwf Hclosed [rank Hrank].
  destruct (rank_bound rank g) as [k Hk].
  pose proof (order_inv_init g) as Hinit.
  assert (Hlen : length g
                 ≤ length (fst (Nat.iter k (order_pass g) ([], ∅)))).
  { rewrite <- (length_map task_id g).
    apply submseteq_length, NoDup_submseteq; [done|].
    intros x (task & -> & Hin)%list_elem_of_fmap.
    exact (ranked_placed g rank k _ Hwf Hclosed Hrank Hinit task Hin
             (Hk task Hin)). }
  destruct (order_while_reaches g k _ Hlen) as (j & _ & Hjlen & Hfuel).
  pose proof (order_iter_inv g j _ Hwf Hinit) as (_ & Hnd & Hsub & Htop).
  exists j, (fst (Nat.iter j (order_pass g) ([], ∅))).
  split; [exact Hfuel|]. split; [|done].
  apply submseteq_length_Permutation.
  - by apply NoDup_submseteq.
  - unfold keys. by rewrite length_map.
Qed.

Lemma chain_plan_closed : closed chain_plan.
Proof.
  intros task Hin d Hd. unfold chain_plan in Hin.
  repeat (apply elem_of_cons in Hin as [->|Hin]); simpl in Hd.
  - by apply elem_of_nil in Hd.
  - apply list_elem_of_singleton in Hd as ->. apply list_elem_of_here.
  - by apply elem_of_nil in Hin.
Qed.

Lemma chain_plan_acyclic : acyclic chain_plan.
Proof.
  exists (fun id => if decide (id = "A") then 0 else 1).
  intros task Hin d Hd. unfold chain_plan in Hin.
  repeat (apply elem_of_cons in Hin as [->|Hin]); simpl in Hd.
  - by apply elem_of_nil in Hd.
  - apply list_elem_of_singleton in Hd as ->. vm_compute. lia.
  - by apply elem_of_nil in Hin.
Qed.

(** The chain A, B is ordered A, B. *)
Example chain_plan_order :
  get_execution_order 3 chain_plan = Some ["A"; "B"].
Proof. vm_compute. reflexivity. Qed.

(** The chain meets the three conditions, so it has an order. *)
Lemma chain_plan_has_order :
  ∃ n order,
    (∀ fuel, n < fuel → get_execution_order fuel chain_plan = Some order) ∧
    order ≡ₚ keys chain_plan ∧
    topological chain_plan order.
Proof.
  exact (get_execution_order_closed_acyclic chain_plan
           TaskGraphFacts.chain_plan_wf chain_plan_closed chain_plan_acyclic).
Defined.

(** *** A dependency that is no key of the graph *)

Lemma blocked_init g id : blocked g id ([], ∅).
Proof.
  split_and!; simpl.
  - intros x H. by apply elem_of_empty in H.
  - apply not_elem_of_nil.
  - apply NoDup_nil_2.
  - intros x H. by apply elem_of_nil in H.
Qed.

Lemma blocked_step g task d acc a :
  wf g → task ∈ g → d ∈ dependencies task → d ∉ keys g → a ∈ g →
  blocked g (task_id task) acc → blocked g (task_id task) (order_step acc a).
Proof.
  intros Hwf Hin Hd Hdang Ha (Hset & Hid & Hnd & Hsub).
  destruct (order_step_cases acc a) as [(-> & Hnew & Hdeps)|[-> _]]; [|done].
  assert (Hkey : task_id a ∈ keys g) by (apply list_elem_of_fmap; by exists a).
  split_and!; simpl.
  - intros x [Hx| ->%elem_of_singleton]%elem_of_union; [by apply Hset|done].
  - intros [Hx| E%list_elem_of_singleton]%elem_of_app; [done|].
    assert (task = a) as -> by (by apply (TaskGraphFacts.wf_same_id g)).
    apply Hdang, Hset, Hdeps, Hd.
  - apply NoDup_app. split; [done|]. split; [|apply NoDup_singleton].
    intros x Hx ->%list_elem_of_singleton. done.
  - intros x [Hx| ->%list_elem_of_singleton]%elem_of_app;
      [by apply Hsub|done].
Qed.

Lemma blocked_fold g task d l acc :
  wf g → task ∈ g → d ∈ dependencies task → d ∉ keys g →
  (∀ x, x ∈ l → x ∈ g) →
  blocked g (task_id task) acc →
  blocked g (task_id task) (fold_left order_step l acc).
Proof.
  intros Hwf Hin Hd Hdang. revert acc.
  induction l as [|a l IH]; intros acc Hl Hacc; simpl; [done|].
  apply IH; [intros x Hx; by apply Hl, list_elem_of_further|].
  apply (blocked_step g task d); try done. apply Hl, list_elem_of_here.
Qed.

(** While a key is missing from [order], the loop condition holds. *)
Lemma blocked_short g id acc :
  id ∈ keys g → blocked g id acc → length (fst acc) < length g.
Proof.
  intros Hid (_ & Hnot & Hnd & Hsub).
  assert (H : id :: fst acc ⊆+ keys g).
  { apply NoDup_submseteq; [by apply NoDup_cons|].
    intros x [->|Hx]%elem_of_cons; [done|by apply Hsub]. }
  apply submseteq_length in H. unfold keys in H. rewrite length_map in H.
  simpl in H. lia.
Qed.

(** When some task names a dependency that is no key of the graph, the
    [while] loop of [get_execution_order] never ends: no amount of fuel
    yields a result. *)
Lemma get_execution_order_dangling (g : t) (task : TaskNode) (d : string) :
  wf g → task ∈ g → d ∈ dependencies task → d ∉ keys g →
  ∀ fuel, get_execution_order fuel g = None.
Proof.
  intros Hwf Hin Hd Hdang fuel. unfold get_execution_order.
  pose proof (blocked_init g (task_id task)) as Hinit.
  revert Hinit. generalize (([], ∅) : list string * gset string).
  induction fuel as [|fuel IH]; intros acc Hacc; simpl; [done|].
  assert (Hkey : task_id task ∈ keys g)
    by (apply list_elem_of_fmap; by exists task).
  rewrite bool_decide_eq_true_2
    by (by apply (blocked_short g (task_id task))).
  apply IH. by apply (blocked_fold g task d).
Qed.

(** C6, on the plan of one task A that depends on the unknown id "ghost":
    the plan has no dependency cycle, [get_ready_tasks] returns A at once,
    and [get_execution_order] does not return, whatever the fuel. *)
Theorem get_execution_order_dangling_plan :
  acyclic dangling_plan ∧
  snd (get_ready_tasks dangling_plan)
  = [ node "A" "development" ["ghost"] READY ] ∧
  ∀ fuel, get_execution_order fuel dangling_plan = None.
Proof.
  split; [|split; [reflexivity|]].
  - exists (fun id => if decide (id = "ghost") then 0 else 1).
    intros task Hin d Hd. unfold dangling_plan in Hin.
    apply list_elem_of_singleton in Hin as ->. simpl in Hd.
    apply list_elem_of_singleton in Hd as ->. vm_compute. lia.
  - apply (get_execution_order_dangling dangling_plan
             (node "A" "development" ["ghost"] PENDING) "ghost").
    + apply (bool_decide_unpack _). vm_compute. reflexivity.
    + apply list_elem_of_here.
    + apply list_elem_of_here.
    + unfold keys. simpl. intros H. apply list_elem_of_singleton in H.
      discriminate.
Qed.

End ExecutionOrderFacts.

(** ** The approval engine *)

Module ApprovalEngineFacts.

Import ApprovalEngine.

Lemma wf_init auto : wf (init auto).
Proof. intros k r. simpl. by rewrite lookup_empty. Qed.

Lemma wf_step e c : wf e → wf (step e c).
Proof.
  intros Hwf.
  destruct c as [uuid now op d r ctx|id now who why|id now who why]; simpl.
  - unfold request_approval.
    destruct (auto_approve_low_risk e && bool_decide (r = "low")); simpl;
      [done|].
    intros k q. simpl. rewrite lookup_insert. case_decide as E.
    + by intros [= <-].
    + apply Hwf.
  - unfold approve, resolve.
    destruct (pending_requests e !! id) eqn:E; simpl; [|done].
    intros k q. simpl. rewrite lookup_delete. case_decide; [done|apply Hwf].
  - unfold deny, resolve.
    destruct (pending_requests e !! id) eqn:E; simpl; [|done].
    intros k q. simpl. rewrite lookup_delete. case_decide; [done|apply Hwf].
Qed.

Lemma wf_run cs e : wf e → wf (run e cs).
Proof.
  revert e. induction cs as [|c cs IH]; intros e Hwf; simpl; [done|].
  apply IH. by apply wf_step.
Qed.

(** *** The scan of the history *)

Lemma is_approved_in_old h r id :
  id ∈ map request_id h → is_approved_in (h ++ [r]) id = is_approved_in h id.
Proof.
  induction h as [|a h IH]; simpl; intros Hin.
  - by apply elem_of_nil in Hin.
  - destruct (decide (request_id a = id)) as [E|E]; [done|].
    apply IH. apply elem_of_cons in Hin as [Hin|Hin]; [congruence|done].
Qed.

Lemma is_approved_in_new h r id :
  id ∉ map request_id h →
  is_approved_in (h ++ [r]) id =
  if decide (request_id r = id)
  then bool_decide (status r = APPROVED)
       || bool_decide (status r = AUTO_APPROVED)
  else false.
Proof.
  induction h as [|a h IH]; simpl; intros Hin; [done|].
  apply not_elem_of_cons in Hin as [Hne Hin].
  destruct (decide (request_id a = id)) as [E|E]; [congruence|by apply IH].
Qed.

Lemma is_approved_in_fresh h id :
  id ∉ map request_id h → is_approved_in h id = false.
Proof.
  induction h as [|a h IH]; simpl; intros Hin; [done|].
  apply not_elem_of_cons in Hin as [Hne Hin].
  destruct (decide (request_id a = id)) as [E|E]; [congruence|by apply IH].
Qed.

(** *** A held request stays held until it is resolved *)

Lemma held_step id req e c :
  wf e → leaves_alone id c → held id req e → held id req (step e c).
Proof.
  intros Hwf Hc [Hp Hh].
  destruct c as [uuid now op d r ctx|id' now who why|id' now who why];
    simpl in Hc |- *.
  - unfold request_approval.
    destruct (auto_approve_low_risk e && bool_decide (r = "low"));
      split; simpl.
    + done.
    + rewrite map_app. simpl. rewrite elem_of_app, list_elem_of_singleton.
      intros [?|?]; [done|congruence].
    + by rewrite lookup_insert_ne.
    + done.
  - unfold approve, resolve.
    destruct (pending_requests e !! id') as [q|] eqn:E; split; simpl;
      try done.
    + by rewrite lookup_delete_ne.
    + rewrite map_app. simpl. rewrite elem_of_app, list_elem_of_singleton.
      rewrite (Hwf _ _ E). intros [?|?]; [done|congruence].
  - unfold deny, resolve.
    destruct (pending_requests e !! id') as [q|] eqn:E; split; simpl;
      try done.
    + by rewrite lookup_delete_ne.
    + rewrite map_app. simpl. rewrite elem_of_app, list_elem_of_singleton.
      rewrite (Hwf _ _ E). intros [?|?]; [done|congruence].
Qed.

Lemma held_run id req cs e :
  wf e → Forall (leaves_alone id) cs → held id req e →
  held id req (run e cs).
Proof.
  revert e. induction cs as [|c cs IH]; intros e Hwf Hcs He; simpl; [done|].
  inversion Hcs; subst.
  apply IH; [by apply wf_step|done|by apply held_step].
Qed.

(** *** An auto-approved request stays approved and never becomes pending *)

Lemma through_resolve verdict id e id' now who why :
  through id e → through id (fst (resolve verdict e id' now who why)).
Proof.
  intros (Hp & Hh & Ha). unfold resolve.
  destruct (pending_requests e !! id') as [q|] eqn:E; [|done].
  assert (id' ≠ id) by congruence.
  split_and!; simpl.
  - by rewrite lookup_delete_ne.
  - rewrite map_app. apply elem_of_app. by left.
  - unfold is_approved. simpl. by rewrite is_approved_in_old.
Qed.

Lemma through_step id e c : no_redraw id c → through id e → through id (step e c).
Proof.
  intros Hc He.
  destruct c as [uuid now op d r ctx|id' now who why|id' now who why];
    simpl in Hc |- *.
  - destruct He as (Hp & Hh & Ha). unfold request_approval.
    destruct (auto_approve_low_risk e && bool_decide (r = "low"));
      split_and!; simpl; try done.
    + rewrite map_app. apply elem_of_app. by left.
    + unfold is_approved. simpl. by rewrite is_approved_in_old.
    + by rewrite lookup_insert_ne.
  - by apply through_resolve.
  - by apply through_resolve.
Qed.

Lemma through_run id cs e :
  Forall (no_redraw id) cs → through id e → through id (run e cs).
Proof.
  revert e. induction cs as [|c cs IH]; intros e Hcs He; simpl; [done|].
  inversion Hcs; subst. apply IH; [done|]. by apply through_step.
Qed.

(** C5: a call of [request_approval] on an engine whose pending requests
    are stored under their ids, with a uuid the engine has not seen.
    With auto-approval on and risk level "low" the returned request is
    AUTO_APPROVED and in the history, [is_approved] of its id is true at
    once, the pending table is unchanged and does not hold the id, and this
    stays so whatever calls follow (short of the same uuid being drawn
    again).  With auto-approval off or another risk level the request is
    PENDING in the pending table, the history is unchanged, [is_approved]
    of its id is false, and stays false while the calls that follow leave
    the request alone; approving it then makes [is_approved] true, denying
    it leaves it false. *)
Theorem request_approval_spec (e : t) (uuid : string) (now : datetime)
    (operation description risk_level : string)
    (context : option (gmap string string)) :
  wf e → ¬ known e uuid →
  let '(e', req) :=
    request_approval e uuid now operation description risk_level context in
  request_id req = uuid ∧
  (auto_approve_low_risk e = true → risk_level = "low" →
     status req = AUTO_APPROVED ∧
     req ∈ history e' ∧
     is_approved e' uuid = true ∧
     pending_requests e' = pending_requests e ∧
     pending_requests e' !! uuid = None ∧
     (∀ cs, Forall (no_redraw uuid) cs →
        is_approved (run e' cs) uuid = true ∧
        pending_requests (run e' cs) !! uuid = None)) ∧
  (auto_approve_low_risk e = false ∨ risk_level ≠ "low" →
     status req = PENDING ∧
     pending_requests e' !! uuid = Some req ∧
     history e' = history e ∧
     is_approved e' uuid = false ∧
     (∀ cs, Forall (leaves_alone uuid) cs →
        is_approved (run e' cs) uuid = false ∧
        get_request (run e' cs) uuid = Some req ∧
        ∀ now' who why,
          is_approved (fst (approve (run e' cs) uuid now' who why)) uuid
          = true ∧
          is_approved (fst (deny (run e' cs) uuid now' who why)) uuid
          = false)).
Proof.
  intros Hwf Hfresh.
  assert (Hnp : pending_requests e !! uuid = None).
  { destruct (pending_requests e !! uuid) eqn:E; [|done].
    exfalso. apply Hfresh. left. by rewrite E. }
  assert (Hnh : uuid ∉ map request_id (history e)).
  { intros H. apply Hfresh. by right. }
  pose proof (wf_step e
    (Request uuid now operation description risk_level context) Hwf) as Hwf'.
  simpl in Hwf'. unfold request_approval in *.
  destruct (auto_approve_low_risk e && bool_decide (risk_level = "low"))
    eqn:Eb; simpl in *.
  - apply andb_true_iff in Eb as [Ea El]. apply bool_decide_eq_true in El.
    split; [done|]. split.
    + intros _ _. split; [done|]. split.
      { apply elem_of_app. right. by apply list_elem_of_singleton. }
      match goal with |- context [is_approved ?e0 uuid] => set (e' := e0) end.
      assert (Hthrough : through uuid e').
      { split_and!; simpl; [done| |].
        - rewrite map_app. apply elem_of_app. right.
          by apply list_elem_of_singleton.
        - unfold is_approved. simpl. rewrite is_approved_in_new by done.
          simpl. by destruct (decide (uuid = uuid)). }
      split; [apply Hthrough|]. split; [done|]. split; [done|].
      intros cs Hcs.
      destruct (through_run uuid cs e' Hcs Hthrough) as (Hp & _ & Ha).
      done.
    + intros [H|H]; [congruence|done].
  - split; [done|]. split.
    + intros Ea El. rewrite Ea in Eb. simpl in Eb.
      by apply bool_decide_eq_false in Eb.
    + intros _. split; [done|]. split; [apply lookup_insert_eq|].
      split; [done|]. split.
      { unfold is_approved. simpl. by apply is_approved_in_fresh. }
      intros cs Hcs.
      match goal with |- context [run ?e0 cs] => set (e' := e0) in * end.
      match goal with |- context [Some ?r0] => set (req := r0) in * end.
      assert (Hheld : held uuid req (run e' cs)).
      { apply held_run; [done|done|]. split; [apply lookup_insert_eq|done]. }
      destruct Hheld as [Hp Hh].
      split; [by apply is_approved_in_fresh|]. split; [done|].
      intros now' who why. unfold approve, deny, resolve. rewrite Hp. simpl.
      unfold is_approved. simpl. rewrite !is_approved_in_new by done. simpl.
      by destruct (decide (uuid = uuid)).
Qed.

Lemma init_knows_nothing auto id : ¬ known (init auto) id.
Proof.
  intros [[x Hx]|Hx]; simpl in Hx.
  - by rewrite lookup_empty in Hx.
  - by apply elem_of_nil in Hx.
Qed.

(** On a new engine with auto-approval: a "low" request is approved at
    once, a "high" request is not. *)
Lemma request_approval_spec_witness :
  let e := init true in
  wf e ∧ ¬ known e "3f2c" ∧
  is_approved
    (fst (request_approval e "3f2c" 7%Z "write" "write a file" "low" None))
    "3f2c" = true ∧
  is_approved
    (fst (request_approval e "3f2c" 7%Z "rm" "remove a tree" "high" None))
    "3f2c" = false.
Proof.
  intros e.
  pose proof (wf_init true) as Hwf.
  pose proof (init_knows_nothing true "3f2c") as Hfresh.
  split; [exact Hwf|]. split; [exact Hfresh|]. split.
  - pose proof (request_approval_spec e "3f2c" 7%Z "write" "write a file"
                  "low" None Hwf Hfresh) as H.
    destruct (request_approval e "3f2c" 7%Z "write" "write a file" "low" None)
      as [e' req].
    destruct H as (_ & H & _).
    by destruct (H eq_refl eq_refl) as (_ & _ & H' & _).
  - pose proof (request_approval_spec e "3f2c" 7%Z "rm" "remove a tree"
                  "high" None Hwf Hfresh) as H.
    destruct (request_approval e "3f2c" 7%Z "rm" "remove a tree" "high" None)
      as [e' req].
    destruct H as (_ & _ & H).
    assert (Hr : auto_approve_low_risk e = false ∨ "high" ≠ "low")
      by (by right).
    by destruct (H Hr) as (_ & _ & _ & H' & _).
Defined.

End ApprovalEngineFacts.

(** ** Strings *)

Module PyStrFacts.

Import PyStr.

Lemma lower_app s1 s2 : lower (s1 +:+ s2) = lower s1 +:+ lower s2.
Proof. induction s1 as [|c s1 IH]; simpl; [done|]. by rewrite IH. Qed.

Lemma startswith_app hay needle extra :
  startswith hay needle = true → startswith (hay +:+ extra) needle = true.
Proof.
  revert hay. induction needle as [|a needle IH]; intros hay; simpl; [done|].
  destruct hay as [|b hay]; simpl; [done|].
  intros [H1 H2]%andb_true_iff. rewrite H1. simpl. by apply IH.
Qed.

(** An occurrence survives appending text. *)
Lemma str_in_app needle hay extra :
  str_in needle hay = true → str_in needle (hay +:+ extra) = true.
Proof.
  induction hay as [|c hay IH]; simpl.
  - rewrite orb_false_r. intros H. destruct needle; [|done].
    destruct extra; done.
  - intros [H|H]%orb_true_iff; apply orb_true_iff.
    + left. by apply (startswith_app (String c hay)).
    + right. by apply IH.
Qed.

End PyStrFacts.

(** ** The risk classifier *)

Module RiskClassifierFacts.

Import RiskClassifier.

Lemma scan_keywords_true op keywords :
  scan_keywords op keywords = true ↔
  ∃ keyword, keyword ∈ keywords ∧ PyStr.str_in keyword op = true.
Proof.
  induction keywords as [|k ks IH]; simpl.
  - split; [done|]. intros (k & Hk & _). by apply elem_of_nil in Hk.
  - destruct (PyStr.str_in k op) eqn:E.
    + split; [|done]. intros _. exists k.
      split; [apply list_elem_of_here|done].
    + rewrite IH. split.
      * intros (k' & Hk' & H). exists k'.
        split; [by apply list_elem_of_further|done].
      * intros (k' & [->|Hk']%elem_of_cons & H); [congruence|by exists k'].
Qed.

Lemma scan_categories_eq op table acc :
  scan_categories op table acc
  = acc ++ map fst (List.filter (fun p => scan_keywords op (snd p)) table).
Proof.
  revert acc. induction table as [|[c kws] table IH]; intros acc; simpl.
  - by rewrite app_nil_r.
  - rewrite IH. destruct (scan_keywords op kws); simpl; [|done].
    by rewrite <- app_assoc.
Qed.

Lemma NoDup_map_filter {A B} (f : A → B) (p : A → bool) (l : list A) :
  NoDup (map f l) → NoDup (map f (List.filter p l)).
Proof.
  induction l as [|a l IH]; simpl; [done|].
  intros [Ha Hl]%NoDup_cons. destruct (p a); simpl; [|by apply IH].
  apply NoDup_cons. split; [|by apply IH].
  intros (x & Hx & Hin)%list_elem_of_fmap. apply Ha.
  apply list_elem_of_fmap. exists x. split; [done|].
  apply list_elem_of_In, filter_In in Hin as [Hin _].
  by apply list_elem_of_In.
Qed.

Lemma table_keys_NoDup : NoDup (map fst CATEGORY_KEYWORDS).
Proof. apply (bool_decide_unpack _). vm_compute. reflexivity. Qed.

Lemma categories_spec operation :
  categories (classify operation)
  = scan_categories (PyStr.lower operation) CATEGORY_KEYWORDS [].
Proof.
  unfold classify.
  by destruct (scan_categories (PyStr.lower operation) CATEGORY_KEYWORDS []).
Qed.

Lemma elem_of_categories operation cat :
  cat ∈ categories (classify operation) ↔ matched operation cat.
Proof.
  rewrite categories_spec, scan_categories_eq, app_nil_l. unfold matched.
  rewrite list_elem_of_fmap. split.
  - intros ([c kws] & -> & Hin).
    apply list_elem_of_In, filter_In in Hin as [Hin Hs].
    simpl in Hs. apply scan_keywords_true in Hs as (k & Hk & Hs).
    exists kws, k. split; [by apply list_elem_of_In|done].
  - intros (kws & k & Hin & Hk & Hs). exists (cat, kws). split; [done|].
    apply list_elem_of_In, filter_In. split; [by apply list_elem_of_In|].
    simpl. apply scan_keywords_true. by exists k.
Qed.

Lemma existsb_high_risk cats :
  existsb high_risk cats = true ↔
  ∃ cat, cat ∈ cats ∧ (cat = SYSTEM ∨ cat = CODE_EXECUTION).
Proof.
  rewrite existsb_exists. unfold high_risk. split.
  - intros (c & Hin & H). exists c. split; [by apply list_elem_of_In|].
    apply orb_true_iff in H as [H|H]; apply bool_decide_eq_true in H; auto.
  - intros (c & Hin & H). exists c. split; [by apply list_elem_of_In|].
    apply orb_true_iff.
    destruct H as [-> | ->]; [left|right]; by apply bool_decide_eq_true.
Qed.

(** C9: the categories [classify] reports are, without repetition, exactly
    the categories one of whose keywords occurs in the lower-cased
    operation; the level is "high" iff SYSTEM or CODE_EXECUTION is among
    them, otherwise "medium" iff more than two categories matched,
    otherwise "low"; and when no category is matched the result is level
    "low", confidence 0.8 and no categories. *)
Theorem classify_spec (operation : string) :
  let c := classify operation in
  NoDup (categories c) ∧
  (∀ cat, cat ∈ categories c ↔ matched operation cat) ∧
  (level c = "high" ↔
     ∃ cat, cat ∈ categories c ∧ (cat = SYSTEM ∨ cat = CODE_EXECUTION)) ∧
  (level c ≠ "high" → (level c = "medium" ↔ 2 < length (categories c))) ∧
  (level c ≠ "high" → level c ≠ "medium" → level c = "low") ∧
  ((∀ cat, ¬ matched operation cat) →
     level c = "low" ∧ confidence c = 0.8%Q ∧ categories c = []).
Proof.
  intros c. split.
  { unfold c. rewrite categories_spec, scan_categories_eq, app_nil_l.
    apply NoDup_map_filter, table_keys_NoDup. }
  split; [apply elem_of_categories|].
  assert (Hnone : (∀ cat, ¬ matched operation cat) → categories c = []).
  { intros H. destruct (categories c) as [|x l] eqn:E; [done|]. exfalso.
    apply (H x), elem_of_categories. fold c. rewrite E.
    apply list_elem_of_here. }
  rewrite <- existsb_high_risk. subst c. unfold classify in *.
  destruct (scan_categories (PyStr.lower operation) CATEGORY_KEYWORDS [])
    as [|x l] eqn:E.
  - cbn. split_and!; try done. split; [done|lia].
  - assert (Hne : x :: l ≠ []) by done. revert Hnone Hne.
    generalize (x :: l). intros cats Hnone Hne.
    cbn [level categories confidence].
    destruct (existsb high_risk cats) eqn:Eh.
    + split_and!; try done. intros H. by apply Hnone in H.
    + case_bool_decide as El.
      * split_and!; try done. intros H. by apply Hnone in H.
      * split_and!; try done. intros H. by apply Hnone in H.
Qed.

Example classify_medium :
  level (classify "Write a FILE and fetch url with password") = "medium".
Proof. vm_compute. reflexivity. Qed.

Example classify_high : level (classify "Run it") = "high".
Proof. vm_compute. reflexivity. Qed.

End RiskClassifierFacts.

(** ** The risk scorer *)

Module RiskScorerFacts.

Import RiskScorer.

(** A scan that sees at least the hits of another scan, from a score at
    least as high, ends at least as high. *)
Lemma scan_patterns_mono label weight code1 code2 patterns acc1 acc2 :
  (0 <= weight)%Q →
  (∀ p, PyStr.str_in p code1 = true → PyStr.str_in p code2 = true) →
  (snd acc1 <= snd acc2)%Q →
  (snd (scan_patterns label weight code1 patterns acc1)
   <= snd (scan_patterns label weight code2 patterns acc2))%Q.
Proof.
  intros Hw Hsub. revert acc1 acc2.
  induction patterns as [|p ps IH]; intros acc1 acc2 Hacc; simpl; [done|].
  apply IH. destruct (PyStr.str_in (PyStr.lower p) code1) eqn:E1.
  - rewrite (Hsub _ E1). simpl. by apply Qplus_le_compat; [|apply Qle_refl].
  - destruct (PyStr.str_in (PyStr.lower p) code2); simpl; [|done].
    rewrite <- (Qplus_0_r (snd acc1)). by apply Qplus_le_compat.
Qed.

Lemma raw_assess_mono code extra context :
  (snd (raw_assess code context)
   <= snd (raw_assess (code +:+ extra) context))%Q.
Proof.
  unfold raw_assess. rewrite PyStrFacts.lower_app.
  set (c1 := PyStr.lower code). set (c2 := c1 +:+ PyStr.lower extra).
  assert (Hsub : ∀ p, PyStr.str_in p c1 = true → PyStr.str_in p c2 = true)
    by (intros p; apply PyStrFacts.str_in_app).
  assert (H1 := scan_patterns_mono "Critical pattern: " 0.4%Q c1 c2
                  CRITICAL_PATTERNS ([], 0%Q) ([], 0%Q) ltac:(done) Hsub
                  ltac:(apply Qle_refl)).
  assert (H2 := scan_patterns_mono "High-risk pattern: " 0.15%Q c1 c2
                  HIGH_RISK_PATTERNS _ _ ltac:(done) Hsub H1).
  set (a1 := scan_patterns "High-risk pattern: " _ c1 _ _) in *.
  set (a2 := scan_patterns "High-risk pattern: " _ c2 _ _) in *.
  clearbody a1 a2.
  destruct (bool_decide ("network" ∈ capabilities context));
    destruct (bool_decide ("filesystem" ∈ capabilities context)); simpl;
    repeat apply Qplus_le_compat; try apply Qle_refl; done.
Qed.

Lemma py_min_mono x y z : (x <= y)%Q → (py_min x z <= py_min y z)%Q.
Proof.
  unfold py_min. intros Hxy.
  destruct (Qle_bool x z) eqn:E1, (Qle_bool y z) eqn:E2.
  - done.
  - by apply Qle_bool_iff.
  - exfalso. apply Qle_bool_iff in E2.
    assert (Qle_bool x z = true) by (apply Qle_bool_iff; by eapply Qle_trans).
    congruence.
  - apply Qle_refl.
Qed.

(** C7: for every code, every text appended to it (in particular one that
    holds a critical or high-risk pattern) and every context, the score of
    the longer code is not below the score of the code. *)
Theorem assess_monotone (code extra : string) (context : option Context) :
  (score (assess code context)
   <= score (assess (code +:+ extra) context))%Q.
Proof.
  unfold assess.
  pose proof (raw_assess_mono code extra (default ∅ context)) as H.
  destruct (raw_assess code (default ∅ context)) as [f1 s1].
  destruct (raw_assess (code +:+ extra) (default ∅ context)) as [f2 s2].
  simpl in *. by apply py_min_mono.
Qed.

Example assess_sample :
  (score (assess "x = 1" None) == 0)%Q ∧
  (score (assess ("x = 1" +:+ "; eval(x)") None) == 0.15)%Q ∧
  (score (assess "ctypes importlib __import__ rm -rf" None) == 1)%Q.
Proof. split_and!; vm_compute; reflexivity. Qed.

End RiskScorerFacts.

(** ** The denylist *)

Module DenylistFacts.

Import Denylist.

(** All ten patterns of the class compile. *)
Lemma init_fresh : init = Some fresh.
Proof. vm_compute. reflexivity. Qed.

(** C8, as the code has it: on the sample the check fails with exactly one
    violation, the entry of the pattern [rm\s+-rf]; no entry for the module
    [os] is made, modules being answered by [is_module_denied], which
    denies [os]. *)
Theorem check_code_sample :
  check_code fresh sample = (false, ["Denied pattern: rm\s+-rf"]) ∧
  mentions "rm" "Denied pattern: rm\s+-rf" ∧
  mentions "-rf" "Denied pattern: rm\s+-rf" ∧
  is_module_denied fresh "os" = true.
Proof. split_and!; vm_compute; reflexivity. Qed.

(** C8 as stated fails: the violations of the sample hold no entry that
    refers to the module [os]. *)
Lemma check_code_sample_no_os_entry :
  ¬ (fst (check_code fresh sample) = false ∧
     (∃ v, v ∈ snd (check_code fresh sample) ∧ mentions "os" v) ∧
     (∃ v, v ∈ snd (check_code fresh sample) ∧
           mentions "rm" v ∧ mentions "-rf" v)).
Proof.
  intros (_ & (v & Hv & Hos) & _).
  assert (E : snd (check_code fresh sample) = ["Denied pattern: rm\s+-rf"])
    by (vm_compute; reflexivity).
  rewrite E in Hv. apply list_elem_of_singleton in Hv. subst v.
  vm_compute in Hos. discriminate.
Qed.

Example check_code_clean : check_code fresh "print(1)" = (true, []).
Proof. vm_compute. reflexivity. Qed.

Example check_code_many :
  snd (check_code fresh "EVAL  (x); format C: DEL   /F __import__( 'os')")
  = [ "Denied pattern: del\s+/[fs]"; "Denied pattern: format\s+[a-z]:";
      "Denied pattern: __import__\s*\("; "Denied pattern: eval\s*\(" ].
Proof. vm_compute. reflexivity. Qed.

End DenylistFacts.

(** ** The native runner *)

Module NativeRunnerFacts.

Import NativeRunner.

(** C3: whatever the command, [execute] turns a timeout of the subprocess
    into a result with exit code -1 and stderr "Execution timed out", a
    missing binary into a result with exit code -1 and a non-empty stderr,
    and a finished process into a result with its exit code and output; the
    only exceptions that leave [execute] are those of [subprocess.run] that
    are neither of the two. *)
Theorem execute_returns_result (host : Host) (working_dir command : string)
    (args : option (list string)) (env : option (gmap string string))
    (timeout : Q) :
  let ran := subprocess_run host (command :: default [] args) working_dir
               (merged_env host env) timeout in
  let r := execute host working_dir command args env timeout in
  (ran = Py.Raise TimeoutExpired →
     ∃ res, r = Py.Return res ∧ exit_code res = (-1)%Z ∧
            stderr res = "Execution timed out" ∧ stderr res ≠ "") ∧
  (ran = Py.Raise FileNotFoundError →
     ∃ res, r = Py.Return res ∧ exit_code res = (-1)%Z ∧
            stderr res = "Command not found: " +:+ command ∧
            stderr res ≠ "") ∧
  (∀ cp, ran = Py.Return cp →
     ∃ res, r = Py.Return res ∧ exit_code res = returncode cp ∧
            stdout res = cp_stdout cp ∧ stderr res = cp_stderr cp) ∧
  (∀ e, r = Py.Raise e → ∃ name, e = OtherError name ∧ ran = Py.Raise e).
Proof.
  intros ran r. subst r. unfold execute. fold ran.
  destruct ran as [cp|[| |name]]; split_and!; try done.
  - intros cp' [= <-]. eexists. done.
  - intros _. eexists. done.
  - intros _. eexists. done.
  - intros e [= <-]. by exists name.
Qed.

End NativeRunnerFacts.

(** ** The event bus *)

Module EventBusFacts.

Import EventBus.

(** A delivery in which no handler raises past [except Exception] calls
    every handler and dead-letters the event once per raising handler. *)
Lemma deliver_spec handlers event dlq called :
  Forall (fun h => aborts event h = false) handlers →
  deliver handlers event dlq called =
  {| dead_letters :=
       dlq ++ replicate (length (List.filter (raises event) handlers)) event;
     invoked := called ++ handlers;
     escaped := None |}.
Proof.
  revert dlq called.
  induction handlers as [|h hs IH]; intros dlq called Hok; simpl.
  - by rewrite !app_nil_r.
  - inversion Hok as [|? ? Hh Hhs]; subst. unfold aborts in Hh.
    unfold raises.
    destruct (h event) eqn:E; [| |done]; rewrite IH by done; simpl;
      by rewrite <- !app_assoc.
Qed.

(** C4: when the handlers of an event raise nothing but exceptions derived
    from [Exception] and exactly one of them raises, [_process_event_sync]
    lets no exception out, calls every handler (in subscription order,
    type-specific before wildcard), and appends the event to the
    dead-letter list exactly once. *)
Theorem process_event_sync_isolates (b : t) (event : EventEnvelope) :
  Forall (fun h => aborts event h = false) (handlers_for b event) →
  length (List.filter (raises event) (handlers_for b event)) = 1 →
  let '(b', d) := process_event_sync b event in
  escaped d = None ∧
  invoked d = handlers_for b event ∧
  dead_letter_queue b' = dead_letter_queue b ++ [event] ∧
  get_dead_letters b' = dead_letters d.
Proof.
  intros Hok Hone. unfold process_event_sync.
  rewrite deliver_spec by done. rewrite Hone. simpl. done.
Qed.

Lemma sample_bus_handlers :
  handlers_for sample_bus step_failed_event
  = [failing_handler; quiet_handler; quiet_handler].
Proof. vm_compute. reflexivity. Qed.

(** The failing handler comes first; both working handlers are still
    called and the event is dead-lettered once. *)
Lemma process_event_sync_isolates_witness :
  escaped (snd (process_event_sync sample_bus step_failed_event)) = None ∧
  invoked (snd (process_event_sync sample_bus step_failed_event))
  = [failing_handler; quiet_handler; quiet_handler] ∧
  dead_letter_queue (fst (process_event_sync sample_bus step_failed_event))
  = [step_failed_event].
Proof.
  pose proof sample_bus_handlers as Hh.
  assert (Hok : Forall (fun h => aborts step_failed_event h = false)
                  (handlers_for sample_bus step_failed_event)).
  { rewrite Hh. repeat constructor. }
  assert (Hone : length (List.filter (raises step_failed_event)
                           (handlers_for sample_bus step_failed_event)) = 1).
  { rewrite Hh. reflexivity. }
  pose proof (process_event_sync_isolates sample_bus step_failed_event
                Hok Hone) as H.
  destruct (process_event_sync sample_bus step_failed_event) as [b' d].
  simpl. destruct H as (H1 & H2 & H3 & _). rewrite H1, H2, H3, Hh. done.
Defined.

(** C4 as stated fails for a handler that raises outside [Exception]:
    with a handler raising [SystemExit] subscribed before a working one,
    exactly one handler raises, yet the exception leaves
    [_process_event_sync], the working handler is not called, and the
    event is not dead-lettered. *)
Lemma process_event_sync_lets_system_exit_out :
  let b := subscribe (subscribe init STEP_FAILED fatal_handler)
             STEP_FAILED quiet_handler in
  handlers_for b step_failed_event = [fatal_handler; quiet_handler] ∧
  fatal_handler step_failed_event = RaisesBaseException "SystemExit" ∧
  quiet_handler step_failed_event = Returns ∧
  ¬ (let '(b', d) := process_event_sync b step_failed_event in
     escaped d = None ∧
     invoked d = handlers_for b step_failed_event ∧
     dead_letter_queue b' = dead_letter_queue b ++ [step_failed_event]) ∧
  (let '(b', d) := process_event_sync b step_failed_event in
   escaped d = Some "SystemExit" ∧
   invoked d = [fatal_handler] ∧
   dead_letter_queue b' = []).
Proof.
  intros b. split; [reflexivity|]. split; [reflexivity|].
  split; [reflexivity|]. split.
  - intros H. vm_compute in H. destruct H as [H _]. discriminate H.
  - vm_compute. repeat split.
Qed.

End EventBusFacts.

(** ** The mission controller *)

Module MissionControllerFacts.

Import TestExecutor MissionController.

(** One call of [_execute_testing] runs the tests at most twice and calls
    the refactor engine at most once: the retry is bounded. *)
Lemma execute_testing_bounded env calls :
  let calls' := fst (execute_testing env calls) in
  test_runs calls' ≤ test_runs calls + 2 ∧
  length (refactor_calls calls') ≤ length (refactor_calls calls) + 1.
Proof.
  unfold execute_testing.
  destruct (run_tests env (test_runs calls)) as [results|e]; simpl; [|lia].
  destruct (all_passed results); simpl; [lia|].
  destruct results as [|r rs]; [simpl; lia|]. cbv beta iota.
  destruct (List.filter _ (r :: rs)) as [|f fs]; simpl; [lia|].
  destruct (refactor_on_error env _ _ _) as [res|e]; simpl;
    [|rewrite length_app; simpl; lia].
  destruct (run_tests env _) as [results'|e]; simpl;
    [|rewrite length_app; simpl; lia].
  destruct (all_passed results'); simpl; rewrite length_app; simpl; lia.
Qed.

(** Whenever [_execute_testing] returns, it returns success; it raises
    only what the first test run raises. *)
Lemma execute_testing_never_reports_failure env calls :
  match snd (execute_testing env calls) with
  | Py.Return (success, _) => success = true
  | Py.Raise e => run_tests env (test_runs calls) = Py.Raise e
  end.
Proof.
  unfold execute_testing.
  destruct (run_tests env (test_runs calls)) as [results|e]; simpl; [|done].
  destruct (all_passed results); simpl; [done|].
  destruct results as [|r rs]; [done|]. cbv beta iota.
  destruct (List.filter _ (r :: rs)) as [|f fs]; simpl; [done|].
  destruct (refactor_on_error env _ _ _) as [res|e]; simpl; [|done].
  destruct (run_tests env _) as [results'|e]; simpl; [|done].
  destruct (all_passed results'); simpl; done.
Qed.

(** C1, on a mission whose tests fail before and after the one refactoring:
    [_execute_testing] runs the tests twice and the refactor engine once and
    then reports success with the message of the no-tests case; so
    [execute_next_step] marks the step and the task completed, counts the
    step as completed, and leaves the mission running without an error. *)
Theorem failed_retry_reports_success :
  execute_testing stubborn {| test_runs := 0; refactor_calls := [] |}
  = ({| test_runs := 2;
        refactor_calls := [("AssertionError", "main.py", 2%Z)] |},
     Py.Return (true, "Tests skipped (no test files found)")) ∧
  let '(c', out) := execute_next_step stubborn 5%Z at_testing in
  out = (true, Some "t3") ∧
  StepState.status <$> last (saved_steps c') = Some StepState.COMPLETED ∧
  TaskGraph.status <$> TaskGraph.get_task (plan c') "t3"
  = Some TaskGraph.COMPLETED ∧
  MissionState.status (mission c') = MissionState.EXECUTING ∧
  MissionState.error (mission c') = None ∧
  MissionState.completed_steps (mission c') = 1%Z.
Proof. split; [reflexivity|]. vm_compute. repeat split. Qed.

(** When the second run passes, the step succeeds with the refactoring's
    explanation. *)
Example retry_succeeds :
  snd (execute_testing
         {| run_tests := fun n => Py.Return
                           (if bool_decide (n = 0) then failing_run else
                              [ {| test_name := "pytest suite"; passed := true;
                                   output := "1 passed";
                                   duration_seconds := 0%Q;
                                   error := None |} ]);
            refactor_on_error := refactor_on_error stubborn;
            run_handler := run_handler stubborn |}
         {| test_runs := 0; refactor_calls := [] |})
  = Py.Return (true, "Tests passed after auto-refactor: patched").
Proof. vm_compute. reflexivity. Qed.

End MissionControllerFacts.

(** ** More on the task graph *)

Module TaskGraphMore.

Import TaskGraph.

Lemma contains_keys g id : contains g id = true ↔ id ∈ keys g.
Proof.
  unfold contains, keys. induction g as [|n g IH]; simpl.
  - split; [done|]. intros H. by apply elem_of_nil in H.
  - destruct (decide (task_id n = id)) as [E|E].
    + split; [|done]. intros _. rewrite E. apply list_elem_of_here.
    + rewrite IH, elem_of_cons. split; [by right|].
      intros [?|?]; [congruence|done].
Qed.

Lemma get_task_elem g id task :
  get_task g id = Some task → task ∈ g ∧ task_id task = id.
Proof.
  induction g as [|n g IH]; simpl; [done|].
  destruct (decide (task_id n = id)) as [E|E].
  - intros [= <-]. split; [apply list_elem_of_here|done].
  - intros H. destruct (IH H). split; [by apply list_elem_of_further|done].
Qed.

Lemma keys_add_task g task :
  keys (add_task g task)
  = if contains g (task_id task) then keys g else keys g ++ [task_id task].
Proof.
  unfold contains, keys. induction g as [|n g IH]; simpl; [done|].
  destruct (decide (task_id n = task_id task)) as [E|E]; simpl.
  - by rewrite E.
  - rewrite IH. by destruct (get_task g (task_id task)).
Qed.

Lemma get_task_add_task g task id :
  get_task (add_task g task) id
  = if decide (task_id task = id) then Some task else get_task g id.
Proof.
  induction g as [|n g IH]; simpl.
  - by destruct (decide (task_id task = id)).
  - destruct (decide (task_id n = task_id task)) as [E|E]; simpl;
      [|rewrite IH];
      destruct (decide (task_id task = id));
      destruct (decide (task_id n = id)); congruence.
Qed.

(** X1: [add_task] is a dict assignment.  The task is found under its id
    afterwards and every other id is found as before; a task whose id is
    already a key replaces the old node in its place, a new id goes to the
    end; and the keys stay unique. *)
Theorem add_task_spec (g : t) (task : TaskNode) :
  wf g →
  wf (add_task g task) ∧
  get_task (add_task g task) (task_id task) = Some task ∧
  (∀ id, id ≠ task_id task → get_task (add_task g task) id = get_task g id) ∧
  (task_id task ∈ keys g → keys (add_task g task) = keys g) ∧
  (task_id task ∉ keys g →
     add_task g task = g ++ [task] ∧
     keys (add_task g task) = keys g ++ [task_id task]).
Proof.
  intros Hwf. split_and!.
  - unfold wf. rewrite keys_add_task.
    destruct (contains g (task_id task)) eqn:E; [done|].
    apply NoDup_app. split; [done|]. split; [|apply NoDup_singleton].
    intros x Hx ->%list_elem_of_singleton.
    apply contains_keys in Hx. congruence.
  - rewrite get_task_add_task. by destruct (decide (task_id task = task_id task)).
  - intros id Hne. rewrite get_task_add_task.
    by destruct (decide (task_id task = id)).
  - intros Hin. apply contains_keys in Hin. by rewrite keys_add_task, Hin.
  - intros Hnot. split.
    + clear Hwf. induction g as [|n g IH]; simpl; [done|].
      apply not_elem_of_cons in Hnot as [Hne Hnot].
      destruct (decide (task_id n = task_id task)); [congruence|].
      f_equal. by apply IH.
    + rewrite keys_add_task.
      destruct (contains g (task_id task)) eqn:E; [|done].
      by apply contains_keys in E.
Qed.

(** Re-adding task B of the chain with a new description keeps the order
    A, B. *)
Lemma add_task_spec_witness :
  let b' := mkTaskNode "B" "again" "development" ["A"] PENDING 0%Q [] in
  wf chain_plan ∧
  get_task (add_task chain_plan b') "B" = Some b' ∧
  keys (add_task chain_plan b') = ["A"; "B"].
Proof.
  intros b'.
  destruct (add_task_spec chain_plan b' TaskGraphFacts.chain_plan_wf)
    as (_ & Hget & _ & Hkeys & _).
  split; [exact TaskGraphFacts.chain_plan_wf|]. split; [exact Hget|].
  apply Hkeys. vm_compute. apply list_elem_of_further, list_elem_of_here.
Defined.

Lemma keys_assign_status s g id : keys (assign_status s g id) = keys g.
Proof.
  unfold keys. induction g as [|n g IH]; simpl; [done|].
  destruct (decide (task_id n = id)); simpl; [done|]. by rewrite IH.
Qed.

Lemma get_task_assign_status s g id id' :
  get_task (assign_status s g id) id'
  = if decide (id' = id) then set_status s <$> get_task g id
    else get_task g id'.
Proof.
  induction g as [|n g IH]; simpl.
  - by destruct (decide (id' = id)).
  - destruct (decide (task_id n = id)) as [E|E]; simpl;
      [|rewrite IH];
      destruct (decide (id' = id));
      destruct (decide (task_id n = id')); simpl; congruence.
Qed.

Lemma assign_status_absent s g id :
  id ∉ keys g → assign_status s g id = g.
Proof.
  unfold keys. induction g as [|n g IH]; simpl; [done|].
  intros [Hne Hnot]%not_elem_of_cons.
  destruct (decide (task_id n = id)); [congruence|]. f_equal. by apply IH.
Qed.

Lemma assign_status_twice s1 s2 g id :
  assign_status s2 (assign_status s1 g id) id = assign_status s2 g id.
Proof.
  induction g as [|n g IH]; simpl; [done|].
  destruct (decide (task_id n = id)) as [E|E]; simpl.
  - by destruct (decide (task_id n = id)).
  - destruct (decide (task_id n = id)); [done|]. by rewrite IH.
Qed.

Lemma mark_completed_assign g id :
  mark_completed g id = assign_status COMPLETED g id.
Proof.
  unfold mark_completed. destruct (contains g id) eqn:E; [done|].
  symmetry. apply assign_status_absent. intros H.
  apply contains_keys in H. congruence.
Qed.

Lemma mark_failed_assign g id :
  mark_failed g id = assign_status FAILED g id.
Proof.
  unfold mark_failed. destruct (contains g id) eqn:E; [done|].
  symmetry. apply assign_status_absent. intros H.
  apply contains_keys in H. congruence.
Qed.

(** [mark_completed] and [mark_failed] change the status of the task
    stored under the id and nothing else: the keys and their order stay,
    every other id reads as before, an id that is no key leaves the graph as
    it is, and marking twice is marking once.  The transitions are
    unconditional: whatever the status was, the last mark wins, so a
    completed task can be failed and a failed one completed. *)
Theorem mark_spec (g : t) (id : string) :
  keys (mark_completed g id) = keys g ∧
  keys (mark_failed g id) = keys g ∧
  get_task (mark_completed g id) id = set_status COMPLETED <$> get_task g id ∧
  get_task (mark_failed g id) id = set_status FAILED <$> get_task g id ∧
  (∀ id', id' ≠ id →
     get_task (mark_completed g id) id' = get_task g id' ∧
     get_task (mark_failed g id) id' = get_task g id') ∧
  (id ∉ keys g → mark_completed g id = g ∧ mark_failed g id = g) ∧
  mark_completed (mark_completed g id) id = mark_completed g id ∧
  mark_failed (mark_failed g id) id = mark_failed g id ∧
  mark_failed (mark_completed g id) id = mark_failed g id ∧
  mark_completed (mark_failed g id) id = mark_completed g id.
Proof.
  rewrite !mark_completed_assign, !mark_failed_assign.
  rewrite !keys_assign_status, !get_task_assign_status, !assign_status_twice.
  destruct (decide (id = id)); [|done].
  split_and!; try done.
  - intros id' Hne. rewrite !get_task_assign_status.
    by destruct (decide (id' = id)).
  - intros Hnot. by rewrite !assign_status_absent.
Qed.

End TaskGraphMore.

(** ** Dependency cycles *)

Module TaskGraphCycles.

Import TaskGraph.

Lemma away_step g ids acc a :
  stuck_set g ids → a ∈ g → away g ids acc → away g ids (order_step acc a).
Proof.
  intros Hstuck Ha (Hset & Hord & Hnd).
  destruct (ExecutionOrderFacts.order_step_cases acc a)
    as [(-> & Hnew & Hdeps)|[-> _]]; [|done].
  assert (Hkey : task_id a ∈ keys g) by (apply list_elem_of_fmap; by exists a).
  assert (Hout : task_id a ∉ ids).
  { intros Hin. destruct (Hstuck a Ha Hin) as (d & Hd & Hbad).
    destruct (Hset d (Hdeps d Hd)) as [Hk Hn].
    destruct Hbad; done. }
  split_and!; simpl.
  - intros x [Hx| ->%elem_of_singleton]%elem_of_union; [by apply Hset|done].
  - intros x [Hx| ->%list_elem_of_singleton]%elem_of_app;
      [by apply Hord|done].
  - apply NoDup_app. split; [done|]. split; [|apply NoDup_singleton].
    intros x Hx ->%list_elem_of_singleton. done.
Qed.

Lemma away_fold g ids l acc :
  stuck_set g ids → (∀ x, x ∈ l → x ∈ g) → away g ids acc →
  away g ids (fold_left order_step l acc).
Proof.
  intros Hstuck. revert acc.
  induction l as [|a l IH]; intros acc Hl Hacc; simpl; [done|].
  apply IH; [intros x Hx; by apply Hl, list_elem_of_further|].
  apply away_step; [done| |done]. apply Hl, list_elem_of_here.
Qed.

Lemma away_short g ids acc id :
  id ∈ keys g → id ∈ ids → away g ids acc → length (fst acc) < length g.
Proof.
  intros Hkey Hid (_ & Hord & Hnd).
  assert (H : id :: fst acc ⊆+ keys g).
  { apply NoDup_submseteq.
    - apply NoDup_cons. split; [|done]. intros Hin.
      by destruct (Hord id Hin).
    - intros x [->|Hx]%elem_of_cons; [done|]. by destruct (Hord x Hx). }
  apply submseteq_length in H. unfold keys in H. rewrite length_map in H.
  simpl in H. lia.
Qed.

(** X3: when some tasks of the graph name only each other (a dependency
    cycle, a self-dependency) or unknown ids in such a way that each task of
    the set has a dependency in the set or outside the graph,
    [get_execution_order] never returns: no fuel is enough. *)
Theorem get_execution_order_stuck (g : t) (ids : gset string) (task : TaskNode) :
  stuck_set g ids → task ∈ g → task_id task ∈ ids →
  ∀ fuel, get_execution_order fuel g = None.
Proof.
  intros Hstuck Hin Hid fuel. unfold get_execution_order.
  assert (Hinit : away g ids ([], ∅)).
  { split_and!; simpl.
    - intros x H. by apply elem_of_empty in H.
    - intros x H. by apply elem_of_nil in H.
    - apply NoDup_nil_2. }
  revert Hinit. generalize (([], ∅) : list string * gset string).
  induction fuel as [|fuel IH]; intros acc Hacc; simpl; [done|].
  assert (Hkey : task_id task ∈ keys g)
    by (apply list_elem_of_fmap; by exists task).
  rewrite bool_decide_eq_true_2
    by (by apply (away_short g ids acc (task_id task))).
  apply IH. by apply away_fold.
Qed.

Lemma cycle_plan_stuck : stuck_set cycle_plan {[ "A"; "B" ]}.
Proof.
  intros task Hin _. unfold cycle_plan in Hin.
  repeat (apply elem_of_cons in Hin as [->|Hin]).
  - exists "B". split; [apply list_elem_of_here|]. left. set_solver.
  - exists "A". split; [apply list_elem_of_here|]. left. set_solver.
  - by apply elem_of_nil in Hin.
Qed.

(** On the two-task cycle no fuel yields an order. *)
Lemma get_execution_order_stuck_witness :
  stuck_set cycle_plan {[ "A"; "B" ]} ∧
  ∀ fuel, get_execution_order fuel cycle_plan = None.
Proof.
  split; [exact cycle_plan_stuck|].
  apply (get_execution_order_stuck cycle_plan {[ "A"; "B" ]}
           (node "A" "setup" ["B"] PENDING) cycle_plan_stuck).
  - apply list_elem_of_here.
  - simpl. set_solver.
Defined.

(** *** Readiness *)

Lemma waiting_apply_op g ids o :
  spares ids o → waiting_set g ids → waiting_set (apply_op g o) ids.
Proof.
  intros Hsp Hw.
  assert (Hassign : ∀ s id, (id ∈ ids → s ≠ COMPLETED) →
            waiting_set (assign_status s g id) ids).
  { intros s id Hs x Hx Hid. rewrite TaskGraphMore.keys_assign_status.
    destruct (TaskGraphFacts.elem_of_assign_status _ _ _ _ Hx)
      as [H|(n & Hn & <- & ->)]; [by apply Hw|].
    simpl in *. destruct (Hw n Hn Hid) as [_ Hd]. split; [by apply Hs|done]. }
  destruct o as [task| |id|id|id s]; simpl in *.
  - intros x Hx Hid.
    destruct (TaskGraphFacts.elem_of_add_task _ _ _ Hx) as [H| ->]; [|done].
    destruct (Hw x H Hid) as [Hs (d & Hd & Hdi & Hdk)]. split; [done|].
    exists d. split; [done|]. split; [done|].
    rewrite TaskGraphMore.keys_add_task.
    destruct (contains g (task_id task)); [done|].
    apply elem_of_app. by left.
  - rewrite TaskGraphFacts.get_ready_tasks_eq. simpl.
    intros x (y & -> & Hy)%list_elem_of_fmap Hid.
    rewrite TaskGraphFacts.promote_id in Hid.
    destruct (Hw y Hy Hid) as [Hs (d & Hd & Hdi & Hdk)].
    unfold promote. destruct (is_ready g y); simpl.
    + split; [done|]. exists d. split; [done|]. split; [done|].
      unfold keys. rewrite map_map.
      erewrite map_ext; [exact Hdk|]. intros a. simpl.
      by destruct (is_ready g a).
    + split; [done|]. exists d. split; [done|]. split; [done|].
      unfold keys. rewrite map_map.
      erewrite map_ext; [exact Hdk|]. intros a. simpl.
      by destruct (is_ready g a).
  - rewrite TaskGraphMore.mark_completed_assign. apply Hassign. done.
  - rewrite TaskGraphMore.mark_failed_assign. by apply Hassign.
  - by apply Hassign.
Qed.

Lemma waiting_apply_ops g ids os :
  Forall (spares ids) os → waiting_set g ids →
  waiting_set (apply_ops g os) ids.
Proof.
  revert g. induction os as [|o os IH]; intros g Hos Hw; simpl; [done|].
  inversion Hos; subst. apply IH; [done|]. by apply waiting_apply_op.
Qed.

(** X4: tasks that wait for each other are never handed out.  If no task of
    a set is completed and each names a dependency that is in the set and in
    the graph, then after any operations that neither complete nor replace
    a task of the set, [get_ready_tasks] returns none of them. *)
Theorem get_ready_tasks_waiting (g : t) (ids : gset string) (os : list op) :
  waiting_set g ids → Forall (spares ids) os →
  ∀ task, task ∈ snd (get_ready_tasks (apply_ops g os)) →
    task_id task ∉ ids.
Proof.
  intros Hw Hos. pose proof (waiting_apply_ops g ids os Hos Hw) as Hw'.
  set (g' := apply_ops g os) in *. clearbody g'.
  rewrite TaskGraphFacts.get_ready_tasks_eq. simpl.
  intros task (y & -> & Hy)%list_elem_of_fmap Hid. simpl in Hid.
  apply list_elem_of_In, filter_In in Hy as [Hy Hr].
  apply list_elem_of_In in Hy.
  destruct (Hw' y Hy Hid) as [_ (d & Hd & Hdi & Hdk)].
  apply TaskGraphFacts.is_ready_eligible in Hr as [_ Hr].
  destruct (Hr d Hd) as [Hn|(n & Hn & Hs)].
  - apply TaskGraphMore.contains_keys in Hdk. unfold contains in Hdk.
    by rewrite Hn in Hdk.
  - apply TaskGraphMore.get_task_elem in Hn as [Hn Hnid]. subst d.
    by destruct (Hw' n Hn Hdi).
Qed.

Lemma cycle_plan_waiting : waiting_set cycle_plan {[ "A"; "B" ]}.
Proof.
  intros task Hin _. unfold cycle_plan in Hin.
  repeat (apply elem_of_cons in Hin as [->|Hin]).
  - split; [done|]. exists "B". split; [apply list_elem_of_here|].
    split; [set_solver|]. vm_compute. set_solver.
  - split; [done|]. exists "A". split; [apply list_elem_of_here|].
    split; [set_solver|]. vm_compute. set_solver.
  - by apply elem_of_nil in Hin.
Qed.

(** On the two-task cycle, with a third task added and completed, still
    neither A nor B is returned. *)
Lemma get_ready_tasks_waiting_witness :
  let os := [AddTask (node "C" "setup" [] PENDING); GetReadyTasks;
             MarkCompleted "C"] in
  waiting_set cycle_plan {[ "A"; "B" ]} ∧
  Forall (spares {[ "A"; "B" ]}) os ∧
  ∀ task, task ∈ snd (get_ready_tasks (apply_ops cycle_plan os)) →
    task_id task ∉ ({[ "A"; "B" ]} : gset string).
Proof.
  intros os.
  assert (Hos : Forall (spares {[ "A"; "B" ]}) os).
  { repeat constructor; simpl;
      apply (bool_decide_unpack _); vm_compute; reflexivity. }
  split; [exact cycle_plan_waiting|]. split; [exact Hos|].
  exact (get_ready_tasks_waiting cycle_plan {[ "A"; "B" ]} os
           cycle_plan_waiting Hos).
Defined.

End TaskGraphCycles.

(** ** More on the approval engine *)

Module ApprovalEngineMore.

Import ApprovalEngine.

Lemma sound_init auto : sound (init auto).
Proof.
  split_and!; simpl.
  - apply ApprovalEngineFacts.wf_init.
  - intros k r. by rewrite lookup_empty.
  - constructor.
  - apply NoDup_nil_2.
  - intros k [x Hx]. by rewrite lookup_empty in Hx.
Qed.

Lemma sound_resolve verdict e id now who why :
  verdict = APPROVED ∨ verdict = DENIED →
  sound e → sound (fst (resolve verdict e id now who why)).
Proof.
  intros Hv (Hwf & Hst & Hres & Hnd & Hdis). unfold resolve.
  destruct (pending_requests e !! id) as [q|] eqn:E; [|done].
  assert (Hid : id ∉ map request_id (history e)) by (apply Hdis; by rewrite E).
  split_and!; simpl.
  - intros k r. simpl. rewrite lookup_delete. case_decide; [done|apply Hwf].
  - intros k r. rewrite lookup_delete. case_decide; [done|apply Hst].
  - apply Forall_app. split; [done|]. constructor; [|constructor].
    unfold resolved. simpl. destruct Hv as [-> | ->]; auto.
  - rewrite map_app. simpl. apply NoDup_app. split; [done|].
    split; [|apply NoDup_singleton].
    intros x Hx ->%list_elem_of_singleton. by rewrite (Hwf _ _ E) in Hx.
  - intros k Hk. rewrite lookup_delete in Hk. case_decide as Hne.
    { by destruct Hk. }
    rewrite map_app. simpl. rewrite elem_of_app, list_elem_of_singleton.
    rewrite (Hwf _ _ E). intros [H|H]; [by apply (Hdis k)|congruence].
Qed.

Lemma sound_step e c : admissible e c → sound e → sound (step e c).
Proof.
  intros Hadm Hs.
  destruct c as [uuid now op d r ctx|id now who why|id now who why]; simpl.
  - destruct Hs as (Hwf & Hst & Hres & Hnd & Hdis). simpl in Hadm.
    assert (Hnp : pending_requests e !! uuid = None).
    { destruct (pending_requests e !! uuid) eqn:E; [|done].
      exfalso. apply Hadm. left. by rewrite E. }
    assert (Hnh : uuid ∉ map request_id (history e)).
    { intros H. apply Hadm. by right. }
    pose proof (ApprovalEngineFacts.wf_step e (Request uuid now op d r ctx) Hwf)
      as Hwf'.
    simpl in Hwf'. unfold request_approval in *.
    destruct (auto_approve_low_risk e && bool_decide (r = "low"));
      split_and!; simpl in *; try done.
    + apply Forall_app. split; [done|]. constructor; [|constructor].
      unfold resolved. simpl. auto.
    + rewrite map_app. simpl. apply NoDup_app. split; [done|].
      split; [|apply NoDup_singleton].
      by intros x Hx ->%list_elem_of_singleton.
    + intros k Hk. rewrite map_app. simpl.
      rewrite elem_of_app, list_elem_of_singleton.
      intros [H| ->]; [by apply (Hdis k)|]. rewrite Hnp in Hk. by destruct Hk.
    + intros k q. rewrite lookup_insert. case_decide; [|apply Hst].
      by intros [= <-].
    + intros k Hk. rewrite lookup_insert in Hk. case_decide as Hk'.
      * by subst k.
      * by apply Hdis.
  - apply sound_resolve; auto.
  - apply sound_resolve; auto.
Qed.

(** X5: every engine reached from a new one by calls of [request_approval]
    (each with a uuid new to the engine), [approve] and [deny] is sound:
    pending requests are PENDING and stored under their own ids, the history
    holds only approved, denied and auto-approved requests (none PENDING,
    none EXPIRED), no id occurs twice in the history, and no id is pending
    and in the history at once. *)
Theorem reachable_sound (auto : bool) (cs : list call) :
  admissible_run (init auto) cs → sound (run (init auto) cs).
Proof.
  pose proof (sound_init auto) as Hs. revert Hs.
  generalize (init auto). induction cs as [|c cs IH]; intros e Hs Hadm; [done|].
  destruct Hadm as [Hc Hcs]. simpl. apply IH; [|done]. by apply sound_step.
Qed.

(** Two requests, the first denied. *)
Lemma reachable_sound_witness :
  let cs := [ Request "u1" 1%Z "rm" "remove a tree" "high" None;
              Request "u2" 2%Z "ls" "list files" "low" None;
              Deny "u1" 3%Z "user" (Some "too risky") ] in
  admissible_run (init true) cs ∧ sound (run (init true) cs) ∧
  is_approved (run (init true) cs) "u1" = false ∧
  is_approved (run (init true) cs) "u2" = true.
Proof.
  intros cs.
  assert (Hadm : admissible_run (init true) cs).
  { simpl. split_and!; try done.
    - apply ApprovalEngineFacts.init_knows_nothing.
    - intros [[x Hx]|Hx]; simpl in Hx.
      + rewrite lookup_insert_ne in Hx by done. by rewrite lookup_empty in Hx.
      + by apply elem_of_nil in Hx. }
  split; [exact Hadm|]. split; [exact (reachable_sound true cs Hadm)|].
  split; reflexivity.
Defined.

(** *** Verdicts are final *)

Lemma decided_resolve b verdict id e id' now who why :
  decided b id e → decided b id (fst (resolve verdict e id' now who why)).
Proof.
  intros (Hp & Hh & Ha). unfold resolve.
  destruct (pending_requests e !! id') as [q|] eqn:E; [|done].
  assert (id' ≠ id) by congruence.
  split_and!; simpl.
  - by rewrite lookup_delete_ne.
  - rewrite map_app. apply elem_of_app. by left.
  - unfold is_approved. simpl.
    by rewrite ApprovalEngineFacts.is_approved_in_old.
Qed.

Lemma decided_step b id e c :
  admissible e c → decided b id e → decided b id (step e c).
Proof.
  intros Hc He.
  destruct c as [uuid now op d r ctx|id' now who why|id' now who why];
    simpl in Hc |- *.
  - destruct He as (Hp & Hh & Ha).
    assert (uuid ≠ id) by (intros ->; apply Hc; by right).
    unfold request_approval.
    destruct (auto_approve_low_risk e && bool_decide (r = "low"));
      split_and!; simpl; try done.
    + rewrite map_app. apply elem_of_app. by left.
    + unfold is_approved. simpl.
      by rewrite ApprovalEngineFacts.is_approved_in_old.
    + by rewrite lookup_insert_ne.
  - by apply decided_resolve.
  - by apply decided_resolve.
Qed.

Lemma decided_run b id cs e :
  admissible_run e cs → decided b id e → decided b id (run e cs).
Proof.
  revert e. induction cs as [|c cs IH]; intros e Hcs He; simpl; [done|].
  destruct Hcs as [Hc Hcs]. apply IH; [done|]. by apply decided_step.
Qed.

(** X6: [approve] and [deny] on an id that is not pending return [None] and
    leave the engine as it is.  On a pending request they return it with
    the verdict, the resolver and the reason, take it out of the pending
    table and put it at the end of the history; and the verdict is final:
    whatever calls follow, [is_approved] of the id stays true after
    [approve] and false after [deny], and a further [approve] or [deny] of
    the id returns [None]. *)
Theorem resolve_spec (e : t) (id : string) (now : datetime) (who : string)
    (why : option string) :
  sound e →
  (pending_requests e !! id = None →
     approve e id now who why = (e, None) ∧
     deny e id now who why = (e, None)) ∧
  (∀ r, pending_requests e !! id = Some r →
     ∃ ra rd,
       approve e id now who why
       = ({| auto_approve_low_risk := auto_approve_low_risk e;
             pending_requests := delete id (pending_requests e);
             history := history e ++ [ra] |}, Some ra) ∧
       deny e id now who why
       = ({| auto_approve_low_risk := auto_approve_low_risk e;
             pending_requests := delete id (pending_requests e);
             history := history e ++ [rd] |}, Some rd) ∧
       request_id ra = id ∧ status ra = APPROVED ∧
       resolved_by ra = Some who ∧ reason ra = why ∧
       request_id rd = id ∧ status rd = DENIED ∧
       resolved_by rd = Some who ∧ reason rd = why ∧
       ∀ cs,
         (admissible_run (fst (approve e id now who why)) cs →
            let e' := run (fst (approve e id now who why)) cs in
            is_approved e' id = true ∧
            snd (approve e' id now who why) = None ∧
            snd (deny e' id now who why) = None) ∧
         (admissible_run (fst (deny e id now who why)) cs →
            let e' := run (fst (deny e id now who why)) cs in
            is_approved e' id = false ∧
            snd (approve e' id now who why) = None ∧
            snd (deny e' id now who why) = None)).
Proof.
  intros (Hwf & Hst & Hres & Hnd & Hdis). split.
  - intros Hp. unfold approve, deny, resolve. by rewrite Hp.
  - intros r Hp.
    assert (Hid : id ∉ map request_id (history e))
      by (apply Hdis; by rewrite Hp).
    pose proof (Hwf _ _ Hp) as Hrid.
    unfold approve, deny, resolve. rewrite Hp.
    eexists _, _. split; [reflexivity|]. split; [reflexivity|].
    simpl. split_and!; try done.
    intros cs.
    assert (Hdec : ∀ verdict b,
      b = bool_decide (verdict = APPROVED)
          || bool_decide (verdict = AUTO_APPROVED) →
      decided b id
        {| auto_approve_low_risk := auto_approve_low_risk e;
           pending_requests := delete id (pending_requests e);
           history := history e ++
             [{| request_id := request_id r; operation := operation r;
                 description := description r; risk_level := risk_level r;
                 context := context r; status := verdict;
                 created_at := created_at r; resolved_at := Some now;
                 resolved_by := Some who; reason := why |}] |}).
    { intros verdict b ->. split_and!; simpl.
      - apply lookup_delete_eq.
      - rewrite map_app. apply elem_of_app. right. simpl.
        by apply list_elem_of_singleton.
      - unfold is_approved. simpl.
        rewrite ApprovalEngineFacts.is_approved_in_new by done. simpl.
        by destruct (decide (request_id r = id)). }
    split; intros Hadm.
    + destruct (decided_run true id cs _ Hadm (Hdec APPROVED true eq_refl))
        as (Hp' & _ & Ha').
      simpl. unfold resolve. by rewrite Hp'.
    + destruct (decided_run false id cs _ Hadm (Hdec DENIED false eq_refl))
        as (Hp' & _ & Ha').
      simpl. unfold resolve. by rewrite Hp'.
Qed.

(** A high-risk request is pending; it is approved, and neither a later
    request nor a later denial of the same id changes the verdict. *)
Lemma resolve_spec_witness :
  let e := fst (request_approval (init true) "u1" 1%Z "rm" "remove a tree"
                  "high" None) in
  let later := [ Request "u2" 3%Z "ls" "list files" "low" None;
                 Deny "u1" 4%Z "admin" (Some "too risky") ] in
  let e' := run (fst (approve e "u1" 2%Z "user" (Some "ok"))) later in
  sound e ∧
  is_Some (pending_requests e !! "u1") ∧
  status <$> snd (approve e "u1" 2%Z "user" (Some "ok")) = Some APPROVED ∧
  pending_requests (fst (approve e "u1" 2%Z "user" (Some "ok"))) !! "u1"
  = None ∧
  is_approved e' "u1" = true ∧
  snd (approve e' "u1" 2%Z "user" (Some "ok")) = None ∧
  snd (deny e' "u1" 2%Z "user" (Some "ok")) = None ∧
  approve (init true) "u1" 2%Z "user" (Some "ok") = (init true, None).
Proof.
  intros e later e'.
  assert (sound e) as Hs.
  { apply (sound_step (init true)
             (Request "u1" 1%Z "rm" "remove a tree" "high" None)).
    - apply ApprovalEngineFacts.init_knows_nothing.
    - apply sound_init. }
  assert (∃ r, pending_requests e !! "u1" = Some r) as [r Hr].
  { eexists. apply lookup_insert_eq. }
  destruct (resolve_spec e "u1" 2%Z "user" (Some "ok") Hs) as [_ Hpending].
  destruct (Hpending r Hr)
    as (ra & rd & Ha & _ & Hid & Hst & _ & _ & _ & _ & _ & _ & Hfinal).
  assert (admissible_run (fst (approve e "u1" 2%Z "user" (Some "ok"))) later)
    as Hadm.
  { rewrite Ha. simpl. split_and!; try done.
    intros [[x Hx]|Hx]; simpl in Hx.
    - rewrite lookup_delete_ne in Hx by done.
      rewrite lookup_insert_ne in Hx by done. by rewrite lookup_empty in Hx.
    - apply list_elem_of_singleton in Hx. by rewrite Hid in Hx. }
  destruct (Hfinal later) as [Happroved _].
  destruct (Happroved Hadm) as (F1 & F2 & F3).
  split; [exact Hs|]. split; [by rewrite Hr|].
  split; [by rewrite Ha; simpl; rewrite Hst|].
  split; [rewrite Ha; simpl; apply lookup_delete_eq|].
  split; [exact F1|]. split; [exact F2|]. split; [exact F3|].
  destruct (resolve_spec (init true) "u1" 2%Z "user" (Some "ok")
              (sound_init true)) as [Hnone _].
  apply Hnone. apply lookup_empty.
Defined.

End ApprovalEngineMore.

(** ** More on the risk scorer *)

Module RiskScorerMore.

Import RiskScorer.

Lemma accounted_add (acc : list string * Q) (factor : string) (weight : Q) :
  (0 < weight)%Q → accounted acc →
  accounted (fst acc ++ [factor], (snd acc + weight)%Q).
Proof.
  intros Hw [[Hf Hs]|[Hf Hs]]; right; simpl; split;
    try (by destruct (fst acc)); lra.
Qed.

Lemma scan_patterns_accounted label weight code patterns acc :
  (0 < weight)%Q → accounted acc →
  accounted (scan_patterns label weight code patterns acc).
Proof.
  intros Hw. revert acc.
  induction patterns as [|p ps IH]; intros acc Hacc; simpl; [done|].
  apply IH. destruct (PyStr.str_in (PyStr.lower p) code); [|done].
  by apply accounted_add.
Qed.

Lemma raw_assess_accounted code context :
  accounted (raw_assess code context).
Proof.
  unfold raw_assess.
  assert (H0 : accounted ([], 0%Q)) by (left; split; [done|reflexivity]).
  pose proof (scan_patterns_accounted "Critical pattern: " 0.4%Q
                (PyStr.lower code) CRITICAL_PATTERNS _ ltac:(done) H0) as H1.
  pose proof (scan_patterns_accounted "High-risk pattern: " 0.15%Q
                (PyStr.lower code) HIGH_RISK_PATTERNS _ ltac:(done) H1) as H2.
  set (a := scan_patterns "High-risk pattern: " _ _ _ _) in *. clearbody a.
  destruct (bool_decide ("network" ∈ capabilities context));
    destruct (bool_decide ("filesystem" ∈ capabilities context));
    repeat apply accounted_add; done.
Qed.

Lemma geb_spec x y : geb x y = true ↔ (y <= x)%Q.
Proof. unfold geb. apply Qle_bool_iff. Qed.

Lemma geb_false x y : geb x y = false ↔ (x < y)%Q.
Proof.
  unfold geb. destruct (Qle_bool y x) eqn:E.
  - apply Qle_bool_iff in E. split; [done|]. lra.
  - split; [|done]. intros _. apply Qnot_le_lt. intros H.
    apply Qle_bool_iff in H. congruence.
Qed.

Lemma py_min_cases x y :
  (py_min x y = x ∧ (x <= y)%Q) ∨ (py_min x y = y ∧ (y < x)%Q).
Proof.
  unfold py_min. destruct (Qle_bool x y) eqn:E.
  - left. split; [done|]. by apply Qle_bool_iff.
  - right. split; [done|]. apply Qnot_le_lt. intros H.
    apply Qle_bool_iff in H. congruence.
Qed.

(** X7: the score of an assessment lies between 0 and 1; the level is read
    off the score at 0.3, 0.6 and 0.8; approval is required exactly at the
    levels HIGH and CRITICAL; and the score is zero exactly when no factor
    was recorded. *)
Theorem assess_spec (code : string) (context : option Context) :
  let a := assess code context in
  (0 <= score a)%Q ∧ (score a <= 1)%Q ∧
  (level a = CRITICAL ↔ (0.8 <= score a)%Q) ∧
  (level a = HIGH ↔ (0.6 <= score a)%Q ∧ (score a < 0.8)%Q) ∧
  (level a = MEDIUM ↔ (0.3 <= score a)%Q ∧ (score a < 0.6)%Q) ∧
  (level a = LOW ↔ (score a < 0.3)%Q) ∧
  (requires_approval a = true ↔ level a = HIGH ∨ level a = CRITICAL) ∧
  (factors a = [] ↔ (score a == 0)%Q).
Proof.
  unfold assess.
  pose proof (raw_assess_accounted code (default ∅ context)) as Hacc.
  destruct (raw_assess code (default ∅ context)) as [f s]. simpl.
  unfold approval_threshold.
  destruct (py_min_cases s 1.0%Q) as [[-> Hm]|[-> Hm]];
    destruct Hacc as [[Hf Hs]|[Hf Hs]]; simpl in Hf, Hs;
    repeat match goal with
    | |- context [geb ?x ?y] =>
        let E := fresh "E" in
        destruct (geb x y) eqn:E;
        [apply geb_spec in E|apply geb_false in E]
    end;
    split_and!; try lra;
    try (split; intros; try done; try lra;
         try match goal with H : _ ∨ _ |- _ => by destruct H end;
         try (by left); try (by right)).
Qed.

Lemma rank_monotone (s1 s2 : Q) :
  (s1 <= s2)%Q →
  rank (if geb s1 0.8%Q then CRITICAL else if geb s1 0.6%Q then HIGH
        else if geb s1 0.3%Q then MEDIUM else LOW)
  ≤ rank (if geb s2 0.8%Q then CRITICAL else if geb s2 0.6%Q then HIGH
          else if geb s2 0.3%Q then MEDIUM else LOW).
Proof.
  intros H.
  repeat match goal with
    | |- context [geb ?x ?y] =>
        let E := fresh "E" in
        destruct (geb x y) eqn:E;
        [apply geb_spec in E|apply geb_false in E]
    end; simpl; try lia; lra.
Qed.

(** X8: appending text to the code neither lowers the level nor lifts a
    requirement of approval. *)
Theorem assess_level_monotone (code extra : string)
    (context : option Context) :
  rank (level (assess code context))
  ≤ rank (level (assess (code +:+ extra) context)) ∧
  (requires_approval (assess code context) = true →
   requires_approval (assess (code +:+ extra) context) = true).
Proof.
  pose proof (RiskScorerFacts.raw_assess_mono code extra (default ∅ context))
    as H.
  unfold assess.
  destruct (raw_assess code (default ∅ context)) as [f1 s1].
  destruct (raw_assess (code +:+ extra) (default ∅ context)) as [f2 s2].
  simpl in *. apply (RiskScorerFacts.py_min_mono _ _ 1.0%Q) in H.
  split; [by apply rank_monotone|].
  unfold approval_threshold. rewrite !geb_spec. lra.
Qed.

End RiskScorerMore.

(** ** More on the risk classifier *)

Module RiskClassifierMore.

Import RiskClassifier.

(** The result of [classify] as a function of the categories found. *)
Lemma classify_by_categories operation :
  let c := classify operation in
  level c = (if existsb high_risk (categories c) then "high"
             else if bool_decide (2 < length (categories c)) then "medium"
             else "low") ∧
  (categories c = [] ∧ confidence c = 0.8%Q ∨
   categories c ≠ [] ∧
   confidence c
   = (0.7 + 0.1 * inject_Z (Z.of_nat (length (categories c))))%Q).
Proof.
  unfold classify.
  destruct (scan_categories (PyStr.lower operation) CATEGORY_KEYWORDS [])
    as [|x l] eqn:E.
  - cbn. split; [done|]. by left.
  - assert (Hne : x :: l ≠ []) by done. revert Hne.
    generalize (x :: l). intros cats Hne.
    cbn [level categories confidence]. split; [done|]. by right.
Qed.

(** The categories come in the order of the table, each at most once, for
    whatever test of the keyword lists. *)
Lemma table_filter_cases (h : list string → bool) :
  ∃ b1 b2 b3 b4 b5 : bool,
    map fst (List.filter (fun p => h (snd p)) CATEGORY_KEYWORDS)
    = (if b1 then [FILESYSTEM] else []) ++ (if b2 then [NETWORK] else [])
      ++ (if b3 then [SYSTEM] else []) ++ (if b4 then [CODE_EXECUTION] else [])
      ++ (if b5 then [DATA_ACCESS] else []).
Proof.
  unfold CATEGORY_KEYWORDS. cbn [List.filter snd].
  repeat match goal with
    | |- context [h ?l] => let b := fresh "b" in set (b := h l); clearbody b
    end.
  exists b, b0, b1, b2, b3.
  by destruct b, b0, b1, b2, b3.
Qed.

(** X9: [classify] reports at most the five categories, in the order of the
    table, and one of the levels "low", "medium" and "high"; the level is
    "medium" exactly when the categories found are filesystem, network and
    data access.  The confidence is no probability: it is above 0.7 and at
    most 1.2, and above 1 exactly when more than three categories match.
    (The confidence is a float in the code and the exact number here; the
    bounds stated are those that hold of both: for one and two categories
    the float lies just below 0.8 and 0.9.) *)
Theorem classify_range (operation : string) :
  let c := classify operation in
  categories c `sublist_of`
    [FILESYSTEM; NETWORK; SYSTEM; CODE_EXECUTION; DATA_ACCESS] ∧
  (0.7 < confidence c)%Q ∧ (confidence c <= 1.2)%Q ∧
  (3 < length (categories c) ↔ (1 < confidence c)%Q) ∧
  (level c = "medium" ↔
   categories c = [FILESYSTEM; NETWORK; DATA_ACCESS]) ∧
  (level c = "low" ∨ level c = "medium" ∨ level c = "high").
Proof.
  intros c. destruct (classify_by_categories operation) as [Hl Hc].
  fold c in Hl, Hc. rewrite Hl. clear Hl.
  assert (Hcats : categories c
                  = map fst (List.filter
                               (fun p => scan_keywords (PyStr.lower operation)
                                           (snd p)) CATEGORY_KEYWORDS)).
  { unfold c. by rewrite RiskClassifierFacts.categories_spec,
      RiskClassifierFacts.scan_categories_eq, app_nil_l. }
  destruct (table_filter_cases (scan_keywords (PyStr.lower operation)))
    as (b1 & b2 & b3 & b4 & b5 & Hb).
  rewrite Hb in Hcats. clear Hb. revert Hc. rewrite Hcats. clear Hcats.
  generalize (confidence c). intros q Hq.
  destruct b1, b2, b3, b4, b5; simpl in *;
    (destruct Hq as [[Hn ->]|[Hne ->]]; try done);
    (split; [|split; [|split; [|split; [|split]]]];
     [ repeat (first [apply sublist_nil | apply sublist_skip
                     | apply sublist_cons])
     | by vm_compute | by vm_compute
     | split; [intros ?; first [lia | by vm_compute]
              |intros Hlt; first [lia | by vm_compute in Hlt]]
     | split; intros; done
     | auto ]).
Qed.

Example classify_confidence_above_one :
  (confidence (classify "read the file, fetch the url, run sql import")
   == 1.2)%Q.
Proof. vm_compute. reflexivity. Qed.

Lemma scan_keywords_app op extra keywords :
  scan_keywords (PyStr.lower op) keywords = true →
  scan_keywords (PyStr.lower (op +:+ extra)) keywords = true.
Proof.
  rewrite !RiskClassifierFacts.scan_keywords_true.
  intros (k & Hk & H). exists k. split; [done|].
  rewrite PyStrFacts.lower_app. by apply PyStrFacts.str_in_app.
Qed.

Lemma filter_sublist_mono {A} (p q : A → bool) (l : list A) :
  (∀ x, p x = true → q x = true) →
  List.filter p l `sublist_of` List.filter q l.
Proof.
  intros H. induction l as [|a l IH]; simpl; [done|].
  destruct (p a) eqn:E.
  - rewrite (H a E). by apply sublist_skip.
  - destruct (q a); [by apply sublist_cons|done].
Qed.

Lemma existsb_sublist {A} (p : A → bool) (l1 l2 : list A) :
  l1 `sublist_of` l2 → existsb p l1 = true → existsb p l2 = true.
Proof.
  intros Hsub. rewrite !existsb_exists. intros (x & Hx & Hp). exists x.
  split; [|done]. apply list_elem_of_In.
  eapply elem_of_sublist; [|exact Hsub]. by apply list_elem_of_In.
Qed.

(** X10: appending text to the operation loses no category and does not
    lower the level. *)
Theorem classify_monotone (operation extra : string) :
  categories (classify operation)
    `sublist_of` categories (classify (operation +:+ extra)) ∧
  level_rank (level (classify operation))
  ≤ level_rank (level (classify (operation +:+ extra))).
Proof.
  assert (Hsub : categories (classify operation)
                   `sublist_of` categories (classify (operation +:+ extra))).
  { rewrite !RiskClassifierFacts.categories_spec,
      !RiskClassifierFacts.scan_categories_eq, !app_nil_l.
    apply fmap_sublist, filter_sublist_mono.
    intros [c kws]. simpl. apply scan_keywords_app. }
  split; [done|].
  destruct (classify_by_categories operation) as [-> _].
  destruct (classify_by_categories (operation +:+ extra)) as [-> _].
  pose proof (sublist_length _ _ Hsub) as Hlen.
  pose proof (existsb_sublist high_risk _ _ Hsub) as Hex.
  destruct (existsb high_risk (categories (classify operation))) eqn:E1.
  - by rewrite Hex.
  - destruct (existsb high_risk (categories (classify (operation +:+ extra))));
      repeat case_bool_decide; first [lia | vm_compute; lia].
Qed.

End RiskClassifierMore.

(** ** More on the patterns *)

Module RegexFacts.

Import Regex.

Lemma match_here_cons cs q re' s :
  match_here ((cs, q) :: re') s
  = match q with
    | Once =>
        match s with
        | String c s' => accepts cs c && match_here re' s'
        | EmptyString => false
        end
    | ZeroOrMore => star_loop cs re' s
    | OneOrMore =>
        match s with
        | String c s' => accepts cs c && star_loop cs re' s'
        | EmptyString => false
        end
    end.
Proof. reflexivity. Qed.

Lemma star_loop_eq cs re' s :
  star_loop cs re' s
  = match_here re' s
    || match s with
       | String c s' => accepts cs c && star_loop cs re' s'
       | EmptyString => false
       end.
Proof. by destruct s. Qed.

(** *** Text after and before a match *)

Lemma star_loop_app cs re' extra :
  (∀ s, match_here re' s = true → match_here re' (s +:+ extra) = true) →
  ∀ s, star_loop cs re' s = true → star_loop cs re' (s +:+ extra) = true.
Proof.
  intros IH s. induction s as [|c s IHs]; rewrite star_loop_eq.
  - rewrite orb_false_r. intros H. rewrite star_loop_eq.
    apply orb_true_iff. left. by apply (IH "").
  - intros [H|[H1 H2]%andb_true_iff]%orb_true_iff;
      rewrite star_loop_eq; apply orb_true_iff.
    + left. by apply (IH (String c s)).
    + right. simpl. rewrite H1. simpl. by apply IHs.
Qed.

Lemma match_here_app re s extra :
  match_here re s = true → match_here re (s +:+ extra) = true.
Proof.
  revert s. induction re as [|[cs q] re' IH]; intros s; [done|].
  rewrite !match_here_cons. destruct q.
  - destruct s as [|c s]; [done|]. simpl.
    intros [H1 H2]%andb_true_iff. rewrite H1. simpl. by apply IH.
  - by apply star_loop_app.
  - destruct s as [|c s]; [done|]. simpl.
    intros [H1 H2]%andb_true_iff. rewrite H1. simpl.
    by apply star_loop_app.
Qed.

Lemma search_prog_app re s extra :
  search_prog re s = true → search_prog re (s +:+ extra) = true.
Proof.
  induction s as [|c s IH]; simpl.
  - rewrite orb_false_r. intros H.
    apply (match_here_app re "" extra) in H.
    change ("" +:+ extra) with extra in *.
    destruct extra; simpl; by rewrite H.
  - intros [H|H]%orb_true_iff; apply orb_true_iff.
    + left. by apply (match_here_app re (String c s)).
    + right. by apply IH.
Qed.

Lemma search_prog_prepend re before s :
  search_prog re s = true → search_prog re (before +:+ s) = true.
Proof.
  intros H. induction before as [|c before IH]; simpl; [done|].
  rewrite IH. apply orb_true_r.
Qed.

(** A pattern found in a text is found in every text that contains it. *)
Lemma search_embedded p before s after :
  search p s = true → search p (before +:+ s +:+ after) = true.
Proof.
  unfold search. intros H. by apply search_prog_prepend, search_prog_app.
Qed.

(** *** Letter case *)

Lemma lower_lower c :
  PyStr.lower_ascii (PyStr.lower_ascii c) = PyStr.lower_ascii c.
Proof. destruct c as [[] [] [] [] [] [] [] []]; reflexivity. Qed.

Lemma upper_lower c :
  PyStr.upper_ascii (PyStr.lower_ascii c) = PyStr.upper_ascii c.
Proof. destruct c as [[] [] [] [] [] [] [] []]; reflexivity. Qed.

Lemma is_space_lower c : is_space (PyStr.lower_ascii c) = is_space c.
Proof. destruct c as [[] [] [] [] [] [] [] []]; reflexivity. Qed.

Lemma accepts_lower cs c : accepts cs (PyStr.lower_ascii c) = accepts cs c.
Proof.
  destruct cs as [l| |ranges]; simpl.
  - by rewrite lower_lower.
  - apply is_space_lower.
  - by rewrite lower_lower, upper_lower.
Qed.

Lemma star_loop_lower cs re' :
  (∀ s, match_here re' (PyStr.lower s) = match_here re' s) →
  ∀ s, star_loop cs re' (PyStr.lower s) = star_loop cs re' s.
Proof.
  intros IH s. induction s as [|c s IHs].
  - reflexivity.
  - rewrite (star_loop_eq cs re' (String c s)).
    rewrite (star_loop_eq cs re' (PyStr.lower (String c s))).
    rewrite (IH (String c s)). simpl. by rewrite accepts_lower, IHs.
Qed.

Lemma match_here_lower re s :
  match_here re (PyStr.lower s) = match_here re s.
Proof.
  revert s. induction re as [|[cs q] re' IH]; intros s; [done|].
  rewrite !match_here_cons. destruct q.
  - destruct s as [|c s]; [done|]. simpl. by rewrite accepts_lower, IH.
  - by apply star_loop_lower.
  - destruct s as [|c s]; [done|]. simpl.
    by rewrite accepts_lower, star_loop_lower.
Qed.

Lemma search_lower p s : search p (PyStr.lower s) = search p s.
Proof.
  unfold search. induction s as [|c s IH].
  - reflexivity.
  - change (PyStr.lower (String c s))
      with (String (PyStr.lower_ascii c) (PyStr.lower s)).
    simpl search_prog at 1.
    change (String (PyStr.lower_ascii c) (PyStr.lower s))
      with (PyStr.lower (String c s)).
    rewrite match_here_lower, IH. reflexivity.
Qed.

End RegexFacts.

(** ** More on the denylist *)

Module DenylistMore.

Import Denylist.

Lemma scan_eq patterns code acc :
  scan patterns code acc
  = acc ++ map violation
             (List.filter (fun p => Regex.search p code) patterns).
Proof.
  revert acc. induction patterns as [|p ps IH]; intros acc; simpl.
  - by rewrite app_nil_r.
  - rewrite IH. destruct (Regex.search p code); simpl; [|done].
    by rewrite <- app_assoc.
Qed.

Lemma check_code_eq d code :
  check_code d code
  = (bool_decide
       (List.filter (fun p => Regex.search p code) (denied_patterns d) = []),
     map violation
       (List.filter (fun p => Regex.search p code) (denied_patterns d))).
Proof.
  unfold check_code. rewrite scan_eq, app_nil_l. f_equal.
  apply bool_decide_ext. rewrite length_map.
  split; [apply nil_length_inv|by intros ->].
Qed.

(** X11: [check_code] reports one entry for each pattern of the denylist
    that is found in the code, in the order of the patterns, and answers
    [True] exactly when no pattern is found, that is when it reports
    nothing.  For a denylist that holds the ten patterns of the class and
    no added one, code that is rejected stays rejected inside any longer
    text: every entry reported for a piece of code is reported, in the
    same order, for every text that contains the piece.  (An added pattern
    may be anchored, and then this fails.) *)
Theorem check_code_spec (d : t) (code before after : string) :
  snd (check_code d code)
  = map violation
      (List.filter (fun p => Regex.search p code) (denied_patterns d)) ∧
  (fst (check_code d code) = true ↔
   ∀ p, p ∈ denied_patterns d → Regex.search p code = false) ∧
  (fst (check_code d code) = true ↔ snd (check_code d code) = []) ∧
  (denied_patterns d = denied_patterns fresh →
   snd (check_code d code)
     `sublist_of` snd (check_code d (before +:+ code +:+ after)) ∧
   (fst (check_code d (before +:+ code +:+ after)) = true →
    fst (check_code d code) = true)).
Proof.
  rewrite !check_code_eq. simpl.
  assert (Hsub :
    List.filter (fun p => Regex.search p code) (denied_patterns d)
      `sublist_of`
    List.filter (fun p => Regex.search p (before +:+ code +:+ after))
      (denied_patterns d)).
  { apply RiskClassifierMore.filter_sublist_mono.
    intros p. apply RegexFacts.search_embedded. }
  split; [done|]. split; [|split; [|intros _; split]].
  - rewrite bool_decide_eq_true. split.
    + intros Hnil p Hp. destruct (Regex.search p code) eqn:E; [|done].
      assert (Hin : p ∈ List.filter (fun p => Regex.search p code)
                          (denied_patterns d)).
      { apply list_elem_of_In, filter_In.
        split; [by apply list_elem_of_In|done]. }
      rewrite Hnil in Hin. by apply elem_of_nil in Hin.
    + intros H. apply TaskGraphFacts.filter_none. exact H.
  - rewrite bool_decide_eq_true. split; [by intros ->|].
    intros H. by apply fmap_nil_inv in H.
  - by apply fmap_sublist.
  - rewrite !bool_decide_eq_true. intros H. rewrite H in Hsub.
    by apply sublist_nil_r in Hsub.
Qed.

(** A denylist with one more module has the patterns of the class; the
    entry of [eval] is kept inside a longer script. *)
Lemma check_code_spec_witness :
  let d := add_module fresh "requests" in
  denied_patterns d = denied_patterns fresh ∧
  snd (check_code d "eval (x)") = ["Denied pattern: eval\s*\("] ∧
  ["Denied pattern: eval\s*\("]
    `sublist_of` snd (check_code d ("import os; " +:+ "eval (x)" +:+ " # rm -rf"))
  ∧ fst (check_code d ("import os; " +:+ "eval (x)" +:+ " # rm -rf")) = false.
Proof.
  intros d.
  destruct (check_code_spec d "eval (x)" "import os; " " # rm -rf")
    as (H1 & _ & H3 & H4).
  destruct (H4 eq_refl) as [Hsub Hsafe].
  assert (snd (check_code d "eval (x)") = ["Denied pattern: eval\s*\("]) as E
    by (rewrite H1; vm_compute; reflexivity).
  split; [reflexivity|]. split; [exact E|]. split; [by rewrite <- E|].
  apply not_true_is_false. intros Ht. apply Hsafe, H3 in Ht.
  rewrite E in Ht. discriminate Ht.
Defined.

(** X12: [check_code] ignores the letter case of ASCII code.  For a
    denylist that holds the ten patterns of the class and no added one,
    and code in which every character is ASCII, the code and its
    lower-cased form get the same answer and the same entries. *)
Theorem check_code_ignores_case (d : t) (code : string) :
  denied_patterns d = denied_patterns fresh →
  PyStr.isascii code = true →
  check_code d (PyStr.lower code) = check_code d code.
Proof.
  intros _ _. rewrite !check_code_eq.
  rewrite (filter_ext (fun p => Regex.search p (PyStr.lower code))
             (fun p => Regex.search p code));
    [done|]. intros p. apply RegexFacts.search_lower.
Qed.

Lemma check_code_ignores_case_witness :
  denied_patterns fresh = denied_patterns fresh ∧
  PyStr.isascii "OS.SYSTEM('RM   -RF /')" = true ∧
  check_code fresh "os.system('rm   -rf /')"
  = check_code fresh "OS.SYSTEM('RM   -RF /')" ∧
  check_code fresh "OS.SYSTEM('RM   -RF /')"
  = (false, ["Denied pattern: rm\s+-rf"]).
Proof.
  split; [reflexivity|]. split; [reflexivity|]. split; [|reflexivity].
  exact (check_code_ignores_case fresh "OS.SYSTEM('RM   -RF /')"
           eq_refl eq_refl).
Defined.

Example check_code_upper_case :
  check_code fresh "OS.SYSTEM('RM   -RF /')"
  = (false, ["Denied pattern: rm\s+-rf"]).
Proof. vm_compute. reflexivity. Qed.


End DenylistMore.

(** ** More on the event bus *)

Module EventBusMore.

Import EventBus.

Lemma value_inj ty1 ty2 : value ty1 = value ty2 → ty1 = ty2.
Proof. destruct ty1, ty2; simpl; intros H; first [done | discriminate H]. Qed.

(** The list [_process_event_sync] builds after a subscription. *)
Lemma handlers_for_subscribe (b : t) (ty : EventType) (h : Handler)
    (event : EventEnvelope) :
  (event_type event = ty →
   handlers_for (subscribe b ty h) event
   = default [] (listeners b !! value ty) ++ [h] ++ wildcard_listeners b) ∧
  (event_type event ≠ ty →
   handlers_for (subscribe b ty h) event = handlers_for b event) ∧
  handlers_for (subscribe_all b h) event = handlers_for b event ++ [h].
Proof.
  unfold handlers_for, subscribe, subscribe_all. simpl. split_and!.
  - intros ->. rewrite lookup_insert_eq. simpl. by rewrite <- app_assoc.
  - intros Hne. rewrite lookup_insert_ne; [done|].
    intros E. apply value_inj in E. congruence.
  - by rewrite app_assoc.
Qed.

(** *** Deliveries in general *)

Lemma deliver_general handlers event dlq called :
  let reached := upto_abort event handlers in
  let d := deliver handlers event dlq called in
  invoked d = called ++ reached ∧
  dead_letters d
  = dlq ++ replicate (length (List.filter (raises event) reached)) event ∧
  (escaped d = None ↔ Forall (fun h => aborts event h = false) handlers) ∧
  (escaped d = None → reached = handlers).
Proof.
  revert dlq called.
  induction handlers as [|h hs IH]; intros dlq called; simpl.
  - rewrite !app_nil_r. split_and!; try done.
  - unfold aborts, raises. destruct (h event) eqn:E; simpl.
    + destruct (IH dlq (called ++ [h])) as (H1 & H2 & H3 & H4).
      rewrite H1, H2, <- app_assoc. unfold raises. rewrite E. simpl.
      split_and!; try done.
      * rewrite H3. split; [intros H; constructor; [|done]|].
        -- unfold aborts. by rewrite E.
        -- intros H. by inversion H.
      * intros H. f_equal. by apply H4.
    + destruct (IH (dlq ++ [event]) (called ++ [h])) as (H1 & H2 & H3 & H4).
      rewrite H1, H2, <- !app_assoc. unfold raises. rewrite E. simpl.
      split_and!; try done.
      * rewrite H3. split; [intros H; constructor; [|done]|].
        -- unfold aborts. by rewrite E.
        -- intros H. by inversion H.
      * intros H. f_equal. by apply H4.
    + unfold raises. rewrite E. simpl. rewrite app_nil_r.
      split_and!; try done. split; [done|].
      intros H. inversion H as [|? ? Hh _]. unfold aborts in Hh.
      by rewrite E in Hh.
Qed.

Lemma process_event_sync_effect (b : t) (event : EventEnvelope) :
  let reached := upto_abort event (handlers_for b event) in
  let '(b', d) := process_event_sync b event in
  invoked d = reached ∧
  dead_letter_queue b'
  = dead_letter_queue b
    ++ replicate (length (List.filter (raises event) reached)) event ∧
  (escaped d = None ↔ tame b event) ∧
  (tame b event → invoked d = handlers_for b event) ∧
  listeners b' = listeners b ∧
  wildcard_listeners b' = wildcard_listeners b ∧
  event_queue b' = event_queue b.
Proof.
  intros reached. unfold process_event_sync.
  destruct (deliver_general (handlers_for b event) event
              (dead_letter_queue b) []) as (H1 & H2 & H3 & H4).
  simpl in *. fold reached in H1, H2, H4.
  split_and!; try done.
  intros Ht. rewrite H1. apply H4. by apply H3.
Qed.

(** X15: what [_process_event_sync] does in general.  The handlers are
    called in order up to and including the first one that raises outside
    [Exception]; that exception leaves the method and the handlers after it
    are not called.  The event is appended to the dead-letter list once for
    every called handler that raised an [Exception], so several times when
    several handlers fail; the subscriptions and the queue are not
    touched. *)
Theorem process_event_sync_general (b : t) (event : EventEnvelope) :
  let reached := upto_abort event (handlers_for b event) in
  let '(b', d) := process_event_sync b event in
  invoked d = reached ∧
  dead_letter_queue b'
  = dead_letter_queue b
    ++ replicate (length (List.filter (raises event) reached)) event ∧
  (escaped d = None ↔ tame b event) ∧
  (tame b event → invoked d = handlers_for b event) ∧
  listeners b' = listeners b ∧
  wildcard_listeners b' = wildcard_listeners b ∧
  event_queue b' = event_queue b.
Proof. exact (process_event_sync_effect b event). Qed.


(** X14: handlers are called in the order of subscription, those of the
    event's type before the wildcard ones.  After [subscribe], a delivery
    of an event of that type calls the earlier handlers of the type, then
    the new handler, then the wildcard handlers (as far as none raises
    outside [Exception]; a handler subscribed twice is called twice), and
    a delivery of an event of another type is what it was before.  After
    [subscribe_all], a delivery calls the new handler after all the
    others.  Neither call touches the queue, the dead letters, the running
    flag or the other kind of subscriptions. *)
Theorem subscribe_order (b : t) (ty : EventType) (h : Handler)
    (event : EventEnvelope) :
  let d := snd (process_event_sync b event) in
  let d1 := snd (process_event_sync (subscribe b ty h) event) in
  let d2 := snd (process_event_sync (subscribe_all b h) event) in
  (event_type event = ty →
   invoked d1
   = upto_abort event
       (default [] (listeners b !! value ty) ++ [h] ++ wildcard_listeners b)) ∧
  (event_type event = ty → tame (subscribe b ty h) event →
   invoked d1
   = default [] (listeners b !! value ty) ++ [h] ++ wildcard_listeners b) ∧
  (event_type event ≠ ty → d1 = d) ∧
  invoked d2 = upto_abort event (handlers_for b event ++ [h]) ∧
  (tame (subscribe_all b h) event → invoked d2 = invoked d ++ [h]) ∧
  (∀ ty', ty' ≠ ty →
     listeners (subscribe b ty h) !! value ty' = listeners b !! value ty') ∧
  wildcard_listeners (subscribe b ty h) = wildcard_listeners b ∧
  event_queue (subscribe b ty h) = event_queue b ∧
  dead_letter_queue (subscribe b ty h) = dead_letter_queue b ∧
  running (subscribe b ty h) = running b ∧
  listeners (subscribe_all b h) = listeners b ∧
  event_queue (subscribe_all b h) = event_queue b ∧
  dead_letter_queue (subscribe_all b h) = dead_letter_queue b ∧
  running (subscribe_all b h) = running b.
Proof.
  intros d d1 d2.
  destruct (handlers_for_subscribe b ty h event) as (Hsame & Hother & Hall).
  pose proof (process_event_sync_effect (subscribe b ty h) event) as E1.
  pose proof (process_event_sync_effect (subscribe_all b h) event) as E2.
  pose proof (process_event_sync_effect b event) as E0.
  cbv zeta in E0, E1, E2. subst d d1 d2.
  destruct (process_event_sync (subscribe b ty h) event) as [b1 r1] eqn:P1.
  destruct (process_event_sync (subscribe_all b h) event) as [b2 r2] eqn:P2.
  destruct (process_event_sync b event) as [b0 r0] eqn:P0.
  cbn [snd].
  destruct E1 as (I1 & _ & _ & T1 & _).
  destruct E2 as (I2 & _ & _ & T2 & _).
  destruct E0 as (_ & _ & _ & T0 & _).
  split_and!; try done.
  - intros Ht. by rewrite I1, (Hsame Ht).
  - intros Ht Htame. by rewrite (T1 Htame), (Hsame Ht).
  - intros Hne. unfold process_event_sync in P0, P1.
    rewrite (Hother Hne) in P1. simpl in P1. congruence.
  - by rewrite I2, Hall.
  - intros Htame. rewrite (T2 Htame), Hall. f_equal. symmetry. apply T0.
    unfold tame in *. rewrite Hall in Htame.
    by apply Forall_app in Htame as [? _].
  - intros ty' Hne. simpl. rewrite lookup_insert_ne; [done|].
    intros E. apply value_inj in E. congruence.
Qed.

(** A handler subscribed twice is called twice. *)
Example subscribed_twice_called_twice :
  invoked (snd (process_event_sync
                  (subscribe (subscribe init STEP_FAILED quiet_handler)
                     STEP_FAILED quiet_handler)
                  step_failed_event))
  = [quiet_handler; quiet_handler].
Proof. reflexivity. Qed.

Example two_failures_two_dead_letters :
  dead_letter_queue
    (fst (process_event_sync
            (subscribe sample_bus STEP_FAILED failing_handler)
            step_failed_event))
  = [step_failed_event; step_failed_event].
Proof. vm_compute. reflexivity. Qed.

Example fatal_handler_stops_delivery :
  let b := subscribe_all (subscribe init STEP_FAILED fatal_handler)
             quiet_handler in
  invoked (snd (process_event_sync b step_failed_event)) = [fatal_handler] ∧
  escaped (snd (process_event_sync b step_failed_event)) = Some "SystemExit".
Proof. vm_compute. split; reflexivity. Qed.

(** *** The queue and the worker *)

Lemma publish_all_spec b events :
  listeners (publish_all b events) = listeners b ∧
  wildcard_listeners (publish_all b events) = wildcard_listeners b ∧
  event_queue (publish_all b events) = event_queue b ++ events ∧
  dead_letter_queue (publish_all b events) = dead_letter_queue b ∧
  running (publish_all b events) = running b.
Proof.
  unfold publish_all. revert b.
  induction events as [|e es IH]; intros b; simpl.
  - by rewrite app_nil_r.
  - destruct (IH (publish b e)) as (H1 & H2 & H3 & H4 & H5).
    rewrite H1, H2, H3, H4, H5. simpl. by rewrite <- app_assoc.
Qed.

Lemma handlers_for_ext b1 b2 event :
  listeners b1 = listeners b2 →
  wildcard_listeners b1 = wildcard_listeners b2 →
  handlers_for b1 event = handlers_for b2 event.
Proof. unfold handlers_for. by intros -> ->. Qed.

Lemma worker_drains b0 events extra :
  ∀ b, listeners b = listeners b0 →
       wildcard_listeners b = wildcard_listeners b0 →
       running b = true →
       event_queue b = events →
       Forall (tame b0) events →
       let '(b', calls) := worker (length events + extra) b in
       calls
       = flat_map (fun e => map (fun h => (h, e)) (handlers_for b0 e)) events ∧
       event_queue b' = [] ∧
       dead_letter_queue b'
       = dead_letter_queue b
         ++ flat_map
              (fun e =>
                 replicate
                   (length (List.filter (raises e) (handlers_for b0 e))) e)
              events ∧
       listeners b' = listeners b0 ∧
       wildcard_listeners b' = wildcard_listeners b0.
Proof.
  induction events as [|e es IH]; intros b Hl Hw Hr Hq Ht.
  - simpl. clear Ht. revert b Hl Hw Hr Hq.
    induction extra as [|n IHn]; intros b Hl Hw Hr Hq; simpl.
    + by rewrite app_nil_r.
    + rewrite Hr. unfold worker_iteration. rewrite Hq. by apply IHn.
  - inversion Ht as [|? ? Hte Htes]; subst.
    cbn [length Nat.add worker]. rewrite Hr.
    unfold worker_iteration. rewrite Hq.
    set (b1 := {| listeners := listeners b;
                  wildcard_listeners := wildcard_listeners b;
                  event_queue := es;
                  dead_letter_queue := dead_letter_queue b;
                  running := running b |}).
    pose proof (process_event_sync_effect b1 e) as G.
    destruct (process_event_sync b1 e) as [b2 d] eqn:E.
    cbv zeta in G. destruct G as (_ & G2 & G3 & G4 & G5 & G6 & G7).
    assert (handlers_for b1 e = handlers_for b0 e) as Eh
      by (by apply handlers_for_ext).
    assert (tame b1 e) as Ht1 by (unfold tame; by rewrite Eh).
    rewrite (proj2 G3 Ht1). rewrite (G4 Ht1), Eh.
    assert (running b2 = true) as Hr2.
    { unfold process_event_sync in E. injection E as <- _. done. }
    specialize (IH b2). simpl in G5, G6, G7.
    rewrite G5, G6 in IH. specialize (IH Hl Hw Hr2 G7 Htes).
    destruct (worker (length es + extra) b2) as [b3 later].
    destruct IH as (I1 & I2 & I3 & I4 & I5).
    split_and!; try done.
    + simpl. by rewrite I1.
    + rewrite I3, G2. simpl. rewrite <- app_assoc. do 2 f_equal.
      assert (upto_abort e (handlers_for b1 e) = handlers_for b1 e) as ->.
      { pose proof (deliver_general (handlers_for b1 e) e
                      (dead_letter_queue b1) []) as D.
        cbv zeta in D. destruct D as (_ & _ & D3 & D4).
        apply D4. by apply D3. }
      by rewrite Eh.
Qed.

(** X16: [publish] only puts the event at the end of the queue: no handler
    is called and nothing else of the bus changes.  The running worker
    takes the events from the queue oldest first, and, as long as no
    handler raises outside [Exception], delivers every one of them: after
    as many iterations as there were events the queue is empty, the handler
    calls are those of the first event, then those of the second, and so
    on, and each event has been dead-lettered once per handler that
    failed on it. *)
Theorem publish_worker_fifo (b : t) (events : list EventEnvelope)
    (extra : nat) :
  running b = true →
  event_queue b = [] →
  Forall (tame b) events →
  let queued := publish_all b events in
  let '(b', calls) := worker (length events + extra) queued in
  event_queue queued = events ∧
  dead_letter_queue queued = dead_letter_queue b ∧
  listeners queued = listeners b ∧
  wildcard_listeners queued = wildcard_listeners b ∧
  calls
  = flat_map (fun e => map (fun h => (h, e)) (handlers_for b e)) events ∧
  event_queue b' = [] ∧
  dead_letter_queue b'
  = dead_letter_queue b
    ++ flat_map
         (fun e =>
            replicate (length (List.filter (raises e) (handlers_for b e))) e)
         events.
Proof.
  intros Hr Hq Ht queued.
  destruct (publish_all_spec b events) as (P1 & P2 & P3 & P4 & P5).
  fold queued in P1, P2, P3, P4, P5. rewrite Hq in P3. simpl in P3.
  pose proof (worker_drains b events extra queued P1 P2) as W.
  rewrite P5 in W. specialize (W Hr P3 Ht).
  destruct (worker (length events + extra) queued) as [b' calls].
  destruct W as (W1 & W2 & W3 & _ & _). rewrite P4 in W3.
  split_and!; done.
Qed.

Lemma publish_worker_fifo_witness :
  running running_sample_bus = true ∧
  dead_letter_queue
    (fst (worker 2 (publish_all running_sample_bus
                      [step_failed_event; step_failed_event])))
  = [step_failed_event; step_failed_event].
Proof.
  split; [reflexivity|].
  pose proof (publish_worker_fifo running_sample_bus
                [step_failed_event; step_failed_event] 0
                eq_refl eq_refl) as H.
  assert (Forall (tame running_sample_bus)
            [step_failed_event; step_failed_event]) as Ht.
  { repeat constructor. }
  specialize (H Ht). cbv zeta in H.
  destruct (worker _ _) as [b' calls]. simpl.
  destruct H as (_ & _ & _ & _ & _ & _ & ->). reflexivity.
Defined.

(** The worker ends on an exception outside [Exception]: the events queued
    after it are never delivered. *)
Example fatal_handler_ends_worker :
  let b := {| listeners := listeners (subscribe init STEP_FAILED fatal_handler);
              wildcard_listeners := [];
              event_queue := [];
              dead_letter_queue := [];
              running := true |} in
  event_queue
    (fst (worker 10 (publish_all b [step_failed_event; step_failed_event])))
  = [step_failed_event].
Proof. vm_compute. reflexivity. Qed.

End EventBusMore.

(** ** More on the mission controller *)

Module MissionControllerMore.

Import TaskGraph MissionController.

(** *** One step, by cases *)

Lemma promote_idle g (l : list TaskNode) :
  List.filter (is_ready g) l = [] → map (promote g) l = l.
Proof.
  induction l as [|x l IH]; simpl; [done|].
  unfold promote at 1. destruct (is_ready g x); [done|].
  intros H. by rewrite IH.
Qed.

Lemma get_task_promote g (l : list TaskNode) id :
  get_task (map (promote g) l) id = promote g <$> get_task l id.
Proof.
  induction l as [|x l IH]; simpl; [done|].
  rewrite TaskGraphFacts.promote_id.
  destruct (decide (task_id x = id)); [done|exact IH].
Qed.

Lemma keys_promote g (l : list TaskNode) : keys (map (promote g) l) = keys l.
Proof.
  unfold keys. rewrite map_map. apply map_ext. intros x.
  apply TaskGraphFacts.promote_id.
Qed.

Lemma step_idle env now c :
  List.filter (is_ready (plan c)) (plan c) = [] →
  let '(c', out) := execute_next_step env now c in
  out = (false, None) ∧
  plan c' = plan c ∧
  MissionState.status (mission c')
  = (if is_complete (plan c) then MissionState.COMPLETED
     else MissionState.status (mission c)) ∧
  MissionState.completed_steps (mission c')
  = MissionState.completed_steps (mission c) ∧
  MissionState.error (mission c') = MissionState.error (mission c) ∧
  saved_steps c' = saved_steps c ∧
  calls c' = calls c.
Proof.
  intros H. unfold execute_next_step.
  rewrite TaskGraphFacts.get_ready_tasks_eq, H, (promote_idle _ _ H). simpl.
  destruct (is_complete (plan c)); simpl; done.
Qed.

Lemma step_busy env now c task rest :
  List.filter (is_ready (plan c)) (plan c) = task :: rest →
  let '(c', out) := execute_next_step env now c in
  let '(calls', (success, result)) :=
    execute_task env (calls c) (set_status READY task) in
  out = (success, Some (task_id task)) ∧
  plan c'
  = assign_status (if success then COMPLETED else FAILED)
      (map (promote (plan c)) (plan c)) (task_id task) ∧
  MissionState.status (mission c')
  = (if success then MissionState.status (mission c)
     else MissionState.FAILED) ∧
  MissionState.completed_steps (mission c')
  = (MissionState.completed_steps (mission c)
     + (if success then 1 else 0))%Z ∧
  MissionState.error (mission c')
  = (if success then MissionState.error (mission c) else Some result) ∧
  calls c' = calls'.
Proof.
  intros H. unfold execute_next_step.
  rewrite TaskGraphFacts.get_ready_tasks_eq, H.
  cbn [map]. cbv beta iota zeta.
  destruct (execute_task env (calls c) (set_status READY task))
    as [calls' [success result]].
  destruct success; cbn [plan mission calls MissionState.status
    MissionState.completed_steps MissionState.error task_id set_status].
  - rewrite TaskGraphMore.mark_completed_assign,
      TaskGraphMore.assign_status_twice.
    split_and!; try done.
  - rewrite TaskGraphMore.mark_failed_assign,
      TaskGraphMore.assign_status_twice.
    split_and!; try done. lia.
Qed.

Lemma filter_sublist_of {A} (f : A → bool) (l : list A) :
  List.filter f l `sublist_of` l.
Proof.
  induction l as [|x l IH]; simpl; [constructor|].
  destruct (f x); by constructor.
Qed.

Lemma ready_head g task rest :
  List.filter (is_ready g) g = task :: rest →
  task ∈ g ∧ is_ready g task = true ∧ status task = PENDING.
Proof.
  intros H.
  assert (In task (List.filter (is_ready g) g)) as Hin
    by (rewrite H; by left).
  apply filter_In in Hin as [Hin Hr]. split; [by apply list_elem_of_In|].
  split; [done|]. by apply TaskGraphFacts.is_ready_pending in Hr.
Qed.

Lemma wf_get_task g x : wf g → x ∈ g → get_task g (task_id x) = Some x.
Proof.
  intros Hwf Hx. destruct (get_task g (task_id x)) as [y|] eqn:E.
  - apply TaskGraphMore.get_task_elem in E as [Hy Hid].
    f_equal. by apply (TaskGraphFacts.wf_same_id g).
  - assert (contains g (task_id x) = true) as Hc.
    { apply TaskGraphMore.contains_keys. apply list_elem_of_fmap. by exists x. }
    unfold contains in Hc. by rewrite E in Hc.
Qed.

Lemma promote_not_ready g task : is_ready g task = false → promote g task = task.
Proof. unfold promote. by intros ->. Qed.

Lemma promote_ready g task :
  is_ready g task = true → promote g task = set_status READY task.
Proof. unfold promote. by intros ->. Qed.

Lemma not_pending_not_ready g task :
  status task ≠ PENDING → is_ready g task = false.
Proof.
  intros H. destruct (is_ready g task) eqn:E; [|done].
  by apply TaskGraphFacts.is_ready_pending in E.
Qed.

Lemma step_keys env now c :
  keys (plan (fst (execute_next_step env now c))) = keys (plan c).
Proof.
  destruct (List.filter (is_ready (plan c)) (plan c)) as [|task rest] eqn:E.
  - pose proof (step_idle env now c E) as H.
    destruct (execute_next_step env now c) as [c' out]. simpl.
    destruct H as (_ & -> & _). done.
  - pose proof (step_busy env now c task rest E) as H.
    destruct (execute_next_step env now c) as [c' out]. simpl.
    destruct (execute_task _ _ _) as [calls' [success result]].
    destruct H as (_ & -> & _).
    by rewrite TaskGraphMore.keys_assign_status, keys_promote.
Qed.

Lemma step_wf env now c :
  wf (plan c) → wf (plan (fst (execute_next_step env now c))).
Proof. unfold wf. by rewrite step_keys. Qed.

(** A task that is not eligible is not touched by the step. *)
Lemma step_frame env now c id task :
  wf (plan c) →
  get_task (plan c) id = Some task →
  is_ready (plan c) task = false →
  let '(c', out) := execute_next_step env now c in
  get_task (plan c') id = Some task ∧ snd out ≠ Some id.
Proof.
  intros Hwf Hg Hr.
  destruct (List.filter (is_ready (plan c)) (plan c)) as [|first rest] eqn:E.
  - pose proof (step_idle env now c E) as H.
    destruct (execute_next_step env now c) as [c' out].
    destruct H as (-> & -> & _). done.
  - pose proof (step_busy env now c first rest E) as H.
    destruct (execute_next_step env now c) as [c' out].
    destruct (execute_task _ _ _) as [calls' [success result]].
    destruct H as (-> & -> & _).
    apply ready_head in E as (Hin & Hfr & _).
    assert (id ≠ task_id first) as Hne.
    { intros ->. rewrite (wf_get_task _ _ Hwf Hin) in Hg.
      injection Hg as ->. congruence. }
    split; [|simpl; congruence].
    rewrite TaskGraphMore.get_task_assign_status.
    destruct (decide (id = task_id first)); [done|].
    rewrite get_task_promote, Hg. simpl. by rewrite promote_not_ready.
Qed.

Lemma step_effect (env : Collaborators) (now : Z) (c : t) :
  wf (plan c) →
  let g := plan c in
  let '(c', (success, step_id)) := execute_next_step env now c in
  wf (plan c') ∧
  keys (plan c') = keys g ∧
  (∀ id task, get_task g id = Some task → is_ready g task = false →
     get_task (plan c') id = Some task) ∧
  match snd (get_ready_tasks g) with
  | [] =>
      success = false ∧ step_id = None ∧ plan c' = g ∧
      calls c' = calls c ∧ saved_steps c' = saved_steps c ∧
      MissionState.status (mission c')
      = (if is_complete g then MissionState.COMPLETED
         else MissionState.status (mission c))
  | first :: others =>
      step_id = Some (task_id first) ∧
      (∃ task, get_task g (task_id first) = Some task ∧
               is_ready g task = true ∧
               get_task (plan c') (task_id first)
               = Some (set_status (if success then COMPLETED else FAILED)
                         task)) ∧
      (∀ task, task ∈ others →
         get_task (plan c') (task_id task) = Some task ∧
         status task = READY) ∧
      MissionState.status (mission c')
      = (if success then MissionState.status (mission c)
         else MissionState.FAILED) ∧
      (success = false → MissionState.error (mission c') ≠ None) ∧
      MissionState.completed_steps (mission c')
      = (MissionState.completed_steps (mission c)
         + (if success then 1 else 0))%Z
  end.
Proof.
  intros Hwf g.
  pose proof (step_wf env now c Hwf) as Hwf'.
  pose proof (step_keys env now c) as Hk.
  assert (∀ id task, get_task g id = Some task → is_ready g task = false →
            get_task (plan (fst (execute_next_step env now c))) id
            = Some task) as Hfr.
  { intros id task Hg Hr. pose proof (step_frame env now c id task Hwf Hg Hr).
    destruct (execute_next_step env now c). simpl. tauto. }
  rewrite TaskGraphFacts.get_ready_tasks_eq. cbn [snd].
  destruct (List.filter (is_ready g) g) as [|first rest] eqn:E.
  - pose proof (step_idle env now c E) as H.
    destruct (execute_next_step env now c) as [c' [success step_id]].
    simpl in *. destruct H as ([= -> ->] & H2 & H3 & _ & _ & H6 & H7).
    split_and!; done.
  - pose proof (step_busy env now c first rest E) as H.
    destruct (execute_next_step env now c) as [c' [success step_id]].
    destruct (execute_task _ _ _) as [calls' [success' result]].
    simpl in Hwf', Hk, Hfr.
    destruct H as ([= -> ->] & H2 & H3 & H4 & H5 & _).
    cbn [map]. split; [done|]. split; [done|]. split; [done|].
    pose proof (ready_head g first rest E) as (Hin & Hr & Hp).
    assert (NoDup (map task_id (first :: rest))) as Hnd.
    { rewrite <- E. eapply sublist_NoDup; [exact Hwf|].
      apply fmap_sublist, filter_sublist_of. }
    split_and!; try done.
    + exists first. cbn [task_id set_status].
      split; [by apply wf_get_task|]. split; [done|].
      rewrite H2, TaskGraphMore.get_task_assign_status.
      rewrite decide_True by done.
      rewrite get_task_promote, (wf_get_task _ _ Hwf Hin). simpl.
      rewrite promote_ready by done. by destruct success'.
    + intros task (y & -> & Hy)%list_elem_of_fmap. split; [|done].
      assert (y ∈ g ∧ is_ready g y = true) as [Hyg Hyr].
      { assert (In y (List.filter (is_ready g) g)) as Hi.
        { rewrite E. right. by apply list_elem_of_In. }
        apply filter_In in Hi as [Hi ?]. split; [by apply list_elem_of_In|done]. }
      rewrite H2, TaskGraphMore.get_task_assign_status.
      destruct (decide (task_id (set_status READY y) = task_id first)) as [Ee|_].
      * exfalso. simpl in Ee, Hnd. apply NoDup_cons in Hnd as [Hnd _].
        apply Hnd. rewrite <- Ee. apply list_elem_of_fmap. by exists y.
      * simpl. rewrite get_task_promote, (wf_get_task _ _ Hwf Hyg). simpl.
        by rewrite promote_ready.
    + intros ->. by rewrite H5.
Qed.

(** X17: one call of [execute_next_step] on a plan with unique ids.  When no
    task is eligible nothing is executed, [(False, None)] is returned, and
    the mission becomes COMPLETED exactly if every task is completed or
    skipped.  Otherwise the first eligible task in insertion order is
    executed and its id is returned; afterwards this task is COMPLETED or
    FAILED as the step succeeded or not, every other eligible task has
    been moved to READY, and every other task and the set of ids are as
    before; a failed step sets the mission to FAILED with the error
    message, a successful one counts one more completed step. *)
Theorem execute_next_step_spec (env : Collaborators) (now : Z) (c : t) :
  wf (plan c) →
  let g := plan c in
  let '(c', (success, step_id)) := execute_next_step env now c in
  wf (plan c') ∧
  keys (plan c') = keys g ∧
  (∀ id task, get_task g id = Some task → is_ready g task = false →
     get_task (plan c') id = Some task) ∧
  match snd (get_ready_tasks g) with
  | [] =>
      success = false ∧ step_id = None ∧ plan c' = g ∧
      calls c' = calls c ∧ saved_steps c' = saved_steps c ∧
      MissionState.status (mission c')
      = (if is_complete g then MissionState.COMPLETED
         else MissionState.status (mission c))
  | first :: others =>
      step_id = Some (task_id first) ∧
      (∃ task, get_task g (task_id first) = Some task ∧
               is_ready g task = true ∧
               get_task (plan c') (task_id first)
               = Some (set_status (if success then COMPLETED else FAILED)
                         task)) ∧
      (∀ task, task ∈ others →
         get_task (plan c') (task_id task) = Some task ∧
         status task = READY) ∧
      MissionState.status (mission c')
      = (if success then MissionState.status (mission c)
         else MissionState.FAILED) ∧
      (success = false → MissionState.error (mission c') ≠ None) ∧
      MissionState.completed_steps (mission c')
      = (MissionState.completed_steps (mission c)
         + (if success then 1 else 0))%Z
  end.
Proof. exact (step_effect env now c). Qed.


Lemma execute_next_step_spec_witness :
  wf fork_plan ∧
  snd (execute_next_step obliging 7%Z (controller_for "m" "" fork_plan))
  = (true, Some "A").
Proof.
  assert (wf fork_plan) as Hwf
    by (apply (bool_decide_unpack _); vm_compute; reflexivity).
  split; [exact Hwf|].
  pose proof (execute_next_step_spec obliging 7%Z
                (controller_for "m" "" fork_plan) Hwf) as H.
  cbv zeta in H.
  destruct (execute_next_step obliging 7%Z (controller_for "m" "" fork_plan))
    as [c' [success step_id]] eqn:E.
  destruct H as (_ & _ & _ & H). vm_compute in H.
  destruct H as (-> & _). f_equal.
  apply (f_equal (fun r => fst (snd r))) in E. vm_compute in E. by rewrite <- E.
Defined.

(** *** Tasks that are left behind *)

Lemma dead_end_not_complete g id task :
  get_task g id = Some task → dead_end (status task) → is_complete g = false.
Proof.
  intros Hg Hs. apply TaskGraphMore.get_task_elem in Hg as [Hin _].
  apply not_true_is_false. intros Hc. unfold is_complete in Hc.
  rewrite forallb_forall in Hc. apply list_elem_of_In, Hc in Hin.
  apply orb_true_iff in Hin.
  destruct Hin as [H|H]; apply bool_decide_eq_true in H;
    destruct Hs as [|[|]]; congruence.
Qed.

Lemma dead_end_step env now c id task :
  wf (plan c) →
  get_task (plan c) id = Some task →
  dead_end (status task) →
  let '(c', out) := execute_next_step env now c in
  get_task (plan c') id = Some task ∧
  snd out ≠ Some id ∧
  (MissionState.status (mission c') = MissionState.COMPLETED →
   MissionState.status (mission c) = MissionState.COMPLETED) ∧
  (MissionState.status (mission c) = MissionState.FAILED →
   MissionState.status (mission c') = MissionState.FAILED).
Proof.
  intros Hwf Hg Hs.
  assert (is_ready (plan c) task = false) as Hr.
  { apply not_pending_not_ready. destruct Hs as [|[|]]; congruence. }
  pose proof (step_frame env now c id task Hwf Hg Hr) as Hf.
  pose proof (dead_end_not_complete _ _ _ Hg Hs) as Hc.
  destruct (List.filter (is_ready (plan c)) (plan c)) as [|first rest] eqn:E.
  - pose proof (step_idle env now c E) as H.
    destruct (execute_next_step env now c) as [c' out].
    destruct Hf as [Hf1 Hf2]. destruct H as (_ & _ & H3 & _).
    rewrite Hc in H3. rewrite H3. done.
  - pose proof (step_busy env now c first rest E) as H.
    destruct (execute_next_step env now c) as [c' out].
    destruct (execute_task _ _ _) as [calls' [success result]].
    destruct Hf as [Hf1 Hf2]. destruct H as (_ & _ & H3 & _).
    rewrite H3. destruct success; done.
Qed.

Lemma dead_end_run worlds :
  ∀ c id task,
    wf (plan c) →
    get_task (plan c) id = Some task →
    dead_end (status task) →
    let '(c', outs) := run_steps worlds c in
    get_task (plan c') id = Some task ∧
    Forall (fun out => snd out ≠ Some id) outs ∧
    is_complete (plan c') = false ∧
    (MissionState.status (mission c') = MissionState.COMPLETED →
     MissionState.status (mission c) = MissionState.COMPLETED) ∧
    (MissionState.status (mission c) = MissionState.FAILED →
     MissionState.status (mission c') = MissionState.FAILED).
Proof.
  induction worlds as [|[env now] worlds IH]; intros c id task Hwf Hg Hs.
  - simpl. split_and!; try done. by apply (dead_end_not_complete _ id task).
  - simpl. pose proof (dead_end_step env now c id task Hwf Hg Hs) as H1.
    pose proof (step_wf env now c Hwf) as Hwf1.
    destruct (execute_next_step env now c) as [c1 out]. simpl in Hwf1.
    destruct H1 as (G1 & O1 & M1 & F1).
    specialize (IH c1 id task Hwf1 G1 Hs).
    destruct (run_steps worlds c1) as [c2 outs].
    destruct IH as (G2 & O2 & C2 & M2 & F2).
    split_and!; try done; [by constructor|tauto|tauto].
Qed.

(** X18: [execute_next_step] executes only the first of the tasks that
    [get_ready_tasks] hands out, and the others are never handed out
    again.  On a plan with unique ids, when a call of [get_ready_tasks]
    would return two or more tasks, then after any number of steps (at
    least one) the second of them is still READY, no step has returned its
    id, the plan is not complete and the mission has not been set to
    COMPLETED. *)
Theorem ready_siblings_stranded (c : t) (first second : TaskNode)
    (rest : list TaskNode) (world : World) (worlds : list World) :
  wf (plan c) →
  snd (get_ready_tasks (plan c)) = first :: second :: rest →
  let '(c', outs) := run_steps (world :: worlds) c in
  get_task (plan c') (task_id second) = Some second ∧
  status second = READY ∧
  Forall (fun out => snd out ≠ Some (task_id second)) outs ∧
  is_complete (plan c') = false ∧
  (MissionState.status (mission c') = MissionState.COMPLETED →
   MissionState.status (mission c) = MissionState.COMPLETED).
Proof.
  intros Hwf Hready. destruct world as [env now]. cbn [run_steps].
  pose proof (step_effect env now c Hwf) as H. cbv zeta in H.
  pose proof (step_wf env now c Hwf) as Hwf1.
  destruct (execute_next_step env now c) as [c1 [success step_id]].
  simpl in Hwf1. rewrite Hready in H.
  destruct H as (_ & _ & _ & -> & _ & Hothers & Hm & _).
  destruct (Hothers second) as [Hg Hs]; [apply list_elem_of_here|].
  assert (dead_end (status second)) as Hd by (by left).
  pose proof (dead_end_run worlds c1 (task_id second) second Hwf1 Hg Hd) as R.
  destruct (run_steps worlds c1) as [c2 outs].
  destruct R as (G2 & O2 & C2 & M2 & _).
  split_and!; try done.
  - constructor; [|done]. simpl. intros [= E].
    assert (NoDup (map task_id (first :: second :: rest))) as Hnd.
    { rewrite <- Hready, TaskGraphFacts.get_ready_tasks_eq. cbn [snd].
      rewrite map_map. cbn [task_id set_status].
      eapply sublist_NoDup; [exact Hwf|].
      apply fmap_sublist, filter_sublist_of. }
    simpl in Hnd. apply NoDup_cons in Hnd as [Hnd _]. apply Hnd.
    rewrite E. apply list_elem_of_here.
  - intros Hc. apply M2 in Hc. rewrite Hm in Hc. by destruct success.
Qed.

Lemma ready_siblings_stranded_witness :
  let c := controller_for "m" ""
             (mark_completed (fst (get_ready_tasks fork_plan)) "A") in
  wf (plan c) ∧
  is_complete
    (plan (fst (run_steps [(obliging, 1%Z); (obliging, 2%Z); (obliging, 3%Z)]
                  c))) = false.
Proof.
  intros c.
  assert (wf (plan c)) as Hwf
    by (apply (bool_decide_unpack _); vm_compute; reflexivity).
  split; [exact Hwf|].
  pose proof (ready_siblings_stranded c
                (node "B" "frontend" ["A"] READY)
                (node "C" "backend" ["A"] READY) []
                (obliging, 1%Z) [(obliging, 2%Z); (obliging, 3%Z)]
                Hwf eq_refl) as H.
  destruct (run_steps _ c) as [c' outs]. simpl. tauto.
Defined.

(** X19: a failed step is final.  On a plan with unique ids, when
    [execute_next_step] returns [(False, id)], the task [id] is FAILED, the
    mission is FAILED and carries the error; whatever steps are made
    afterwards, the task stays FAILED and is not executed again, and the
    mission stays FAILED and is never COMPLETED. *)
Theorem failed_step_is_final (env : Collaborators) (now : Z) (c : t)
    (id : string) (worlds : list World) :
  wf (plan c) →
  snd (execute_next_step env now c) = (false, Some id) →
  let c1 := fst (execute_next_step env now c) in
  let '(c', outs) := run_steps worlds c1 in
  has_status (plan c1) id FAILED ∧
  MissionState.status (mission c1) = MissionState.FAILED ∧
  MissionState.error (mission c1) ≠ None ∧
  has_status (plan c') id FAILED ∧
  Forall (fun out => snd out ≠ Some id) outs ∧
  MissionState.status (mission c') = MissionState.FAILED ∧
  is_complete (plan c') = false.
Proof.
  intros Hwf Hout c1.
  pose proof (step_effect env now c Hwf) as H. cbv zeta in H.
  pose proof (step_wf env now c Hwf) as Hwf1. fold c1 in Hwf1.
  subst c1.
  destruct (execute_next_step env now c) as [c1 [success step_id]].
  simpl in Hout, Hwf1 |- *. injection Hout as -> ->.
  destruct H as (_ & _ & _ & H).
  destruct (snd (get_ready_tasks (plan c))) as [|first others];
    [by destruct H as (_ & ? & _)|].
  destruct H as ([= ->] & (task & _ & _ & Hg) & _ & Hm & He & _).
  assert (dead_end (status (set_status FAILED task))) as Hd
    by (right; by right).
  pose proof (dead_end_run worlds c1 _ _ Hwf1 Hg Hd) as R.
  destruct (run_steps worlds c1) as [c2 outs].
  destruct R as (G2 & O2 & C2 & _ & F2).
  split_and!; try done.
  - by exists (set_status FAILED task).
  - by apply He.
  - by exists (set_status FAILED task).
  - by apply F2.
Qed.

Lemma failed_step_is_final_witness :
  let c := controller_for "m" "" fork_plan in
  wf (plan c) ∧
  MissionState.status
    (mission (fst (run_steps [(obliging, 2%Z); (obliging, 3%Z)]
                     (fst (execute_next_step broken 1%Z c)))))
  = MissionState.FAILED.
Proof.
  intros c.
  assert (wf (plan c)) as Hwf
    by (apply (bool_decide_unpack _); vm_compute; reflexivity).
  split; [exact Hwf|].
  pose proof (failed_step_is_final broken 1%Z c "A"
                [(obliging, 2%Z); (obliging, 3%Z)] Hwf eq_refl) as H.
  cbv zeta in H. destruct (run_steps _ _) as [c' outs]. simpl. tauto.
Defined.

(** *** The loops of the callers *)

Lemma count_pending_promote g (l : list TaskNode) :
  count_pending (map (promote g) l) + length (List.filter (is_ready g) l)
  = count_pending l.
Proof.
  unfold count_pending. induction l as [|x l IH]; cbn [map List.filter]; [done|].
  destruct (is_ready g x) eqn:E.
  - rewrite (promote_ready _ _ E).
    apply TaskGraphFacts.is_ready_pending in E.
    rewrite (bool_decide_eq_true_2 _ E). simpl. lia.
  - rewrite (promote_not_ready _ _ E).
    destruct (bool_decide (status x = PENDING)); simpl; lia.
Qed.

Lemma count_pending_assign s g id :
  s ≠ PENDING → count_pending (assign_status s g id) ≤ count_pending g.
Proof.
  intros Hs. unfold count_pending. induction g as [|x g IH]; simpl; [done|].
  destruct (decide (task_id x = id)); simpl.
  - rewrite (bool_decide_eq_false_2 _ Hs).
    destruct (bool_decide (status x = PENDING)); simpl; lia.
  - destruct (bool_decide (status x = PENDING)); simpl; lia.
Qed.

Lemma step_pending env now c :
  let '(c', out) := execute_next_step env now c in
  count_pending (plan c') ≤ count_pending (plan c) ∧
  (snd out ≠ None → count_pending (plan c') < count_pending (plan c)).
Proof.
  destruct (List.filter (is_ready (plan c)) (plan c)) as [|first rest] eqn:E.
  - pose proof (step_idle env now c E) as H.
    destruct (execute_next_step env now c) as [c' out].
    destruct H as (-> & -> & _). done.
  - pose proof (step_busy env now c first rest E) as H.
    destruct (execute_next_step env now c) as [c' out].
    destruct (execute_task _ _ _) as [calls' [success result]].
    destruct H as (_ & -> & _).
    pose proof (count_pending_promote (plan c) (plan c)) as Hp.
    rewrite E in Hp. simpl in Hp.
    assert (count_pending
              (assign_status (if success then COMPLETED else FAILED)
                 (map (promote (plan c)) (plan c)) (task_id first))
            ≤ count_pending (map (promote (plan c)) (plan c))) as Ha
      by (apply count_pending_assign; by destruct success).
    lia.
Qed.

Lemma serve_loop_bound world :
  ∀ fuel i c,
    count_pending (plan c) < fuel →
    ∃ c' k earlier final,
      serve_loop fuel world i c = Some (c', i + S k) ∧
      k ≤ count_pending (plan c) ∧
      run_steps (map world (seq i (S k))) c = (c', earlier ++ [final]) ∧
      length earlier = k ∧
      Forall (fun out => falsy (snd out) = false) earlier ∧
      falsy (snd final) = true.
Proof.
  induction fuel as [|fuel IH]; intros i c Hf; [lia|].
  cbn [serve_loop seq map run_steps]. destruct (world i) as [env now].
  pose proof (step_pending env now c) as Hp.
  destruct (execute_next_step env now c) as [c1 [success step_id]].
  destruct Hp as [Hle Hlt]. simpl in Hlt.
  destruct (falsy step_id) eqn:Ef.
  - exists c1, 0, [], (success, step_id). simpl.
    replace (i + 1) with (S i) by lia. split_and!; try done. lia.
  - assert (step_id ≠ None) as Hn by (by destruct step_id).
    specialize (Hlt Hn).
    destruct (IH (S i) c1) as (c' & k & earlier & final & -> & Hk & Hr & Hl
                               & He & Hfin); [lia|].
    exists c', (S k), ((success, step_id) :: earlier), final.
    rewrite Hr. replace (i + S (S k)) with (S i + S k) by lia.
    split_and!; try done; [lia|simpl; lia|by constructor].
Qed.

(** X20: the [while True] loop of the server ends.  Every call of
    [execute_next_step] that returns a step id leaves fewer PENDING tasks
    than it found, so whatever the collaborators do, the loop makes at
    most one call more than the plan has PENDING tasks: the calls before
    the last return a step id, the last one does not, and the loop leaves
    the controller as these calls made it. *)
Theorem serve_loop_terminates (world : nat → World) (c : t) (extra : nat) :
  ∃ c' n earlier final,
    serve_loop (S (count_pending (plan c)) + extra) world 0 c = Some (c', n) ∧
    1 ≤ n ≤ S (count_pending (plan c)) ∧
    run_steps (map world (seq 0 n)) c = (c', earlier ++ [final]) ∧
    Forall (fun out => falsy (snd out) = false) earlier ∧
    falsy (snd final) = true.
Proof.
  destruct (serve_loop_bound world (S (count_pending (plan c)) + extra) 0 c)
    as (c' & k & earlier & final & Hs & Hk & Hr & _ & He & Hf); [lia|].
  exists c', (S k), earlier, final. split_and!; try done; lia.
Qed.

(** The loop of the command line makes at most [max_iterations] calls, and
    no call after a step that did not succeed. *)
Lemma run_loop_bound world :
  ∀ max_iterations i c,
    let '(c', n) := run_loop max_iterations world i c in
    n ≤ i + max_iterations ∧
    ∃ outs, run_steps (map world (seq i (n - i))) c = (c', outs) ∧
            Forall (fun out => fst out = true) (removelast outs).
Proof.
  induction max_iterations as [|m IH]; intros i c.
  - simpl. split; [lia|]. replace (i - i) with 0 by lia. by exists [].
  - cbn [run_loop]. destruct (world i) as [env now] eqn:Ew.
    destruct (execute_next_step env now c) as [c1 [success step_id]] eqn:Ex.
    assert (run_steps (map world (seq i 1)) c = (c1, [(success, step_id)]))
      as Hone by (simpl; by rewrite Ew, Ex).
    destruct (falsy step_id); [|destruct success].
    + split; [lia|]. replace (S i - i) with 1 by lia.
      exists [(success, step_id)]. split; [done|]. simpl. constructor.
    + specialize (IH (S i) c1).
      destruct (run_loop m world (S i) c1) as [c' n] eqn:El.
      destruct IH as [Hn (outs & Hr & Ho)].
      split; [lia|].
      destruct (decide (n = S i)) as [->|Hne].
      * replace (S i - S i) with 0 in Hr by lia. simpl in Hr.
        injection Hr as <- <-. replace (S i - i) with 1 by lia.
        exists [(true, step_id)]. split; [done|]. simpl. constructor.
      * assert (S i ≤ n) as Hle.
        { clear -El. revert El. destruct m; simpl.
          - intros [= _ <-]. lia.
          - destruct (world (S i)) as [e' n'].
            destruct (execute_next_step e' n' c1) as [c2 [s2 id2]].
            intros El.
            assert (∀ k j d r, run_loop k world j d = r → j ≤ snd r) as Hmono.
            { clear. induction k as [|k IHk]; intros j d r <-; simpl; [lia|].
              destruct (world j) as [e nw].
              destruct (execute_next_step e nw d) as [d1 [s1 id1]].
              destruct (falsy id1); [simpl; lia|].
              destruct s1; [|simpl; lia].
              specialize (IHk (S j) d1 _ eq_refl). lia. }
            destruct (falsy id2); [injection El as _ <-; lia|].
            destruct s2; [|injection El as _ <-; lia].
            apply Hmono in El. simpl in El. lia. }
        replace (n - i) with (S (n - S i)) by lia.
        cbn [seq map run_steps]. rewrite Ew, Ex, Hr.
        exists ((true, step_id) :: outs). split; [done|].
        destruct outs as [|o outs']; [simpl; constructor|].
        change (removelast ((true, step_id) :: o :: outs'))
          with ((true, step_id) :: removelast (o :: outs')).
        by constructor.
    + split; [lia|]. replace (S i - i) with 1 by lia.
      exists [(false, step_id)]. split; [done|]. simpl. constructor.
Qed.

(** The loop of the command line makes at most [max_iterations]
    calls of [execute_next_step] and none after a step that did not
    succeed: every call but the last one reported success. *)
Theorem run_loop_stops_at_failure (world : nat → World)
    (max_iterations : nat) (c : t) :
  let '(c', n) := run_loop max_iterations world 0 c in
  n ≤ max_iterations ∧
  ∃ outs, run_steps (map world (seq 0 n)) c = (c', outs) ∧
          Forall (fun out => fst out = true) (removelast outs).
Proof.
  pose proof (run_loop_bound world max_iterations 0 c) as H.
  destruct (run_loop max_iterations world 0 c) as [c' n].
  rewrite Nat.sub_0_r in H. exact H.
Qed.

(** *** Plans that cannot be completed *)

Lemma advance_eq g :
  advance g
  = match List.filter (is_ready g) g with
    | [] => g
    | task :: _ => assign_status COMPLETED (map (promote g) g) (task_id task)
    end.
Proof.
  unfold advance. rewrite TaskGraphFacts.get_ready_tasks_eq.
  destruct (List.filter (is_ready g) g) as [|task rest] eqn:E; cbn [map].
  - by apply promote_idle.
  - cbn [task_id set_status].
    by rewrite TaskGraphMore.mark_completed_assign,
      TaskGraphMore.assign_status_twice.
Qed.

Lemma ready_filter g :
  snd (get_ready_tasks g) = map (set_status READY) (List.filter (is_ready g) g).
Proof. by rewrite TaskGraphFacts.get_ready_tasks_eq. Qed.

Lemma pending_not_complete g task :
  task ∈ g → status task = PENDING → is_complete g = false.
Proof.
  intros Hin Hs. apply not_true_is_false. intros Hc. unfold is_complete in Hc.
  rewrite forallb_forall in Hc. apply list_elem_of_In, Hc in Hin.
  apply orb_true_iff in Hin.
  destruct Hin as [H|H]; apply bool_decide_eq_true in H; congruence.
Qed.

Lemma ready_not_complete g task rest :
  snd (get_ready_tasks g) = task :: rest → is_complete g = false.
Proof.
  rewrite ready_filter.
  destruct (List.filter (is_ready g) g) as [|y ys] eqn:E; [done|]. intros _.
  apply ready_head in E as (Hin & _ & Hp).
  by apply (pending_not_complete g y).
Qed.

Lemma hopeless_not_complete g : hopeless g → is_complete g = false.
Proof.
  induction 1 as [g id task Hg Hd|g first second rest Hr|g task Hr _ _].
  - by apply (dead_end_not_complete g id task).
  - by apply (ready_not_complete g first (second :: rest)).
  - by apply (ready_not_complete g task []).
Qed.

Lemma hopeless_step env now c :
  wf (plan c) → hopeless (plan c) →
  let '(c', out) := execute_next_step env now c in
  hopeless (plan c') ∧
  (MissionState.status (mission c') = MissionState.COMPLETED →
   MissionState.status (mission c) = MissionState.COMPLETED).
Proof.
  intros Hwf Hh.
  pose proof (hopeless_not_complete _ Hh) as Hc.
  pose proof (step_effect env now c Hwf) as S. cbv zeta in S.
  pose proof (advance_eq (plan c)) as Ha.
  destruct (List.filter (is_ready (plan c)) (plan c)) as [|y ys] eqn:E.
  - pose proof (step_idle env now c E) as I.
    destruct (execute_next_step env now c) as [c' [success step_id]].
    destruct I as (_ & -> & -> & _). rewrite Hc. done.
  - pose proof (step_busy env now c y ys E) as B.
    destruct (execute_next_step env now c) as [c' [success step_id]].
    destruct (execute_task _ _ _) as [calls' [success' result]].
    destruct B as ([= -> _] & Hp & Hm & _).
    split; [|rewrite Hm; by destruct success'].
    destruct S as (_ & _ & _ & S). rewrite ready_filter, E in S. cbn [map] in S.
    destruct S as (_ & (task & _ & _ & Hfirst) & Hothers & _).
    destruct success'.
    + inversion Hh as [g id t0 Hg Hd|g first second rest Hr|g t0 Hr Hnext];
        subst.
      * assert (is_ready (plan c) t0 = false) as Hnr.
        { apply not_pending_not_ready. destruct Hd as [|[|]]; congruence. }
        pose proof (step_frame env now c id t0 Hwf Hg Hnr) as F.
        apply (hopeless_dead_end _ id t0); [|done].
        rewrite Hp, TaskGraphMore.get_task_assign_status.
        destruct (decide (id = task_id y)) as [->|_].
        -- apply ready_head in E as (Hin & Hr & _).
           rewrite (wf_get_task _ _ Hwf Hin) in Hg. injection Hg as ->.
           congruence.
        -- rewrite get_task_promote, Hg. simpl. by rewrite promote_not_ready.
      * rewrite ready_filter, E in Hr. cbn [map] in Hr.
        destruct ys as [|y2 ys2]; [done|]. cbn [map] in Hr, Hothers.
        destruct (Hothers (set_status READY y2)) as [Hg2 _];
          [apply list_elem_of_here|].
        apply (hopeless_dead_end _ _ _ Hg2). by left.
      * rewrite Ha in Hnext. by rewrite Hp.
    + apply (hopeless_dead_end _ _ _ Hfirst). right. by right.
Qed.

Lemma hopeless_run worlds :
  ∀ c, wf (plan c) → hopeless (plan c) →
       let '(c', outs) := run_steps worlds c in
       hopeless (plan c') ∧
       (MissionState.status (mission c') = MissionState.COMPLETED →
        MissionState.status (mission c) = MissionState.COMPLETED).
Proof.
  induction worlds as [|[env now] worlds IH]; intros c Hwf Hh; simpl; [done|].
  pose proof (hopeless_step env now c Hwf Hh) as H1.
  pose proof (step_wf env now c Hwf) as Hwf1.
  destruct (execute_next_step env now c) as [c1 out]. simpl in Hwf1.
  destruct H1 as [Hh1 Hm1]. specialize (IH c1 Hwf1 Hh1).
  destruct (run_steps worlds c1) as [c2 outs]. destruct IH as [Hh2 Hm2].
  split; [done|tauto].
Qed.

(** *** Steps that succeed *)

Lemma execute_task_reliable env calls task :
  reliable env → fst (snd (execute_task env calls task)) = true.
Proof.
  intros [Hh Ht]. unfold execute_task.
  destruct (bool_decide (task_type task = "testing")).
  - pose proof (MissionControllerFacts.execute_testing_never_reports_failure
                  env calls) as H.
    destruct (execute_testing env calls) as [calls' [[success msg]|e]];
      simpl in *; [done|].
    destruct (Ht (test_runs calls)) as [results Hr]. congruence.
  - destruct (bool_decide (task_type task ∈ other_handled_types)); [|done].
    destruct (Hh task) as [msg ->]. done.
Qed.

Lemma reliable_step env now c task rest :
  reliable env →
  snd (get_ready_tasks (plan c)) = task :: rest →
  let '(c', out) := execute_next_step env now c in
  out = (true, Some (task_id task)) ∧
  plan c' = advance (plan c) ∧
  MissionState.status (mission c') = MissionState.status (mission c) ∧
  MissionState.completed_steps (mission c')
  = (MissionState.completed_steps (mission c) + 1)%Z ∧
  MissionState.error (mission c') = MissionState.error (mission c).
Proof.
  intros Hr Hready. rewrite ready_filter in Hready.
  pose proof (advance_eq (plan c)) as Ha.
  destruct (List.filter (is_ready (plan c)) (plan c)) as [|y ys] eqn:E;
    [done|].
  cbn [map] in Hready. injection Hready as <- _.
  pose proof (step_busy env now c y ys E) as B.
  pose proof (execute_task_reliable env (calls c) (set_status READY y) Hr)
    as Hs.
  destruct (execute_next_step env now c) as [c' out].
  destruct (execute_task _ _ _) as [calls' [success result]].
  simpl in Hs. subst success.
  destruct B as (-> & -> & -> & -> & -> & _). by rewrite Ha.
Qed.

Lemma serve_loop_reliable world :
  (∀ i, reliable (fst (world i))) →
  ∀ k fuel i c,
    lively k (plan c) = true →
    ∃ c', serve_loop (k + fuel) world i c = serve_loop fuel world (k + i) c' ∧
          plan c' = Nat.iter k advance (plan c) ∧
          MissionState.status (mission c') = MissionState.status (mission c) ∧
          MissionState.completed_steps (mission c')
          = (MissionState.completed_steps (mission c) + Z.of_nat k)%Z ∧
          MissionState.error (mission c') = MissionState.error (mission c).
Proof.
  intros Hw. induction k as [|k IH]; intros fuel i c Hl.
  - exists c. simpl. split_and!; try done. lia.
  - cbn [lively] in Hl.
    destruct (snd (get_ready_tasks (plan c))) as [|task rest] eqn:Er; [done|].
    apply andb_true_iff in Hl as [Hid Hl]. apply negb_true_iff in Hid.
    cbn [Nat.add serve_loop].
    pose proof (reliable_step (fst (world i)) (snd (world i)) c task rest
                  (Hw i) Er) as R.
    destruct (world i) as [env now]. simpl in R.
    destruct (execute_next_step env now c) as [c1 [success step_id]].
    destruct R as ([= -> ->] & Hp & Hm & Hn & He).
    cbn [falsy]. rewrite Hid.
    rewrite <- Hp in Hl.
    destruct (IH fuel (S i) c1 Hl) as (c' & -> & Hp' & Hm' & Hn' & He').
    exists c'. replace (k + S i) with (S k + i) by lia.
    split; [done|]. split; [by rewrite Hp', Hp, Nat.iter_succ_r|].
    split; [congruence|]. split; [rewrite Hn', Hn; lia|congruence].
Qed.

End MissionControllerMore.

(** ** Testing steps *)

Module TestingFacts.

Import TaskGraph TestExecutor MissionController.

Lemma run_pytest_one host test_files :
  ∃ r, run_pytest host test_files = [r] ∧
       test_name r = "pytest suite" ∧
       duration_seconds r = 0%Q ∧
       (passed r = true → error r = None) ∧
       (passed r = false ↔
        ∃ returncode stdout stderr,
          subprocess_run host
            ([executable host; "-m"; "pytest"; "-v"] ++ test_files)
          = Py.Return (returncode, stdout, stderr) ∧
          returncode ≠ 0%Z ∧
          output r = stdout +:+ stderr ∧
          error r = Some stderr).
Proof.
  unfold run_pytest.
  assert (match test_files with
          | [] => [executable host; "-m"; "pytest"; "-v"]
          | _ :: _ => [executable host; "-m"; "pytest"; "-v"] ++ test_files
          end = [executable host; "-m"; "pytest"; "-v"] ++ test_files) as ->
    by (destruct test_files; [by rewrite app_nil_r|done]).
  destruct (subprocess_run host _) as [[[rc out] err]|[|msg]].
  - eexists. split; [done|]. cbn [test_name duration_seconds passed error
      output].
    destruct (Z.eqb_spec rc 0) as [->|Hne].
    + split_and!; try done. split; [done|]. intros (? & ? & ? & [= <- _ _] & ? & _).
      done.
    + split_and!; try done. split; [|done]. intros _. by exists rc, out, err.
  - eexists. split; [done|]. simpl. split_and!; try done.
    split; [done|]. intros (? & ? & ? & ? & _). done.
  - eexists. split; [done|]. simpl. split_and!; try done.
    split; [done|]. intros (? & ? & ? & ? & _). done.
Qed.

Lemma run_tests_effect (host : Host) (test_files : option (list string)) :
  match TestExecutor.run_tests host test_files with
  | Py.Raise e =>
      test_files = None ∧
      (glob host "test_*.py" = Py.Raise e ∨ glob host "*_test.py" = Py.Raise e)
  | Py.Return results =>
      ∃ r, results = [r] ∧
           test_name r = "pytest suite" ∧
           (passed r = true → error r = None) ∧
           (passed r = false ↔
            ∃ files returncode stdout stderr,
              subprocess_run host
                ([executable host; "-m"; "pytest"; "-v"] ++ files)
              = Py.Return (returncode, stdout, stderr) ∧
              returncode ≠ 0%Z ∧
              output r = stdout +:+ stderr ∧
              error r = Some stderr ∧
              match test_files with
              | Some given => files = given
              | None =>
                  ∃ found1 found2,
                    glob host "test_*.py" = Py.Return found1 ∧
                    glob host "*_test.py" = Py.Return found2 ∧
                    files = found1 ++ found2 ∧ files ≠ []
              end)
  end.
Proof.
  unfold TestExecutor.run_tests. destruct test_files as [given|].
  - destruct (run_pytest_one host given) as (r & -> & Hn & _ & Hp & Hf).
    exists r. split_and!; try done. rewrite Hf. split.
    + intros (rc & out & err & H1 & H2 & H3 & H4).
      by exists given, rc, out, err.
    + intros (files & rc & out & err & H1 & H2 & H3 & H4 & ->).
      by exists rc, out, err.
  - destruct (glob host "test_*.py") as [found1|e]; [|by split; [|left]].
    destruct (glob host "*_test.py") as [found2|e]; [|by split; [|right]].
    destruct (found1 ++ found2) as [|f fs] eqn:E.
    + eexists. split; [done|]. simpl. split_and!; try done.
      split; [done|].
      intros (files & rc & out & err & _ & _ & _ & _ & f1 & f2 & [= <-]
              & [= <-] & -> & Hne).
      done.
    + destruct (run_pytest_one host (f :: fs)) as (r & -> & Hn & _ & Hp & Hf).
      exists r. split_and!; try done. rewrite Hf. split.
      * intros (rc & out & err & H1 & H2 & H3 & H4).
        exists (f :: fs), rc, out, err. split_and!; try done.
        exists found1, found2. by rewrite E.
      * intros (files & rc & out & err & H1 & H2 & H3 & H4 & f1 & f2 & [= <-]
                & [= <-] & -> & _).
        rewrite E in H1. by exists rc, out, err.
Qed.

(** X25: [run_tests] never reports an exception of the test run.  It raises
    only what one of the two globs raises; otherwise it returns exactly one
    result, named "pytest suite".  That result says failed exactly when
    pytest ran to its end with a return code other than 0, and then
    carries the captured stderr as its error; when no test file is found,
    when the interpreter is missing, and when the run raises anything else
    derived from [Exception] (a timeout after 300 seconds for one), the
    result says passed and carries no error. *)
Theorem run_tests_spec (host : Host) (test_files : option (list string)) :
  match TestExecutor.run_tests host test_files with
  | Py.Raise e =>
      test_files = None ∧
      (glob host "test_*.py" = Py.Raise e ∨ glob host "*_test.py" = Py.Raise e)
  | Py.Return results =>
      ∃ r, results = [r] ∧
           test_name r = "pytest suite" ∧
           (passed r = true → error r = None) ∧
           (passed r = false ↔
            ∃ files returncode stdout stderr,
              subprocess_run host
                ([executable host; "-m"; "pytest"; "-v"] ++ files)
              = Py.Return (returncode, stdout, stderr) ∧
              returncode ≠ 0%Z ∧
              output r = stdout +:+ stderr ∧
              error r = Some stderr ∧
              match test_files with
              | Some given => files = given
              | None =>
                  ∃ found1 found2,
                    glob host "test_*.py" = Py.Return found1 ∧
                    glob host "*_test.py" = Py.Return found2 ∧
                    files = found1 ++ found2 ∧ files ≠ []
              end)
  end.
Proof. exact (run_tests_effect host test_files). Qed.


Example timeout_counts_as_passed :
  TestExecutor.run_tests
    (workspace (Py.Raise (OtherException "timed out after 300 seconds"))) None
  = Py.Return
      [ skipped "Test execution skipped: timed out after 300 seconds" ].
Proof. reflexivity. Qed.

Lemma execute_testing_messages env calls :
  match snd (execute_testing env calls) with
  | Py.Return (success, message) =>
      success = true ∧
      (message = "All tests passed" ∨
       message = "Tests skipped (no test files found)" ∨
       ∃ explanation,
         message = "Tests passed after auto-refactor: " +:+ explanation)
  | Py.Raise e => MissionController.run_tests env (test_runs calls) = Py.Raise e
  end.
Proof.
  unfold execute_testing, fall_through.
  destruct (MissionController.run_tests env (test_runs calls))
    as [results|e]; simpl; [|done].
  destruct (all_passed results); simpl; [by split; [|left]|].
  destruct results as [|r rs]; [by split; [|right; left]|]. cbv beta iota.
  destruct (List.filter _ (r :: rs)) as [|f fs]; simpl;
    [by split; [|right; left]|].
  destruct (refactor_on_error env _ _ _) as [res|e]; simpl;
    [|by split; [|right; left]].
  destruct (MissionController.run_tests env _) as [results'|e]; simpl;
    [|by split; [|right; left]].
  destruct (all_passed results'); simpl; [|by split; [|right; left]].
  split; [done|]. right. right. by eexists.
Qed.

Lemma execute_task_effect (env : Collaborators) (calls : Calls)
    (task : TaskNode) :
  let '(calls', (success, result)) := execute_task env calls task in
  test_runs calls ≤ test_runs calls' ≤ test_runs calls + 2 ∧
  length (refactor_calls calls') ≤ length (refactor_calls calls) + 1 ∧
  (task_type task ≠ "testing" → calls' = calls) ∧
  (task_type task ≠ "testing" → task_type task ∉ other_handled_types →
   success = true ∧ result = "Task " +:+ description task +:+ " completed") ∧
  (task_type task ∈ other_handled_types →
   (success, result)
   = match run_handler env task with
     | Py.Return outcome => outcome
     | Py.Raise e => (false, e)
     end) ∧
  (task_type task = "testing" →
   if success then
     result = "All tests passed" ∨
     result = "Tests skipped (no test files found)" ∨
     ∃ explanation,
       result = "Tests passed after auto-refactor: " +:+ explanation
   else MissionController.run_tests env (test_runs calls) = Py.Raise result).
Proof.
  unfold execute_task.
  destruct (bool_decide (task_type task = "testing")) eqn:Et.
  - apply bool_decide_eq_true in Et.
    pose proof (MissionControllerFacts.execute_testing_bounded env calls)
      as Hb.
    pose proof (execute_testing_messages env calls) as Hm.
    assert (test_runs calls ≤ test_runs (fst (execute_testing env calls)))
      as Hlow.
    { unfold execute_testing.
      destruct (MissionController.run_tests env (test_runs calls))
        as [results|e]; simpl; [|lia].
      destruct (all_passed results); simpl; [lia|].
      destruct results as [|r rs]; [simpl; lia|]. cbv beta iota.
      destruct (List.filter _ (r :: rs)) as [|f fs]; simpl; [lia|].
      destruct (refactor_on_error env _ _ _) as [res|e]; simpl; [|lia].
      destruct (MissionController.run_tests env _) as [results'|e]; simpl;
        [|lia].
      destruct (all_passed results'); simpl; lia. }
    destruct (execute_testing env calls) as [calls' [[success msg]|e]];
      simpl in *.
    + destruct Hm as [-> Hm]. split_and!; try done; try lia.
      intros Hin. rewrite Et in Hin. exfalso. revert Hin.
      apply (bool_decide_unpack _). vm_compute. reflexivity.
    + split_and!; try done; try lia.
      intros Hin. rewrite Et in Hin. exfalso. revert Hin.
      apply (bool_decide_unpack _). vm_compute. reflexivity.
  - apply bool_decide_eq_false in Et.
    destruct (bool_decide (task_type task ∈ other_handled_types)) eqn:Eh.
    + apply bool_decide_eq_true in Eh.
      destruct (run_handler env task) as [[success msg]|e]; simpl;
        split_and!; try done; lia.
    + apply bool_decide_eq_false in Eh. simpl.
      split_and!; try done; lia.
Qed.

(** X26: what [_execute_task] returns.  It never raises an [Exception]: a
    handler that raises makes the task fail with the text of the exception.
    A task whose type has no handler succeeds with "Task ... completed"
    and nothing is called.  A task of a type other than "testing" calls
    neither the tests nor the refactor engine.  A testing task runs the
    tests at most twice and the refactor engine at most once, and fails in
    one case only, when the first test run raises. *)
Theorem execute_task_spec (env : Collaborators) (calls : Calls)
    (task : TaskNode) :
  let '(calls', (success, result)) := execute_task env calls task in
  test_runs calls ≤ test_runs calls' ≤ test_runs calls + 2 ∧
  length (refactor_calls calls') ≤ length (refactor_calls calls) + 1 ∧
  (task_type task ≠ "testing" → calls' = calls) ∧
  (task_type task ≠ "testing" → task_type task ∉ other_handled_types →
   success = true ∧ result = "Task " +:+ description task +:+ " completed") ∧
  (task_type task ∈ other_handled_types →
   (success, result)
   = match run_handler env task with
     | Py.Return outcome => outcome
     | Py.Raise e => (false, e)
     end) ∧
  (task_type task = "testing" →
   if success then
     result = "All tests passed" ∨
     result = "Tests skipped (no test files found)" ∨
     ∃ explanation,
       result = "Tests passed after auto-refactor: " +:+ explanation
   else MissionController.run_tests env (test_runs calls) = Py.Raise result).
Proof. exact (execute_task_effect env calls task). Qed.


(** X27: with the test executor of the repository, a testing step cannot
    fail.  As long as the two globs return, [_execute_task] reports success
    for a task of type "testing" whatever the test run does: failed tests,
    before and after the refactoring, a timeout and a missing interpreter
    all end in success. *)
Theorem testing_step_cannot_fail (hosts : nat → Host) (env : Collaborators)
    (calls : Calls) (task : TaskNode) :
  task_type task = "testing" →
  (∀ n pattern, ∃ found, glob (hosts n) pattern = Py.Return found) →
  fst (snd (execute_task (with_test_executor hosts env) calls task)) = true.
Proof.
  intros Ht Hglob.
  pose proof (execute_task_effect (with_test_executor hosts env) calls task)
    as H.
  destruct (execute_task _ calls task) as [calls' [success result]].
  simpl. destruct H as (_ & _ & _ & _ & _ & H). specialize (H Ht).
  destruct success; [done|]. exfalso.
  change (TestExecutor.run_tests (hosts (test_runs calls)) None
          = Py.Raise result) in H.
  pose proof (run_tests_effect (hosts (test_runs calls)) None) as R.
  rewrite H in R. destruct R as [_ [R|R]].
  - destruct (Hglob (test_runs calls) "test_*.py") as [found E]. congruence.
  - destruct (Hglob (test_runs calls) "*_test.py") as [found E]. congruence.
Qed.

Lemma testing_step_cannot_fail_witness :
  task_type (node "5" "testing" ["4"] READY) = "testing" ∧
  fst (snd (execute_task
              (with_test_executor
                 (fun _ => workspace (Py.Return (1%Z, "1 failed", "E assert")))
                 stubborn)
              {| test_runs := 0; refactor_calls := [] |}
              (node "5" "testing" ["4"] READY))) = true.
Proof.
  split; [reflexivity|].
  apply testing_step_cannot_fail; [reflexivity|].
  intros n pattern. eexists. reflexivity.
Defined.

End TestingFacts.

(** ** The allowlist *)

Module AllowlistFacts.

Import PyText Allowlist.

Lemma lstrip_blank lead rest :
  blank lead = true → lstrip (lead +:+ rest) = lstrip rest.
Proof.
  induction lead as [|c lead IH]; simpl; [done|].
  intros [Hc Hl]%andb_true_iff. rewrite Hc. by apply IH.
Qed.

Lemma lstrip_empty_blank s : lstrip s = "" ↔ blank s = true.
Proof.
  induction s as [|c s IH]; simpl; [done|].
  destruct (Regex.is_space c); simpl; [exact IH|]. split; done.
Qed.

Lemma lstrip_solid first tail :
  solid first = true → first ≠ "" →
  lstrip (first +:+ tail) = first +:+ tail.
Proof.
  destruct first as [|c first]; [done|]. simpl.
  intros [Hc _]%andb_true_iff _. apply negb_true_iff in Hc. by rewrite Hc.
Qed.

Lemma word_solid first tail :
  solid first = true →
  match tail with
  | EmptyString => True
  | String c _ => Regex.is_space c = true
  end →
  word (first +:+ tail) = first.
Proof.
  intros Hs Ht. induction first as [|c first IH]; simpl.
  - destruct tail as [|c tail]; [done|]. simpl. by rewrite Ht.
  - simpl in Hs. apply andb_true_iff in Hs as [Hc Hs].
    apply negb_true_iff in Hc. rewrite Hc. f_equal. by apply IH.
Qed.

(** X28: [is_command_allowed] looks at the first word of the command only.
    On a command that is empty or all whitespace it raises [IndexError].
    Otherwise the answer is whether the first word is an allowed command:
    whitespace before it and everything after it, the arguments, play no
    part. *)
Theorem is_command_allowed_spec (a : t) (command : string) :
  (is_command_allowed a command = Py.Raise list_index_out_of_range ↔
   blank command = true) ∧
  (∀ lead first tail,
     command = lead +:+ first +:+ tail →
     blank lead = true →
     solid first = true → first ≠ "" →
     match tail with
     | EmptyString => True
     | String c _ => Regex.is_space c = true
     end →
     is_command_allowed a command
     = Py.Return (bool_decide (first ∈ allowed_commands a))).
Proof.
  unfold is_command_allowed, first_word. split.
  - pose proof (lstrip_empty_blank command) as H.
    destruct (lstrip command) as [|c rest].
    + split; [intros _; by apply H|done].
    + split; [done|]. intros Hb. apply H in Hb. done.
  - intros lead first tail -> Hl Hs Hne Ht.
    rewrite lstrip_blank, lstrip_solid by done.
    destruct (first +:+ tail) as [|c rest] eqn:E.
    + destruct first; [done|discriminate E].
    + rewrite <- E. by rewrite word_solid.
Qed.

Example arguments_are_not_checked :
  is_command_allowed (add_command init "rm") "  rm -rf /" = Py.Return true ∧
  is_command_allowed (add_command init "rm") "rmdir x" = Py.Return false ∧
  is_command_allowed (add_command init "rm") "   "
  = Py.Raise list_index_out_of_range.
Proof. split_and!; vm_compute; reflexivity. Qed.

Lemma relative_to_refl (path : ResolvedPath) : relative_to path path = true.
Proof.
  induction path as [|x path IH]; simpl; [done|].
  by rewrite bool_decide_eq_true_2.
Qed.

Lemma relative_to_app (allowed below : ResolvedPath) :
  relative_to (allowed ++ below) allowed = true.
Proof.
  induction allowed as [|x allowed IH]; simpl; [done|].
  by rewrite bool_decide_eq_true_2.
Qed.

Lemma is_path_allowed_iff {Path} (resolve : Path → ResolvedPath) a path :
  is_path_allowed resolve a path = true ↔
  ∃ allowed, allowed ∈ allowed_paths a ∧
             relative_to (resolve path) allowed = true.
Proof.
  unfold is_path_allowed. rewrite existsb_exists. split.
  - intros (x & Hin & Hr). exists x. split; [|done].
    by apply elem_of_elements, list_elem_of_In.
  - intros (x & Hin & Hr). exists x. split; [|done].
    by apply list_elem_of_In, elem_of_elements.
Qed.

(** The allowlist starts with the safe modules and nothing else, and
    only grows.  A new allowlist allows no path and no command.  A module,
    path or command that was added is allowed from then on, and with a
    path everything below it; paths are compared part by part, so a
    directory whose name merely begins like an allowed one is not allowed
    by it.  No addition revokes anything or touches the other two
    sets. *)
Theorem allowlist_grows {Path : Type} (resolve : Path → ResolvedPath)
    (a : t) (module command : string) (path : Path) :
  (∀ m, is_module_allowed init m = bool_decide (m ∈ SAFE_MODULES)) ∧
  (∀ q, is_path_allowed resolve init q = false) ∧
  (∀ c, is_command_allowed init c ≠ Py.Return true) ∧
  (∀ m, is_module_allowed (add_module a module) m
        = is_module_allowed a m || bool_decide (m = module)) ∧
  (∀ q, is_path_allowed resolve (add_path resolve a path) q
        = is_path_allowed resolve a q
          || relative_to (resolve q) (resolve path)) ∧
  (∀ q below, resolve q = resolve path ++ below →
     is_path_allowed resolve (add_path resolve a path) q = true) ∧
  (∀ c, is_command_allowed (add_command a command) c
        = match is_command_allowed a c with
          | Py.Return b =>
              Py.Return (b || bool_decide (first_word c = Some command))
          | Py.Raise e => Py.Raise e
          end) ∧
  allowed_paths (add_module a module) = allowed_paths a ∧
  allowed_commands (add_module a module) = allowed_commands a ∧
  allowed_modules (add_command a command) = allowed_modules a ∧
  allowed_paths (add_command a command) = allowed_paths a ∧
  allowed_modules (add_path resolve a path) = allowed_modules a ∧
  allowed_commands (add_path resolve a path) = allowed_commands a.
Proof.
  assert (∀ q, is_path_allowed resolve (add_path resolve a path) q
               = is_path_allowed resolve a q
                 || relative_to (resolve q) (resolve path)) as Hpath.
  { intros q. apply eq_true_iff_eq.
    rewrite orb_true_iff, !is_path_allowed_iff. simpl. split.
    - intros (x & [Hin| ->%elem_of_singleton]%elem_of_union & Hr).
      + left. by exists x.
      + by right.
    - intros [(x & Hin & Hr)|Hr].
      + exists x. split; [|done]. apply elem_of_union. by left.
      + exists (resolve path). split; [|done]. apply elem_of_union. right.
        by apply elem_of_singleton. }
  split_and!; try done.
  - intros c. unfold is_command_allowed. destruct (first_word c); [|done].
    simpl. rewrite bool_decide_eq_false_2; [done|]. apply not_elem_of_empty.
  - intros m. unfold is_module_allowed. simpl. apply eq_true_iff_eq.
    rewrite orb_true_iff, !bool_decide_eq_true, elem_of_union,
      elem_of_singleton. done.
  - intros q below Hq. rewrite Hpath, Hq, relative_to_app. apply orb_true_r.
  - intros c. unfold is_command_allowed. destruct (first_word c) as [w|];
      [|done]. simpl. f_equal. apply eq_true_iff_eq.
    rewrite orb_true_iff, !bool_decide_eq_true, elem_of_union,
      elem_of_singleton. split; intros [H|H]; auto; right; congruence.
Qed.

Example sibling_directory_not_allowed :
  let resolve := fun p : list string => p in
  let a := add_path resolve init ["/"; "home"; "user"] in
  is_path_allowed resolve a ["/"; "home"; "user"; "project"; "main.py"] = true ∧
  is_path_allowed resolve a ["/"; "home"; "user2"; "main.py"] = false.
Proof. split; vm_compute; reflexivity. Qed.

End AllowlistFacts.

(** ** The refactor engine *)

Module RefactorEngineFacts.

Import PyText RefactorEngine.

Lemma slice_to_length n s : String.length (slice_to n s) ≤ n.
Proof.
  revert s. induction n as [|n IH]; intros [|c s]; simpl; try lia.
  pose proof (IH s). lia.
Qed.

Lemma slice_to_nonempty n s : s ≠ "" → slice_to (S n) s ≠ "".
Proof. destruct s; [done|]. cbn [slice_to]. done. Qed.

Lemma last_meaningful_bounds lines issue :
  last_meaningful lines = Some issue →
  issue ≠ "" ∧ String.length issue ≤ 200 ∧
  ∃ line, line ∈ lines ∧ issue = slice_to 200 (strip line).
Proof.
  induction lines as [|line rest IH]; cbn [last_meaningful]; [done|].
  destruct (negb (bool_decide (strip line = "")) && _) eqn:E.
  - clear IH. intros H.
    assert (issue = slice_to 200 (strip line)) as Hi by congruence.
    clear H. apply andb_true_iff in E as [E _].
    apply negb_true_iff, bool_decide_eq_false in E.
    split; [rewrite Hi; by apply slice_to_nonempty|].
    split; [rewrite Hi; apply slice_to_length|].
    exists line. split; [apply list_elem_of_here|done].
  - intros H. destruct (IH H) as (H1 & H2 & l & Hl & H3).
    split_and!; try done. exists l. split; [by apply list_elem_of_further|done].
Qed.

Lemma split_on_nonempty sep s : split_on sep s ≠ [].
Proof.
  destruct s as [|c s]; simpl; [done|].
  destruct (Ascii.eqb c sep); [done|]. by destruct (split_on sep s).
Qed.

Lemma split_on_app sep above line :
  split_on sep (above +:+ String sep line)
  = split_on sep above ++ split_on sep line.
Proof.
  induction above as [|c above IH]; simpl.
  - by rewrite Ascii.eqb_refl.
  - destruct (Ascii.eqb c sep); [by rewrite IH|].
    rewrite IH. destruct (split_on sep above) as [|piece pieces] eqn:E; [|done].
    by apply split_on_nonempty in E.
Qed.


Lemma split_on_one_line line :
  one_line line = true → split_on newline line = [line].
Proof.
  induction line as [|c line IH]; simpl; [done|].
  intros [Hc Hl]%andb_true_iff. apply negb_true_iff in Hc. rewrite Hc.
  by rewrite IH.
Qed.

(** X29: the issue that [_extract_issue] hands to the chat engine is never
    empty and never longer than 200 characters.  For the empty trace it is
    "Unknown error"; when the last line of the trace is not blank and does
    not begin with "File", it is that line, stripped and cut to 200
    characters, whatever stands above it. *)
Theorem extract_issue_spec (trace : string) :
  extract_issue trace ≠ "" ∧
  String.length (extract_issue trace) ≤ 200 ∧
  (trace = "" → extract_issue trace = "Unknown error") ∧
  (∀ above line,
     trace = line ∨ trace = above +:+ String newline line →
     one_line line = true →
     strip line ≠ "" →
     PyStr.startswith (strip line) "File" = false →
     extract_issue trace = slice_to 200 (strip line)).
Proof.
  split_and!.
  - unfold extract_issue.
    destruct (last_meaningful _) as [issue|] eqn:E.
    + by apply last_meaningful_bounds in E as (? & _).
    + case_bool_decide as Ht; [done|]. by apply slice_to_nonempty.
  - unfold extract_issue.
    destruct (last_meaningful _) as [issue|] eqn:E.
    + by apply last_meaningful_bounds in E as (_ & ? & _).
    + case_bool_decide as Ht; [vm_compute; lia|apply slice_to_length].
  - intros ->. reflexivity.
  - intros above line Ht Hl Hs Hf. unfold extract_issue.
    assert (∃ before, rev (split_on newline trace) = line :: before)
      as [before ->].
    { destruct Ht as [-> | ->].
      - exists []. by rewrite split_on_one_line.
      - exists (rev (split_on newline above)).
        rewrite split_on_app, (split_on_one_line line) by done.
        by rewrite rev_unit. }
    cbn [last_meaningful]. rewrite Hf.
    rewrite (bool_decide_eq_false_2 _ Hs). reflexivity.
Qed.

Example extract_issue_traceback :
  extract_issue
    ("Traceback (most recent call last):" +:+ String newline
       ("  File 'main.py', line 3, in <module>" +:+ String newline
          ("ZeroDivisionError: division by zero" +:+ String newline "")))
  = "ZeroDivisionError: division by zero".
Proof. vm_compute. reflexivity. Qed.

(** X30: [refactor_on_error] asks the chat engine once or twice.  The second
    query is sent exactly when the first answer has a confidence below 0.6
    (a missing confidence counts as 0) and [max_retries] is positive, and
    then its outcome is the result; there is never a third query, so every
    positive [max_retries] behaves like 1.  An exception of the chat engine
    is passed on. *)
Theorem refactor_on_error_spec (handle_query : ChatEngine)
    (error_trace affected_file : string) (max_retries : Z) :
  let query := "Fix this bug in " +:+ affected_file +:+ ": "
               +:+ extract_issue error_trace
               +:+ ". Provide a working fix as a diff." in
  let query2 := "Analyze this error: " +:+ slice_to 500 error_trace
                +:+ ". Fix " +:+ affected_file
                +:+ " with proper error handling." in
  let retry := match handle_query 0 query with
               | Py.Return first =>
                   low_confidence first && (0 <? max_retries)%Z
               | Py.Raise _ => false
               end in
  refactor_on_error handle_query error_trace affected_file max_retries
  = (if retry then (handle_query 1 query2, [query; query2])
     else (handle_query 0 query, [query])) ∧
  ((0 < max_retries)%Z →
   refactor_on_error handle_query error_trace affected_file max_retries
   = refactor_on_error handle_query error_trace affected_file 1) ∧
  ((max_retries ≤ 0)%Z → retry = false) ∧
  (∀ first, handle_query 0 query = Py.Return first →
     (confidence first = None → low_confidence first = true) ∧
     (∀ q, confidence first = Some q →
        (low_confidence first = true ↔ (q < 6 # 10)%Q))).
Proof.
  intros query query2 retry. subst retry. unfold refactor_on_error.
  fold query. fold query2. split_and!.
  - destruct (handle_query 0 query) as [first|e]; [|done].
    by destruct (low_confidence first && _).
  - intros Hpos. destruct (handle_query 0 query) as [first|e]; [|done].
    assert ((0 <? max_retries)%Z = true) as -> by (apply Z.ltb_lt; lia).
    done.
  - intros Hneg. destruct (handle_query 0 query) as [first|e]; [|done].
    assert ((0 <? max_retries)%Z = false) as -> by (apply Z.ltb_ge; lia).
    apply andb_false_r.
  - intros first _. unfold low_confidence. split.
    + intros ->. reflexivity.
    + intros q ->. simpl. destruct (Qlt_le_dec q (6 # 10)%Q) as [H|H].
      * split; done.
      * split; [done|]. intros Hq. exfalso. by apply (Qlt_not_le _ _ Hq).
Qed.

Example unsure_answer_is_asked_again :
  let engine : ChatEngine := fun n _ =>
    Py.Return {| confidence := Some (if bool_decide (n = 0) then (1 # 2)%Q
                                     else (9 # 10)%Q);
                 reply := ∅ |} in
  length (snd (refactor_on_error engine "ValueError: x" "main.py" 2)) = 2 ∧
  length (snd (refactor_on_error engine "ValueError: x" "main.py" 0)) = 1 ∧
  (confidence <$> match fst (refactor_on_error engine "ValueError: x"
                               "main.py" 2) with
                  | Py.Return r => Some r
                  | Py.Raise _ => None
                  end) = Some (Some (9 # 10)%Q).
Proof. vm_compute. repeat split. Qed.

End RefactorEngineFacts.

(** ** The planner and the missions it plans *)

Module PlannerFacts.

Import TaskGraph MissionController.

Lemma str_in_self needle post :
  PyStr.str_in needle (needle +:+ post) = true.
Proof.
  assert (PyStr.startswith (needle +:+ post) needle = true) as H.
  { induction needle as [|a needle IH]; simpl; [done|].
    rewrite IH. by rewrite Ascii.eqb_refl. }
  destruct needle; simpl in *; [by destruct post|]. by rewrite H.
Qed.

Lemma str_in_prepend needle pre hay :
  PyStr.str_in needle hay = true → PyStr.str_in needle (pre +:+ hay) = true.
Proof.
  intros H. induction pre as [|c pre IH]; simpl; [done|].
  rewrite IH. apply orb_true_r.
Qed.

Lemma generate_tasks_cases description :
  Decomposition.generate_tasks description = Decomposition.decompose_web_app ∨
  Decomposition.generate_tasks description = Decomposition.decompose_api ∨
  Decomposition.generate_tasks description = Decomposition.decompose_cli ∨
  Decomposition.generate_tasks description = Decomposition.decompose_generic.
Proof.
  unfold Decomposition.generate_tasks.
  destruct (_ || _); [by left|].
  destruct (PyStr.str_in "api" _); [right; by left|].
  destruct (_ || _); [right; right; by left|by repeat right].
Qed.

Lemma closed_check g :
  Forall (fun task => Forall (fun d => d ∈ keys g) (dependencies task)) g →
  closed g.
Proof.
  intros H task Hin d Hd. rewrite Forall_forall in H.
  specialize (H task Hin). rewrite Forall_forall in H. by apply H.
Qed.

Lemma acyclic_check (rank : string → nat) g :
  Forall (fun task => Forall (fun d => rank d < rank (task_id task))
                        (dependencies task)) g →
  acyclic g.
Proof.
  intros H. exists rank. intros task Hin d Hd. rewrite Forall_forall in H.
  specialize (H task Hin). rewrite Forall_forall in H. by apply H.
Qed.

(** X21: every plan of the planner is in order.  Whatever the description,
    the plan has unique ids, names only its own tasks as dependencies, has
    no dependency cycle, and all its tasks are PENDING; so
    [get_execution_order] returns on it, after one pass, the ids in the
    order of the template, and the plan has four, five or six tasks. *)
Theorem create_plan_well_formed (description : string) (extra : nat) :
  let g := Decomposition.create_plan description in
  wf g ∧ closed g ∧ acyclic g ∧
  Forall (fun task => status task = PENDING) g ∧
  get_execution_order (2 + extra) g = Some (keys g) ∧
  topological g (keys g) ∧
  (keys g = ["1"; "2"; "3"; "4"; "5"; "6"] ∨
   keys g = ["1"; "2"; "3"; "4"; "5"] ∨
   keys g = ["1"; "2"; "3"; "4"]).
Proof.
  intros g. subst g. unfold Decomposition.create_plan, Decomposition.decompose.
  set (rank := fun id : string =>
                 if decide (id = "1") then 1 else
                 if decide (id = "2") then 2 else
                 if decide (id = "3") then 3 else
                 if decide (id = "4") then 4 else
                 if decide (id = "5") then 5 else 6).
  destruct (generate_tasks_cases description) as [-> | [-> | [-> | ->]]].
  all: split; [apply (bool_decide_unpack _); vm_compute; reflexivity|].
  all: split; [apply closed_check, (bool_decide_unpack _); vm_compute;
               reflexivity|].
  all: split; [apply (acyclic_check rank), (bool_decide_unpack _);
               vm_compute; reflexivity|].
  all: split; [apply (bool_decide_unpack _); vm_compute; reflexivity|].
  all: split; [vm_compute; reflexivity|].
  all: split; [|vm_compute; auto].
  all: intros pre id post Ho task Hin Hid d Hd.
  all: vm_compute in Hin, Ho.
  all: repeat (apply elem_of_cons in Hin as [->|Hin]);
         try (by apply elem_of_nil in Hin).
  all: simpl in Hid, Hd; subst id.
  all: repeat (destruct pre as [|? pre]; simplify_eq/=);
         repeat (apply elem_of_cons in Hd as [->|Hd]);
         try (by apply elem_of_nil in Hd).
  all: repeat first [apply list_elem_of_here | apply list_elem_of_further].
Qed.

(** X22: the template is chosen by substring, whatever the letter case, and
    ["web"] and ["app"] are looked for first.  A description in which
    these letters occur anywhere, inside a longer word too, is planned
    with the six tasks of the web template, also when it speaks of an API
    or of a command line tool. *)
Theorem create_plan_web_wins (pre word post : string) :
  PyStr.lower word = "web" ∨ PyStr.lower word = "app" →
  Decomposition.create_plan (pre +:+ word +:+ post)
  = Decomposition.create_plan "web" ∧
  map task_type (Decomposition.create_plan (pre +:+ word +:+ post))
  = ["setup"; "frontend"; "backend"; "development"; "testing"; "packaging"].
Proof.
  intros Hw.
  assert (Decomposition.generate_tasks (pre +:+ word +:+ post)
          = Decomposition.decompose_web_app) as Hg.
  { unfold Decomposition.generate_tasks.
    rewrite !PyStrFacts.lower_app.
    destruct Hw as [-> | ->].
    - rewrite (str_in_prepend "web") by apply str_in_self. done.
    - rewrite (str_in_prepend "app") by apply str_in_self.
      by rewrite orb_true_r. }
  unfold Decomposition.create_plan, Decomposition.decompose. rewrite Hg.
  split; vm_compute; reflexivity.
Qed.

Lemma create_plan_web_wins_witness :
  PyStr.lower "App" = "app" ∧
  length (Decomposition.create_plan "a CLI Application with an API") = 6.
Proof.
  split; [reflexivity|].
  destruct (create_plan_web_wins "a CLI " "App" "lication with an API"
              (or_intror eq_refl)) as [H _].
  change ("a CLI " +:+ "App" +:+ "lication with an API")
    with "a CLI Application with an API" in H.
  rewrite H. reflexivity.
Defined.

(** X23: a mission planned from the API template runs to its end when
    every step succeeds.  If the handlers report success and the test runs
    return, the loop of the server ends after six calls of
    [execute_next_step]: five execute a task each, the sixth finds the
    plan complete and sets the mission to COMPLETED; the mission then
    counts five more completed steps, has no new error, and every task is
    COMPLETED. *)
Theorem api_mission_completes (description : string) (world : nat → World)
    (c : t) (extra : nat) :
  Decomposition.generate_tasks description = Decomposition.decompose_api →
  plan c = Decomposition.create_plan description →
  (∀ i, reliable (fst (world i))) →
  ∃ c',
    serve_loop (6 + extra) world 0 c = Some (c', 6) ∧
    MissionState.status (mission c') = MissionState.COMPLETED ∧
    MissionState.completed_steps (mission c')
    = (MissionState.completed_steps (mission c) + 5)%Z ∧
    MissionState.error (mission c') = MissionState.error (mission c) ∧
    Forall (fun task => status task = COMPLETED) (plan c').
Proof.
  intros Hg Hp Hw.
  assert (plan c
          = fold_left (fun graph d => add_task graph (Decomposition.task_of d))
              Decomposition.decompose_api empty) as Hplan.
  { rewrite Hp. unfold Decomposition.create_plan, Decomposition.decompose.
    by rewrite Hg. }
  assert (lively 5 (plan c) = true) as Hl
    by (rewrite Hplan; vm_compute; reflexivity).
  destruct (MissionControllerMore.serve_loop_reliable world Hw 5 (1 + extra)
              0 c Hl) as (c5 & Hs & Hp5 & Hm5 & Hn5 & He5).
  assert (List.filter (is_ready (plan c5)) (plan c5) = []) as Hidle
    by (rewrite Hp5, Hplan; vm_compute; reflexivity).
  assert (is_complete (plan c5) = true) as Hc
    by (rewrite Hp5, Hplan; vm_compute; reflexivity).
  pose proof (MissionControllerMore.step_idle (fst (world 5)) (snd (world 5))
                c5 Hidle) as I.
  change (5 + (1 + extra)) with (6 + extra) in Hs. rewrite Hs.
  cbn [serve_loop Nat.add]. destruct (world 5) as [env now] eqn:Ew5.
  simpl in I.
  destruct (execute_next_step env now c5) as [c6 [success step_id]] eqn:E6.
  destruct I as ([= -> ->] & Hp6 & Hm6 & Hn6 & He6 & _).
  exists c6. cbn [falsy]. rewrite Hc in Hm6.
  split_and!; try done; try congruence.
  - rewrite Hn6, Hn5. lia.
  - rewrite Hp6, Hp5, Hplan. apply (bool_decide_unpack _). vm_compute.
    reflexivity.
Qed.

Lemma api_mission_completes_witness :
  let c := controller_for "m" "a REST API"
             (Decomposition.create_plan "a REST API") in
  ∃ c', serve_loop 6 (fun i => (obliging, Z.of_nat i)) 0 c = Some (c', 6) ∧
        MissionState.status (mission c') = MissionState.COMPLETED.
Proof.
  intros c.
  assert (∀ i : nat, reliable (fst ((fun i => (obliging, Z.of_nat i)) i)))
    as Hw.
  { intros i. split; [intros task; by exists "done"|].
    intros n. eexists. reflexivity. }
  destruct (api_mission_completes "a REST API"
              (fun i => (obliging, Z.of_nat i)) c 0 eq_refl eq_refl Hw)
    as (c' & Hs & Hm & _).
  exists c'. split; [exact Hs|exact Hm].
Defined.

(** X24: a mission planned from one of the other three templates is never
    completed.  In the web, the command line and the generic template two
    tasks become eligible together; [execute_next_step] executes one and
    the other stays READY.  So whatever the collaborators do and however
    many steps are made, the plan does not become complete and no step
    sets the mission to COMPLETED. *)
Theorem other_missions_never_complete (description : string) (c : t)
    (worlds : list World) :
  Decomposition.generate_tasks description ≠ Decomposition.decompose_api →
  plan c = Decomposition.create_plan description →
  let '(c', outs) := run_steps worlds c in
  is_complete (plan c') = false ∧
  (MissionState.status (mission c') = MissionState.COMPLETED →
   MissionState.status (mission c) = MissionState.COMPLETED).
Proof.
  intros Hg Hp.
  assert (wf (plan c) ∧ hopeless (plan c)) as [Hwf Hh].
  { rewrite Hp. unfold Decomposition.create_plan, Decomposition.decompose.
    destruct (generate_tasks_cases description) as [E | [E | [E | E]]];
      [|done| |]; rewrite E;
      (split; [apply (bool_decide_unpack _); vm_compute; reflexivity|]).
    - eapply hopeless_next; [vm_compute; reflexivity|].
      eapply hopeless_siblings. vm_compute. reflexivity.
    - eapply hopeless_next; [vm_compute; reflexivity|].
      eapply hopeless_next; [vm_compute; reflexivity|].
      eapply hopeless_next; [vm_compute; reflexivity|].
      eapply hopeless_siblings. vm_compute. reflexivity.
    - eapply hopeless_next; [vm_compute; reflexivity|].
      eapply hopeless_next; [vm_compute; reflexivity|].
      eapply hopeless_siblings. vm_compute. reflexivity. }
  pose proof (MissionControllerMore.hopeless_run worlds c Hwf Hh) as R.
  destruct (run_steps worlds c) as [c' outs]. destruct R as [Hh' Hm].
  split; [|done]. by apply MissionControllerMore.hopeless_not_complete.
Qed.

Lemma other_missions_never_complete_witness :
  let c := controller_for "m" "a web shop"
             (Decomposition.create_plan "a web shop") in
  MissionState.status
    (mission (fst (run_steps (replicate 10 (obliging, 0%Z)) c)))
  ≠ MissionState.COMPLETED.
Proof.
  intros c.
  assert (Decomposition.generate_tasks "a web shop"
          ≠ Decomposition.decompose_api) as Hg by (vm_compute; discriminate).
  pose proof (other_missions_never_complete "a web shop" c
                (replicate 10 (obliging, 0%Z)) Hg eq_refl) as H.
  destruct (run_steps _ c) as [c' outs]. simpl. intros Hc.
  destruct H as [_ H]. specialize (H Hc). discriminate H.
Defined.

End PlannerFacts.
